(** * Mini Triangle compiler: scanner, parser and code generator

    A shallow embedding of [scanner.py], [parser.py] and [codegen.py].
    Every Python method becomes a computation in a state-and-exception
    monad over the object's attributes.  The [while] loops and the
    recursive descent are driven by a fuel counter, so that a loop that
    never leaves is visible as a computation that runs out of fuel at
    every fuel. *)

From Stdlib Require Import String Ascii List ZArith Lia Bool Arith.
Import ListNotations.
Local Open Scope string_scope.
Local Open Scope list_scope.

(** ** Python values carried by tokens and AST nodes

    A token's [val] is an [int] ([0] for keywords and punctuation, the
    number for an integer literal) or a [str] (identifiers, operators). *)

Inductive value : Type :=
| VInt (z : Z)
| VStr (s : string).

Definition value_eqb (a b : value) : bool :=
  match a, b with
  | VInt x, VInt y => Z.eqb x y
  | VStr x, VStr y => String.eqb x y
  | _, _ => false
  end.

(** [x in l] for a list of string constants. *)
Definition value_in (v : value) (l : list string) : bool :=
  existsb (fun s => value_eqb v (VStr s)) l.

(** ** Outcomes and the state-and-exception monad *)

Inductive result (E A : Type) : Type :=
| Ok (a : A)
| Raise (e : E)
| OutOfFuel.

Arguments Ok {E A} a.
Arguments Raise {E A} e.
Arguments OutOfFuel {E A}.

Definition M (S E A : Type) : Type := S -> result E (A * S).

Definition ret {S E A} (a : A) : M S E A := fun s => Ok (a, s).

Definition bind {S E A B} (m : M S E A) (k : A -> M S E B) : M S E B :=
  fun s =>
    match m s with
    | Ok (a, s') => k a s'
    | Raise e => Raise e
    | OutOfFuel => OutOfFuel
    end.

Definition raise {S E A} (e : E) : M S E A := fun _ => Raise e.

Definition out_of_fuel {S E A} : M S E A := fun _ => OutOfFuel.

Definition get {S E} : M S E S := fun s => Ok (s, s).

Definition put {S E} (s : S) : M S E unit := fun _ => Ok (tt, s).

Declare Scope monad_scope.
Delimit Scope monad_scope with monad.
Notation "x <- m ;; k" := (bind m (fun x => k))
  (at level 61, m at next level, right associativity) : monad_scope.
Notation "m ;; k" := (bind m (fun _ => k))
  (at level 61, right associativity) : monad_scope.
Local Open Scope monad_scope.

(** The outcome without the final state. *)
Definition value_of {E A S} (r : result E (A * S)) : result E A :=
  match r with
  | Ok (a, _) => Ok a
  | Raise e => Raise e
  | OutOfFuel => OutOfFuel
  end.

(** ** Approximation order on outcomes

    [r ⊑ r'] when [r] ran out of fuel or already is [r'].  Every
    fuel-driven function below is monotone for it. *)

Definition le_res {E A} (r r' : result E A) : Prop :=
  r = OutOfFuel \/ r = r'.

Definition le_M {S E A} (m m' : M S E A) : Prop :=
  forall s, le_res (m s) (m' s).

(** * The scanner ([scanner.py]) *)

Module scanner.

Inductive token_type : Type :=
| TK_IDENTIFIER | TK_INTLITERAL | TK_OPERATOR
| TK_BEGIN | TK_CONST | TK_DO | TK_ELSE | TK_END | TK_IF | TK_IN
| TK_LET | TK_THEN | TK_VAR | TK_WHILE
| TK_SEMICOLON | TK_COLON | TK_BECOMES | TK_IS | TK_LPAREN | TK_RPAREN
| TK_EOT.

(** The integer constant behind each token type. *)
Definition token_code (t : token_type) : Z :=
  match t with
  | TK_IDENTIFIER => 0 | TK_INTLITERAL => 1 | TK_OPERATOR => 2
  | TK_BEGIN => 3 | TK_CONST => 4 | TK_DO => 5 | TK_ELSE => 6
  | TK_END => 7 | TK_IF => 8 | TK_IN => 9 | TK_LET => 10
  | TK_THEN => 11 | TK_VAR => 12 | TK_WHILE => 13
  | TK_SEMICOLON => 14 | TK_COLON => 15 | TK_BECOMES => 16
  | TK_IS => 17 | TK_LPAREN => 18 | TK_RPAREN => 19 | TK_EOT => 20
  end%Z.

Definition token_type_eqb (a b : token_type) : bool :=
  Z.eqb (token_code a) (token_code b).

Definition OPER : list string := ["+"; "-"; "*"; "/"; "<"; ">"; "="; "\"].

Module Token.
Record t : Type := mk { type : token_type; val : value; pos : Z }.
End Token.
Definition Token : Type := Token.t.

Inductive ScannerError : Type :=
| mkScannerError (pos : Z) (char : string).

(** The attributes of a [Scanner] object.  [inputstr] is the part of the
    text that [read] has not returned yet; [char] is [""] or one
    character. *)
Record Scanner : Type := mkScanner {
  inputstr : string;
  eot : bool;
  pos : Z;
  char : string
}.

Definition Sc (A : Type) : Type := M Scanner ScannerError A.

(** *** Character classes of Python 2 byte strings (C locale) *)

Definition in_range (lo hi : nat) (c : ascii) : bool :=
  let n := nat_of_ascii c in (lo <=? n)%nat && (n <=? hi)%nat.

Definition ascii_isspace (c : ascii) : bool :=
  in_range 9 13 c || (nat_of_ascii c =? 32)%nat.

Definition ascii_isdigit (c : ascii) : bool := in_range 48 57 c.

Definition ascii_isalpha (c : ascii) : bool :=
  in_range 65 90 c || in_range 97 122 c.

Definition ascii_isalnum (c : ascii) : bool :=
  ascii_isalpha c || ascii_isdigit c.

Fixpoint all_chars (p : ascii -> bool) (s : string) : bool :=
  match s with
  | EmptyString => true
  | String c r => p c && all_chars p r
  end.

(** [s.isX()] is false on the empty string. *)
Definition str_is (p : ascii -> bool) (s : string) : bool :=
  match s with
  | EmptyString => false
  | _ => all_chars p s
  end.

Definition isspace := str_is ascii_isspace.
Definition isdigit := str_is ascii_isdigit.
Definition isalpha := str_is ascii_isalpha.
Definition isalnum := str_is ascii_isalnum.

Definition newline : string := String (ascii_of_nat 10) EmptyString.

(** [int(s)] on a run of decimal digits. *)
Fixpoint int_acc (acc : Z) (s : string) : Z :=
  match s with
  | EmptyString => acc
  | String c r => int_acc (10 * acc + (Z.of_nat (nat_of_ascii c) - 48)) r
  end%Z.

Definition int (s : string) : Z := int_acc 0 s.

(** [string.join(l, '')] *)
Definition join (l : list string) : string :=
  fold_right String.append "" l.

(** *** Cursor *)

Definition char_current : Sc string := fun self => Ok (char self, self).

(** [inputstr.read(1)] *)
Definition read1 (s : string) : string * string :=
  match s with
  | EmptyString => ("", "")
  | String c r => (String c EmptyString, r)
  end.

Definition char_take : Sc string := fun self =>
  let char_prev := char self in
  let (c, rest) := read1 (inputstr self) in
  Ok (char_prev,
      {| inputstr := rest;
         eot := if String.eqb c "" then true else eot self;
         pos := (pos self + 1)%Z;
         char := c |}).

Definition char_pos : Sc Z := fun self => Ok ((pos self - 1)%Z, self).

Definition char_eot : Sc bool := fun self => Ok (eot self, self).

(** [Scanner(input)]: the constructor reads the first character. *)
Definition init (input : string) : Scanner :=
  let self := {| inputstr := input; eot := false; pos := 0%Z; char := "" |} in
  match char_take self with
  | Ok (_, self') => self'
  | _ => self
  end.

(** *** [skip_comm] *)

Fixpoint skip_comm (fuel : nat) : Sc unit :=
  match fuel with
  | O => out_of_fuel
  | S fuel =>
      c <- char_current ;;
      if negb (String.eqb c newline) then
        char_take ;; skip_comm fuel
      else ret tt
  end.

(** *** [scan_int] *)

Fixpoint scan_int_loop (fuel : nat) (numlist : list string)
  : Sc (list string) :=
  match fuel with
  | O => out_of_fuel
  | S fuel =>
      c <- char_current ;;
      if isdigit c then
        d <- char_take ;; scan_int_loop fuel (numlist ++ [d])
      else ret numlist
  end.

Definition scan_int (fuel : nat) : Sc Token :=
  pos <- char_pos ;;
  d <- char_take ;;
  numlist <- scan_int_loop fuel [d] ;;
  ret (Token.mk TK_INTLITERAL (VInt (int (join numlist))) pos).

(** *** [scan_chars] *)

Fixpoint scan_chars_loop (fuel : nat) (charList : list string)
  : Sc (list string) :=
  match fuel with
  | O => out_of_fuel
  | S fuel =>
      c <- char_current ;;
      if isalnum c then
        d <- char_take ;; scan_chars_loop fuel (charList ++ [d])
      else ret charList
  end.

Definition keyword (token : string) (pos : Z) : Token :=
  if String.eqb token "begin" then Token.mk TK_BEGIN (VInt 0) pos
  else if String.eqb token "const" then Token.mk TK_CONST (VInt 0) pos
  else if String.eqb token "do" then Token.mk TK_DO (VInt 0) pos
  else if String.eqb token "else" then Token.mk TK_ELSE (VInt 0) pos
  else if String.eqb token "end" then Token.mk TK_END (VInt 0) pos
  else if String.eqb token "if" then Token.mk TK_IF (VInt 0) pos
  else if String.eqb token "in" then Token.mk TK_IN (VInt 0) pos
  else if String.eqb token "let" then Token.mk TK_LET (VInt 0) pos
  else if String.eqb token "then" then Token.mk TK_THEN (VInt 0) pos
  else if String.eqb token "var" then Token.mk TK_VAR (VInt 0) pos
  else if String.eqb token "while" then Token.mk TK_WHILE (VInt 0) pos
  else Token.mk TK_IDENTIFIER (VStr token) pos.

Definition scan_chars (fuel : nat) : Sc Token :=
  pos <- char_pos ;;
  d <- char_take ;;
  charList <- scan_chars_loop fuel [d] ;;
  ret (keyword (join charList) pos).

(** *** [scan_token] *)

(** A one-character token: built at the current position, then the
    character is taken. *)
Definition single (type : token_type) (val : value) : Sc Token :=
  pos <- char_pos ;;
  char_take ;;
  ret (Token.mk type val pos).

Fixpoint scan_token (fuel : nat) : Sc Token :=
  match fuel with
  | O => out_of_fuel
  | S fuel =>
      c <- char_current ;;
      at_end <- char_eot ;;
      if at_end then
        pos <- char_pos ;; ret (Token.mk TK_EOT (VInt 0) pos)
      else if isspace c then
        char_take ;; scan_token fuel
      else if isdigit c then scan_int fuel
      else if isalpha c then scan_chars fuel
      else if existsb (String.eqb c) OPER then single TK_OPERATOR (VStr c)
      else if String.eqb c "!" then
        skip_comm fuel ;; scan_token fuel
      else if String.eqb c ";" then single TK_SEMICOLON (VInt 0)
      else if String.eqb c ":" then
        token <- single TK_COLON (VInt 0) ;;
        c <- char_current ;;
        if String.eqb c "=" then
          pos <- char_pos ;;
          char_take ;;
          ret (Token.mk TK_BECOMES (VInt 0) (pos - 1)%Z)
        else ret token
      else if String.eqb c "~" then single TK_IS (VInt 0)
      else if String.eqb c "(" then single TK_LPAREN (VInt 0)
      else if String.eqb c ")" then single TK_RPAREN (VInt 0)
      else
        pos <- char_pos ;;
        raise (mkScannerError pos c)
  end.

(** *** [scan] *)

Fixpoint scan_loop (fuel : nat) (tokens : list Token) : Sc (list Token) :=
  match fuel with
  | O => out_of_fuel
  | S fuel =>
      token <- scan_token fuel ;;
      let tokens := tokens ++ [token] in
      if token_type_eqb (Token.type token) TK_EOT then ret tokens
      else scan_loop fuel tokens
  end.

Definition scan (fuel : nat) : Sc (list Token) := scan_loop fuel [].

(** [Scanner(text).scan()] *)
Definition scanAll (fuel : nat) (text : string)
  : result ScannerError (list Token) :=
  value_of (scan fuel (init text)).

End scanner.

(** * The abstract syntax tree ([ast.py]) *)

Module ast.

(** Modelled from the spec: the node classes of [ast.py], which is not
    among the sources.  The constructors and their fields are the ones
    the parser builds and the code generator reads; a leaf keeps the
    token value it was built from. *)
Record Vname : Type := mkVname { identifier : value }.

(** Modelled from the spec: the type denoter node of [ast.py]; it keeps
    the value of the token found after the colon. *)
Record TypeDenoter : Type := mkTypeDenoter { type_identifier : value }.

(** Modelled from the spec: the expression nodes of [ast.py]. *)
Inductive Expression : Type :=
| IntegerExpression (value : value)
| VnameExpression (variable : Vname)
| BinaryExpression (expr1 : Expression) (oper : value) (expr2 : Expression).

(** Modelled from the spec: the declaration nodes of [ast.py]. *)
Inductive Declaration : Type :=
| ConstDeclaration (identifier : value) (expression : Expression)
| VarDeclaration (identifier : value) (type_denoter : TypeDenoter)
| SequentialDeclaration (decl1 decl2 : Declaration).

(** Modelled from the spec: the command nodes of [ast.py]. *)
Inductive Command : Type :=
| AssignCommand (variable : Vname) (expression : Expression)
| CallCommand (identifier : value) (expression : Expression)
| SequentialCommand (command1 command2 : Command)
| IfCommand (expression : Expression) (command1 command2 : Command)
| WhileCommand (expression : Expression) (command : Command)
| LetCommand (declaration : Declaration) (command : Command).

(** Modelled from the spec: the root node of [ast.py]. *)
Record Program : Type := mkProgram { command : Command }.

End ast.

(** * The parser ([parser.py]) *)

Module parser.
Import scanner ast.

(** What a parse can raise: [ParserError], or the [IndexError] of
    [tokens[curindex]] on a token list that does not end in [TK_EOT]. *)
Inductive ParserException : Type :=
| ParserError (pos : Z) (type : token_type)
| IndexError.

Record Parser : Type := mkParser {
  tokens : list Token;
  curindex : nat;
  curtoken : Token
}.

Definition P (A : Type) : Type := M Parser ParserException A.

(** [Parser(tokens)] *)
Definition init (tokens : list Token) : result ParserException Parser :=
  match nth_error tokens 0 with
  | Some t => Ok {| tokens := tokens; curindex := 0; curtoken := t |}
  | None => Raise IndexError
  end.

Definition token_current : P Token := fun self => Ok (curtoken self, self).

Definition token_accept_any : P unit := fun self =>
  if negb (token_type_eqb (Token.type (curtoken self)) TK_EOT) then
    let curindex := S (curindex self) in
    match nth_error (tokens self) curindex with
    | Some t =>
        Ok (tt, {| tokens := tokens self; curindex := curindex; curtoken := t |})
    | None => Raise IndexError
    end
  else Ok (tt, self).

(** [raise ParserError(self.curtoken.pos, self.curtoken.type)] *)
Definition bad_token {A} : P A := fun self =>
  Raise (ParserError (Token.pos (curtoken self)) (Token.type (curtoken self))).

Definition token_accept (type : token_type) : P unit :=
  token <- token_current ;;
  if negb (token_type_eqb (Token.type token) type) then bad_token
  else token_accept_any.

(** The loop test of the expression tiers. *)
Definition is_oper (token : Token) (opers : list string) : bool :=
  token_type_eqb (Token.type token) TK_OPERATOR
  && value_in (Token.val token) opers.

(** *** Expressions

    The three tiers call down to [parse_priexpr], which calls back to
    [parse_expr] inside parentheses; that call is the section variable,
    tied by [parse_expr] below. *)

Section Expressions.
Variable parse_expr : P Expression.

Definition parse_priexpr : P Expression :=
  token <- token_current ;;
  match Token.type token with
  | TK_INTLITERAL =>
      let e1 := IntegerExpression (Token.val token) in
      token_accept_any ;;
      ret e1
  | TK_LPAREN =>
      token_accept_any ;;
      e1 <- parse_expr ;;
      token_accept TK_RPAREN ;;
      ret e1
  | TK_IDENTIFIER =>
      let vname := mkVname (Token.val token) in
      let e1 := VnameExpression vname in
      token_accept_any ;;
      ret e1
  | _ => bad_token
  end.

Fixpoint parse_tertexpr_loop (fuel : nat) (e1 : Expression) (token : Token)
  : P Expression :=
  match fuel with
  | O => out_of_fuel
  | S fuel =>
      if is_oper token ["*"; "/"; "\"] then
        let oper := Token.val token in
        token_accept_any ;;
        e2 <- parse_priexpr ;;
        token <- token_current ;;
        parse_tertexpr_loop fuel (BinaryExpression e1 oper e2) token
      else ret e1
  end.

Definition parse_tertexpr (fuel : nat) : P Expression :=
  e1 <- parse_priexpr ;;
  token <- token_current ;;
  parse_tertexpr_loop fuel e1 token.

Fixpoint parse_secexpr_loop (fuel : nat) (e1 : Expression) (token : Token)
  : P Expression :=
  match fuel with
  | O => out_of_fuel
  | S fuel =>
      if is_oper token ["+"; "-"] then
        let oper := Token.val token in
        token_accept_any ;;
        e2 <- parse_tertexpr fuel ;;
        token <- token_current ;;
        parse_secexpr_loop fuel (BinaryExpression e1 oper e2) token
      else ret e1
  end.

Definition parse_secexpr (fuel : nat) : P Expression :=
  e1 <- parse_tertexpr fuel ;;
  token <- token_current ;;
  parse_secexpr_loop fuel e1 token.

Fixpoint parse_expr_loop (fuel : nat) (e1 : Expression) (token : Token)
  : P Expression :=
  match fuel with
  | O => out_of_fuel
  | S fuel =>
      if is_oper token [">"; "<"; "="] then
        let oper := Token.val token in
        token_accept_any ;;
        e2 <- parse_secexpr fuel ;;
        token <- token_current ;;
        parse_expr_loop fuel (BinaryExpression e1 oper e2) token
      else ret e1
  end.

Definition parse_expr_body (fuel : nat) : P Expression :=
  e1 <- parse_secexpr fuel ;;
  token <- token_current ;;
  parse_expr_loop fuel e1 token.

End Expressions.

Fixpoint parse_expr (fuel : nat) : P Expression :=
  match fuel with
  | O => out_of_fuel
  | S fuel => parse_expr_body (parse_expr fuel) fuel
  end.

(** *** Declarations *)

Definition parse_const (fuel : nat) : P Declaration :=
  token <- token_current ;;
  if token_type_eqb (Token.type token) TK_IDENTIFIER then
    let vname := Token.val token in
    token_accept_any ;;
    token_accept TK_IS ;;
    exp <- parse_expr fuel ;;
    ret (ConstDeclaration vname exp)
  else bad_token.

Definition parse_var : P Declaration :=
  token <- token_current ;;
  if token_type_eqb (Token.type token) TK_IDENTIFIER then
    let vname := Token.val token in
    token_accept_any ;;
    token_accept TK_COLON ;;
    token <- token_current ;;
    let var_type := mkTypeDenoter (Token.val token) in
    ret (VarDeclaration vname var_type)
  else bad_token.

Definition parse_declaration (fuel : nat) : P Declaration :=
  token <- token_current ;;
  match Token.type token with
  | TK_VAR =>
      token_accept_any ;;
      decl <- parse_var ;;
      token_accept_any ;;
      ret decl
  | TK_CONST =>
      token_accept_any ;;
      parse_const fuel
  | _ => bad_token
  end.

(** *** Commands *)

Section Commands.
Variable parse_command : P Command.

Fixpoint parse_begin_loop (fuel : nat) (comm : Command) (token : Token)
  : P Command :=
  match fuel with
  | O => out_of_fuel
  | S fuel =>
      if token_type_eqb (Token.type token) TK_SEMICOLON then
        token_accept_any ;;
        token <- token_current ;;
        if token_type_eqb (Token.type token) TK_END then ret comm
        else
          comm2 <- parse_command ;;
          token <- token_current ;;
          parse_begin_loop fuel (SequentialCommand comm comm2) token
      else ret comm
  end.

Definition parse_begin (fuel : nat) : P Command :=
  token_accept_any ;;
  comm <- parse_command ;;
  token <- token_current ;;
  comm <- parse_begin_loop fuel comm token ;;
  token_accept TK_END ;;
  ret comm.

Definition parse_identifier (fuel : nat) : P Command :=
  token <- token_current ;;
  let vname := mkVname (Token.val token) in
  token_accept_any ;;
  token <- token_current ;;
  match Token.type token with
  | TK_BECOMES =>
      token_accept_any ;;
      e2 <- parse_expr fuel ;;
      ret (AssignCommand vname e2)
  | TK_LPAREN =>
      token_accept_any ;;
      e2 <- parse_expr fuel ;;
      token_accept TK_RPAREN ;;
      ret (CallCommand (identifier vname) e2)
  | _ => bad_token
  end.

Fixpoint parse_let_loop (fuel : nat) (decl : Declaration) (token : Token)
  : P Declaration :=
  match fuel with
  | O => out_of_fuel
  | S fuel =>
      if token_type_eqb (Token.type token) TK_SEMICOLON then
        token_accept_any ;;
        token <- token_current ;;
        if token_type_eqb (Token.type token) TK_IN then ret decl
        else
          decl2 <- parse_declaration fuel ;;
          token <- token_current ;;
          parse_let_loop fuel (SequentialDeclaration decl decl2) token
      else ret decl
  end.

Definition parse_let (fuel : nat) : P Command :=
  token_accept_any ;;
  decl <- parse_declaration fuel ;;
  token <- token_current ;;
  decl <- parse_let_loop fuel decl token ;;
  token_accept TK_IN ;;
  comm <- parse_command ;;
  ret (LetCommand decl comm).

Definition parse_command_body (fuel : nat) : P Command :=
  token <- token_current ;;
  match Token.type token with
  | TK_LET => parse_let fuel
  | TK_IDENTIFIER => parse_identifier fuel
  | TK_BEGIN => parse_begin fuel
  | TK_WHILE =>
      token_accept TK_WHILE ;;
      exp <- parse_expr fuel ;;
      token_accept TK_DO ;;
      comm <- parse_command ;;
      ret (WhileCommand exp comm)
  | TK_IF =>
      token_accept TK_IF ;;
      exp <- parse_expr fuel ;;
      token_accept_any ;;
      comm1 <- parse_command ;;
      token_accept_any ;;
      token_accept TK_ELSE ;;
      comm2 <- parse_command ;;
      ret (IfCommand exp comm1 comm2)
  | _ => bad_token
  end.

End Commands.

Fixpoint parse_command (fuel : nat) : P Command :=
  match fuel with
  | O => out_of_fuel
  | S fuel => parse_command_body (parse_command fuel) fuel
  end.

Definition parse_program (fuel : nat) : P Program :=
  e1 <- parse_command fuel ;;
  token_accept TK_EOT ;;
  ret (mkProgram e1).

(** [Parser(tokens).parse()] *)
Definition parse (fuel : nat) (tokens : list Token)
  : result ParserException Program :=
  match init tokens with
  | Ok self => value_of (parse_program fuel self)
  | Raise e => Raise e
  | OutOfFuel => OutOfFuel
  end.

End parser.

(** * The code generator ([codegen.py]) *)

Module codegen.
Import ast.

(** [byteplay]'s [Label()] makes a new object on every call, equal to
    itself only; the generator's [labels] counts the calls and numbers
    the objects. *)
Inductive Label : Type := mkLabel (id : nat).

Definition label_id (l : Label) : nat := let (n) := l in n.

Inductive opcode : Type :=
| LOAD_CONST | LOAD_FAST | STORE_FAST | LOAD_GLOBAL | CALL_FUNCTION
| PRINT_ITEM | PRINT_NEWLINE | POP_JUMP_IF_FALSE | JUMP_ABSOLUTE
| BINARY_ADD | BINARY_SUBTRACT | BINARY_MULTIPLY | BINARY_DIVIDE
| BINARY_MODULO | COMPARE_OP | RETURN_VALUE.

(** First component of a code entry: an opcode or a label being placed. *)
Inductive op : Type :=
| Op (o : opcode)
| Lbl (l : Label).

(** Second component: [None], a value, or a jump target. *)
Inductive arg : Type :=
| ANone
| AVal (v : value)
| ALabel (l : Label).

Definition instr : Type := op * arg.

(** The object a [CodeGenError] carries. *)
Inductive node : Type :=
| NCommand (c : Command)
| NExpression (e : Expression)
| NDeclaration (d : Declaration)
| NOper (v : value).

(** What generation can raise: [CodeGenError], or the [AttributeError]
    of reading [.variable] on a node that has none. *)
Inductive CodeGenException : Type :=
| CodeGenError (ast : node)
| AttributeError.

Record CodeGen : Type := mkCodeGen {
  code : list instr;
  labels : nat
}.

Definition G (A : Type) : Type := M CodeGen CodeGenException A.

(** [self.code.append(i)] *)
Definition append (i : instr) : G unit := fun self =>
  Ok (tt, {| code := code self ++ [i]; labels := labels self |}).

(** [Label()] *)
Definition new_label : G Label := fun self =>
  Ok (mkLabel (labels self),
      {| code := code self; labels := S (labels self) |}).

(** [tree.variable] on an expression node. *)
Definition variable_of (tree : Expression) : G Vname :=
  match tree with
  | VnameExpression v => ret v
  | _ => raise AttributeError
  end.

Section Expr.
Variable gen_expr : Expression -> G unit.

Definition gen_binaryexpr (expr1 : Expression) (oper : value)
  (expr2 : Expression) : G unit :=
  gen_expr expr1 ;;
  gen_expr expr2 ;;
  let op := oper in
  if value_eqb op (VStr "+") then append (Op BINARY_ADD, ANone)
  else if value_eqb op (VStr "-") then append (Op BINARY_SUBTRACT, ANone)
  else if value_eqb op (VStr "*") then append (Op BINARY_MULTIPLY, ANone)
  else if value_eqb op (VStr "/") then append (Op BINARY_DIVIDE, ANone)
  else if value_eqb op (VStr ">") then
    append (Op COMPARE_OP, AVal (VStr ">"))
  else if value_eqb op (VStr "<") then
    append (Op COMPARE_OP, AVal (VStr "<"))
  else if value_eqb op (VStr "=") then
    append (Op COMPARE_OP, AVal (VStr "=="))
  else if value_eqb op (VStr "\") then append (Op BINARY_MODULO, ANone)
  else raise (CodeGenError (NOper op)).

End Expr.

Fixpoint gen_expr (tree : Expression) : G unit :=
  match tree with
  | IntegerExpression value => append (Op LOAD_CONST, AVal value)
  | VnameExpression variable =>
      append (Op LOAD_FAST, AVal (identifier variable))
  | BinaryExpression expr1 oper expr2 =>
      gen_binaryexpr gen_expr expr1 oper expr2
  end.

Definition gen_constdecl (identifier : value) (expression : Expression)
  : G unit :=
  gen_expr expression ;;
  append (Op STORE_FAST, AVal identifier).

Definition gen_vardecl (identifier : value) (type_denoter : TypeDenoter)
  : G unit :=
  ret tt.

Fixpoint gen_declaration (tree : Declaration) : G unit :=
  match tree with
  | ConstDeclaration identifier expression =>
      gen_constdecl identifier expression
  | VarDeclaration identifier type_denoter =>
      gen_vardecl identifier type_denoter
  | SequentialDeclaration decl1 decl2 =>
      gen_declaration decl1 ;;
      gen_declaration decl2
  end.

Definition gen_assigncommand (variable : Vname) (expression : Expression)
  : G unit :=
  gen_expr expression ;;
  append (Op STORE_FAST, AVal (identifier variable)).

Definition gen_callcommand (identifier : value) (expression : Expression)
  : G unit :=
  if value_eqb identifier (VStr "getint") then
    append (Op LOAD_GLOBAL, AVal (VStr "input")) ;;
    append (Op CALL_FUNCTION, AVal (VInt 0)) ;;
    variable <- variable_of expression ;;
    append (Op STORE_FAST, AVal (ast.identifier variable))
  else if value_eqb identifier (VStr "putint") then
    match expression with
    | VnameExpression variable =>
        append (Op LOAD_FAST, AVal (ast.identifier variable))
    | IntegerExpression value =>
        append (Op LOAD_CONST, AVal value)
    | _ => raise (CodeGenError (NExpression expression))
    end ;;
    append (Op PRINT_ITEM, ANone) ;;
    append (Op PRINT_NEWLINE, ANone) ;;
    append (Op LOAD_CONST, AVal (VInt 0))
  else ret tt.

Section Command.
Variable gen_command : Command -> G unit.

Definition gen_ifcommand (expression : Expression)
  (command1 command2 : Command) : G unit :=
  l1 <- new_label ;;
  l2 <- new_label ;;
  l3 <- new_label ;;
  gen_expr expression ;;
  append (Op POP_JUMP_IF_FALSE, ALabel l1) ;;
  gen_command command1 ;;
  append (Op JUMP_ABSOLUTE, ALabel l2) ;;
  append (Lbl l1, ANone) ;;
  gen_command command2 ;;
  append (Lbl l2, ANone).

Definition gen_whilecommand (expression : Expression) (command : Command)
  : G unit :=
  l1 <- new_label ;;
  l2 <- new_label ;;
  l3 <- new_label ;;
  append (Lbl l1, ANone) ;;
  gen_expr expression ;;
  append (Op POP_JUMP_IF_FALSE, ALabel l2) ;;
  gen_command command ;;
  append (Op JUMP_ABSOLUTE, ALabel l1) ;;
  append (Lbl l2, ANone).

End Command.

Fixpoint gen_command (tree : Command) : G unit :=
  match tree with
  | AssignCommand variable expression =>
      gen_assigncommand variable expression
  | CallCommand identifier expression =>
      gen_callcommand identifier expression
  | SequentialCommand command1 command2 =>
      gen_command command1 ;;
      gen_command command2
  | IfCommand expression command1 command2 =>
      gen_ifcommand gen_command expression command1 command2
  | WhileCommand expression command =>
      gen_whilecommand gen_command expression command
  | LetCommand declaration command =>
      gen_declaration declaration ;;
      gen_command command
  end.

(** [CodeGen(tree)] *)
Definition init : CodeGen := {| code := []; labels := 0 |}.

(** [CodeGen(tree).generate()], up to the instruction list handed to
    [byteplay]. *)
Definition generate (tree : Program) : result CodeGenException (list instr) :=
  value_of
    ((gen_command (command tree) ;;
      append (Op RETURN_VALUE, ANone) ;;
      self <- get ;;
      ret (code self)) init).

End codegen.

(** * The pipeline: scan, then parse, then generate *)

Import scanner ast parser codegen.

Inductive exception : Type :=
| ScanExc (e : ScannerError)
| ParseExc (e : ParserException)
| GenExc (e : CodeGenException).

Definition lift {E E' A} (f : E -> E') (r : result E A) : result E' A :=
  match r with
  | Ok a => Ok a
  | Raise e => Raise (f e)
  | OutOfFuel => OutOfFuel
  end.

Definition then_ {E A B} (r : result E A) (k : A -> result E B)
  : result E B :=
  match r with
  | Ok a => k a
  | Raise e => Raise e
  | OutOfFuel => OutOfFuel
  end.

(** Scanning then parsing. *)
Definition scan_parse (fuel : nat) (text : string)
  : result exception Program :=
  then_ (lift ScanExc (scanAll fuel text)) (fun tokens =>
  lift ParseExc (parse fuel tokens)).

(** The three stages in a row, as the driver of [codegen.py] runs them. *)
Definition compile (fuel : nat) (text : string)
  : result exception (list instr) :=
  then_ (scan_parse fuel text) (fun tree =>
  lift GenExc (generate tree)).

(** * Vocabulary of the properties *)

(** *** Texts and the scanner *)

Definition is_newline (c : ascii) : bool := Ascii.eqb c (ascii_of_nat 10).

Fixpoint has_newline (s : string) : bool :=
  match s with
  | EmptyString => false
  | String c r => is_newline c || has_newline r
  end.

(** A text without an end-of-line character. *)
Definition no_newline (s : string) : bool := negb (has_newline s).

(** Every comment marker of the text has an end-of-line after it. *)
Fixpoint comments_closed (s : string) : bool :=
  match s with
  | EmptyString => true
  | String c r =>
      (if Ascii.eqb c "!" then has_newline r else true) && comments_closed r
  end.

(** The scanner standing on the first character of [r], the rest of the
    text still to read; at the end of the text [eot] is set. *)
Definition standing (r : string) (p : Z) : Scanner :=
  match r with
  | EmptyString =>
      {| inputstr := ""; eot := true; pos := p; char := "" |}
  | String c r' =>
      {| inputstr := r'; eot := false; pos := p; char := String c "" |}
  end.

(** A computation that, started on the text [r], returns or raises; when
    it returns, the scanner stands on a text [r'] that is not longer than
    [r] and keeps its comments closed, and the result satisfies [post]. *)
Definition progresses {A} (m : Sc A) (r : string) (p : Z)
  (post : A -> string -> Prop) : Prop :=
  match m (standing r p) with
  | Ok (a, self') =>
      exists r' p',
        self' = standing r' p'
        /\ String.length r' <= String.length r
        /\ (comments_closed r = true -> comments_closed r' = true)
        /\ post a r'
  | Raise _ => True
  | OutOfFuel => False
  end.

(** *** Tokens and the parser *)

Definition tk_id (name : string) (pos : Z) : Token :=
  Token.mk TK_IDENTIFIER (VStr name) pos.

Definition tk_op (oper : string) (pos : Z) : Token :=
  Token.mk TK_OPERATOR (VStr oper) pos.

Definition var_ref (name : string) : Expression :=
  VnameExpression (mkVname (VStr name)).

(** Parsing one expression from the start of a token list. *)
Definition parse_expr_of (fuel : nat) (tokens : list Token)
  : result ParserException Expression :=
  match parser.init tokens with
  | Ok self => value_of (parse_expr fuel self)
  | Raise e => Raise e
  | OutOfFuel => OutOfFuel
  end.

(** The operator symbols of a tier, loosest tier first. *)
Definition tier_opers (t : nat) : list string :=
  match t with
  | 1 => [">"; "<"; "="]
  | 2 => ["+"; "-"]
  | 3 => ["*"; "/"; "\"]
  | _ => []
  end.

(** The precedence tier of an operator symbol. *)
Definition tier (oper : string) : option nat :=
  if existsb (String.eqb oper) (tier_opers 1) then Some 1
  else if existsb (String.eqb oper) (tier_opers 2) then Some 2
  else if existsb (String.eqb oper) (tier_opers 3) then Some 3
  else None.

(** The parser standing on [t], with [pre] behind it and [post] ahead. *)
Definition cursor (pre : list Token) (t : Token) (post : list Token)
  : Parser :=
  {| tokens := pre ++ t :: post; curindex := length pre; curtoken := t |}.

(** A one-token operand: an integer literal or an identifier. *)
Definition is_primary (t : Token) : bool :=
  token_type_eqb (Token.type t) TK_INTLITERAL
  || token_type_eqb (Token.type t) TK_IDENTIFIER.

(** The expression of a one-token operand. *)
Definition primary (t : Token) : Expression :=
  if token_type_eqb (Token.type t) TK_INTLITERAL
  then IntegerExpression (Token.val t)
  else VnameExpression (mkVname (Token.val t)).

(** A chain [o1 t1 o2 t2 ...] of operator and operand tokens. *)
Definition chain_tokens (chain : list (Token * Token)) : list Token :=
  flat_map (fun ot => [fst ot; snd ot]) chain.

(** The chain grouped to the left around a first operand [e]. *)
Definition group_left (e : Expression) (chain : list (Token * Token))
  : Expression :=
  fold_left
    (fun e ot => BinaryExpression e (Token.val (fst ot)) (primary (snd ot)))
    chain e.

(** Every link of the chain is an operator of [opers] and a one-token
    operand. *)
Definition chain_of (opers : list string) (chain : list (Token * Token))
  : Prop :=
  Forall (fun ot => is_oper (fst ot) opers = true
                    /\ is_primary (snd ot) = true) chain.

(** *** Generated code *)

(** An argument [putint] lowers: a literal or a bare variable. *)
Definition is_literal_or_variable (e : Expression) : bool :=
  match e with
  | IntegerExpression _ | VnameExpression _ => true
  | BinaryExpression _ _ _ => false
  end.

(** The two instructions of Python's print statement. *)
Definition print_builtin : list instr :=
  [(Op PRINT_ITEM, ANone); (Op PRINT_NEWLINE, ANone)].

(** [putint(e)] appends the instructions of [e], then [tail], and
    nothing else. *)
Definition putint_emits (tail : list instr) (e : Expression)
  (self : CodeGen) : Prop :=
  exists ce,
    gen_expr e self
      = Ok (tt, {| code := code self ++ ce; labels := labels self |})
    /\ gen_callcommand (VStr "putint") e self
      = Ok (tt, {| code := code self ++ ce ++ tail;
                   labels := labels self |}).

(** *** Labels in an instruction list *)

Definition label_eqb (a b : Label) : bool :=
  Nat.eqb (label_id a) (label_id b).

(** The entry places label [l]. *)
Definition is_def (l : Label) (i : instr) : bool :=
  match fst i with
  | Lbl l' => label_eqb l l'
  | Op _ => false
  end.

(** The entry is a jump or a jump-if-false to [l]. *)
Definition is_jump_to (l : Label) (i : instr) : bool :=
  match i with
  | (Op JUMP_ABSOLUTE, ALabel l') => label_eqb l l'
  | (Op POP_JUMP_IF_FALSE, ALabel l') => label_eqb l l'
  | _ => false
  end.

(** The entry has [l] as its argument. *)
Definition is_ref (l : Label) (i : instr) : bool :=
  match snd i with
  | ALabel l' => label_eqb l l'
  | _ => false
  end.

Definition count (p : instr -> bool) (c : list instr) : nat :=
  length (filter p c).

(** [l] occurs in the list, placed or referred to. *)
Definition occurs (l : Label) (c : list instr) : bool :=
  existsb (fun i => is_def l i || is_ref l i) c.

(** An entry that involves no label at all. *)
Definition no_label (i : instr) : bool :=
  match i with
  | (Op _, ANone) | (Op _, AVal _) => true
  | _ => false
  end.

(** The labels of [c] are numbered in [lo, hi), each placed at most once,
    and placed as often as jumped to and as referred to. *)
Definition tidy (lo hi : nat) (c : list instr) : Prop :=
  forall l,
    count (is_def l) c = count (is_jump_to l) c
    /\ count (is_ref l) c = count (is_jump_to l) c
    /\ count (is_def l) c <= 1
    /\ (1 <= count (is_def l) c -> lo <= label_id l < hi).

(** A computation that allocates no label and appends only entries
    without labels. *)
Definition plain (m : G unit) : Prop :=
  forall s u s',
    m s = Ok (u, s') ->
    labels s' = labels s
    /\ exists new,
        code s' = code s ++ new /\ Forall (fun i => no_label i = true) new.

(** A computation whose appended entries are tidy over the labels it
    allocates. *)
Definition disciplined (m : G unit) : Prop :=
  forall s u s',
    m s = Ok (u, s') ->
    labels s <= labels s'
    /\ exists new,
        code s' = code s ++ new /\ tidy (labels s) (labels s') new.

(** *** What the generator lowers, and to what *)

(** The instruction of each operator symbol. *)
Definition operator_table : list (string * instr) :=
  [("+", (Op BINARY_ADD, ANone));
   ("-", (Op BINARY_SUBTRACT, ANone));
   ("*", (Op BINARY_MULTIPLY, ANone));
   ("/", (Op BINARY_DIVIDE, ANone));
   (">", (Op COMPARE_OP, AVal (VStr ">")));
   ("<", (Op COMPARE_OP, AVal (VStr "<")));
   ("=", (Op COMPARE_OP, AVal (VStr "==")));
   ("\", (Op BINARY_MODULO, ANone))].

Fixpoint lookup (s : string) (table : list (string * instr)) : option instr :=
  match table with
  | [] => None
  | (k, i) :: rest => if String.eqb s k then Some i else lookup s rest
  end.

Definition operator_instr (oper : value) : option instr :=
  match oper with
  | VStr s => lookup s operator_table
  | VInt _ => None
  end.

(** Every operator of the expression is in the table. *)
Fixpoint ops_ok (e : Expression) : bool :=
  match e with
  | IntegerExpression _ | VnameExpression _ => true
  | BinaryExpression e1 oper e2 =>
      ops_ok e1 && ops_ok e2
      && match operator_instr oper with Some _ => true | None => false end
  end.

(** The code of an expression: left operand, right operand, operator. *)
Fixpoint expr_code (e : Expression) : list instr :=
  match e with
  | IntegerExpression v => [(Op LOAD_CONST, AVal v)]
  | VnameExpression v => [(Op LOAD_FAST, AVal (identifier v))]
  | BinaryExpression e1 oper e2 =>
      expr_code e1 ++ expr_code e2
      ++ match operator_instr oper with Some i => [i] | None => [] end
  end.

(** The number of nodes of an expression. *)
Fixpoint expr_size (e : Expression) : nat :=
  match e with
  | IntegerExpression _ | VnameExpression _ => 1
  | BinaryExpression e1 _ e2 => expr_size e1 + expr_size e2 + 1
  end.

Fixpoint decl_ok (d : Declaration) : bool :=
  match d with
  | ConstDeclaration _ e => ops_ok e
  | VarDeclaration _ _ => true
  | SequentialDeclaration d1 d2 => decl_ok d1 && decl_ok d2
  end.

Fixpoint decl_code (d : Declaration) : list instr :=
  match d with
  | ConstDeclaration i e => expr_code e ++ [(Op STORE_FAST, AVal i)]
  | VarDeclaration _ _ => []
  | SequentialDeclaration d1 d2 => decl_code d1 ++ decl_code d2
  end.

(** A call the generator goes through without raising: [getint] of a
    variable, [putint] of a literal or a variable, or any other name. *)
Definition call_ok (name : value) (e : Expression) : bool :=
  if value_eqb name (VStr "getint") then
    match e with VnameExpression _ => true | _ => false end
  else if value_eqb name (VStr "putint") then is_literal_or_variable e
  else true.

Definition call_code (name : value) (e : Expression) : list instr :=
  if value_eqb name (VStr "getint") then
    match e with
    | VnameExpression v =>
        [(Op LOAD_GLOBAL, AVal (VStr "input"));
         (Op CALL_FUNCTION, AVal (VInt 0));
         (Op STORE_FAST, AVal (identifier v))]
    | _ => []
    end
  else if value_eqb name (VStr "putint") then
    expr_code e ++ print_builtin ++ [(Op LOAD_CONST, AVal (VInt 0))]
  else [].

Fixpoint cmd_ok (c : Command) : bool :=
  match c with
  | AssignCommand _ e => ops_ok e
  | CallCommand name e => call_ok name e
  | SequentialCommand c1 c2 => cmd_ok c1 && cmd_ok c2
  | IfCommand e c1 c2 => ops_ok e && cmd_ok c1 && cmd_ok c2
  | WhileCommand e c => ops_ok e && cmd_ok c
  | LetCommand d c => decl_ok d && cmd_ok c
  end.

(** The number of conditionals and loops of a command. *)
Fixpoint constructs (c : Command) : nat :=
  match c with
  | AssignCommand _ _ | CallCommand _ _ => 0
  | SequentialCommand c1 c2 => constructs c1 + constructs c2
  | IfCommand _ c1 c2 => 1 + constructs c1 + constructs c2
  | WhileCommand _ c => 1 + constructs c
  | LetCommand _ c => constructs c
  end.

(** The code of a command when [n] labels are in use already. *)
Fixpoint cmd_code (n : nat) (c : Command) : list instr :=
  match c with
  | AssignCommand v e => expr_code e ++ [(Op STORE_FAST, AVal (identifier v))]
  | CallCommand name e => call_code name e
  | SequentialCommand c1 c2 =>
      cmd_code n c1 ++ cmd_code (n + 3 * constructs c1) c2
  | IfCommand e c1 c2 =>
      expr_code e
      ++ [(Op POP_JUMP_IF_FALSE, ALabel (mkLabel n))]
      ++ cmd_code (n + 3) c1
      ++ [(Op JUMP_ABSOLUTE, ALabel (mkLabel (n + 1)));
          (Lbl (mkLabel n), ANone)]
      ++ cmd_code (n + 3 + 3 * constructs c1) c2
      ++ [(Lbl (mkLabel (n + 1)), ANone)]
  | WhileCommand e c =>
      [(Lbl (mkLabel n), ANone)]
      ++ expr_code e
      ++ [(Op POP_JUMP_IF_FALSE, ALabel (mkLabel (n + 1)))]
      ++ cmd_code (n + 3) c
      ++ [(Op JUMP_ABSOLUTE, ALabel (mkLabel n));
          (Lbl (mkLabel (n + 1)), ANone)]
  | LetCommand d c => decl_code d ++ cmd_code n c
  end.

(** The entry is a return instruction. *)
Definition is_return (i : instr) : bool :=
  match i with
  | (Op RETURN_VALUE, _) => true
  | _ => false
  end.

(** The entry places a label. *)
Definition is_place (i : instr) : bool :=
  match fst i with
  | Lbl _ => true
  | Op _ => false
  end.

(** The entry is a jump or a jump-if-false. *)
Definition is_jump (i : instr) : bool :=
  match i with
  | (Op JUMP_ABSOLUTE, ALabel _) => true
  | (Op POP_JUMP_IF_FALSE, ALabel _) => true
  | _ => false
  end.

(** The generator after appending [new] and allocating [k] labels. *)
Definition grown (self : CodeGen) (new : list instr) (k : nat) : CodeGen :=
  {| code := code self ++ new; labels := labels self + k |}.

(** What a failed generation raises: a [CodeGenError] on an operator or
    on the argument of a [putint], or an [AttributeError]. *)
Definition generation_error (e : CodeGenException) : Prop :=
  e = AttributeError
  \/ (exists v, e = CodeGenError (NOper v))
  \/ (exists a, e = CodeGenError (NExpression a)).

(** Entries that neither involve a label nor return. *)
Definition straight (c : list instr) : Prop :=
  Forall (fun i => no_label i = true /\ is_return i = false) c.

(** A loop around a conditional, used to try the theorems on. *)
Definition sample_command : Command :=
  WhileCommand
    (BinaryExpression (var_ref "x") (VStr "<") (IntegerExpression (VInt 10)))
    (IfCommand (var_ref "x")
       (CallCommand (VStr "putint") (var_ref "x"))
       (AssignCommand (mkVname (VStr "x"))
          (BinaryExpression (var_ref "x") (VStr "+")
             (IntegerExpression (VInt 1))))).

(** *** Token lists and what a parse may do on them *)

(** The list ends with an end-of-text token. *)
Definition ends_with_EOT (tokens : list Token) : Prop :=
  exists front last, tokens = front ++ [last] /\ Token.type last = TK_EOT.

(** A [ParserError] that carries the position and the type of a token of
    the list; an [IndexError] is not reported. *)
Definition reported (tokens : list Token) (e : ParserException) : Prop :=
  match e with
  | ParserError p t =>
      exists tok, In tok tokens /\ Token.pos tok = p /\ Token.type tok = t
  | IndexError => False
  end.

(** A parsing computation started at index [i] of [tokens0]: it returns
    with the cursor on a token of the list, not before [i], and a result
    that satisfies [post] with the new index; or it raises a reported
    error.  It does not run out of fuel. *)
Definition parses {A} (tokens0 : list Token) (m : P A) (i : nat)
  (post : A -> nat -> Prop) : Prop :=
  forall s,
    tokens s = tokens0 -> curindex s = i ->
    nth_error tokens0 i = Some (curtoken s) ->
    match m s with
    | Ok (a, s') =>
        tokens s' = tokens0
        /\ nth_error tokens0 (curindex s') = Some (curtoken s')
        /\ i <= curindex s'
        /\ post a (curindex s')
    | Raise e => reported tokens0 e
    | OutOfFuel => False
    end.

(** Every declaration and expression of the command has operators of the
    table only. *)
Fixpoint cmd_ops (c : Command) : bool :=
  match c with
  | AssignCommand _ e => ops_ok e
  | CallCommand _ e => ops_ok e
  | SequentialCommand c1 c2 => cmd_ops c1 && cmd_ops c2
  | IfCommand e c1 c2 => ops_ok e && cmd_ops c1 && cmd_ops c2
  | WhileCommand e c => ops_ok e && cmd_ops c
  | LetCommand d c => decl_ok d && cmd_ops c
  end.

(** A declaration that is no sequence. *)
Definition is_atomic_decl (d : Declaration) : bool :=
  match d with
  | SequentialDeclaration _ _ => false
  | _ => true
  end.

(** A sequence of declarations nested to the left: the second part of
    every sequence is a single declaration. *)
Fixpoint left_nested (d : Declaration) : bool :=
  match d with
  | SequentialDeclaration d1 d2 => left_nested d1 && is_atomic_decl d2
  | _ => true
  end.

(** Every [let] of the command has its declarations nested to the left. *)
Fixpoint decls_left_nested (c : Command) : bool :=
  match c with
  | AssignCommand _ _ | CallCommand _ _ => true
  | SequentialCommand c1 c2 => decls_left_nested c1 && decls_left_nested c2
  | IfCommand _ c1 c2 => decls_left_nested c1 && decls_left_nested c2
  | WhileCommand _ c => decls_left_nested c
  | LetCommand d c => left_nested d && decls_left_nested c
  end.

(** What an expression parser gives from index [i]: a cursor further on
    and operators of the table only. *)
Definition Qe (i : nat) (e : Expression) (j : nat) : Prop :=
  i < j /\ ops_ok e = true.

(** What a declaration parser gives: a cursor further on and a single
    declaration with operators of the table only. *)
Definition Qd (i : nat) (d : Declaration) (j : nat) : Prop :=
  i < j /\ decl_ok d = true /\ is_atomic_decl d = true.

(** What a command parser gives: a cursor further on, operators of the
    table only, and declarations nested to the left. *)
Definition Qc (i : nat) (c : Command) (j : nat) : Prop :=
  i < j /\ cmd_ops c = true /\ decls_left_nested c = true.

(** An outcome that is not a [CodeGenError] on an operator. *)
Definition no_operator_error {A} (r : result CodeGenException A) : Prop :=
  forall v, r <> Raise (CodeGenError (NOper v)).

(** *** Runs of characters *)

(** The text does not start with a character of the class. *)
Definition stops (q : ascii -> bool) (r : string) : bool :=
  match r with
  | EmptyString => true
  | String c _ => negb (q c)
  end.

(** The characters of a text, one string each. *)
Fixpoint chars (s : string) : list string :=
  match s with
  | EmptyString => []
  | String c r => String c EmptyString :: chars r
  end.

(** A character that starts a token, a comment or a blank. *)
Definition recognized (c : ascii) : bool :=
  ascii_isspace c || ascii_isdigit c || ascii_isalpha c
  || existsb (String.eqb (String c EmptyString))
       (OPER ++ ["!"; ";"; ":"; "~"; "("; ")"]).

(** *** Positions *)

(** The scanner stands on [r] at position [p] within [text]: [r] is what
    is left of [text], and [p] is one more than the offset of [r]. *)
Definition follows (text r : string) (p : Z) : Prop :=
  exists pre,
    text = String.append pre r /\ p = (Z.of_nat (String.length pre) + 1)%Z.

(** The positions of the tokens are at least [lo] and strictly
    increasing. *)
Fixpoint ascending (lo : Z) (tokens : list Token) : Prop :=
  match tokens with
  | [] => True
  | t :: rest => (lo <= Token.pos t)%Z /\ ascending (Token.pos t + 1) rest
  end.

(** The error carries a character of [text] that starts nothing, and its
    offset. *)
Definition unrecognized_at (text : string) (e : ScannerError) : Prop :=
  match e with
  | mkScannerError q c =>
      exists c0,
        c = String c0 "" /\ recognized c0 = false
        /\ (0 <= q)%Z /\ String.get (Z.to_nat q) text = Some c0
  end.

(** A computation that keeps track of the text: when it returns, the
    scanner stands further on in [text], the comments of the text it
    started on are closed if those of the text it stands on are, and the
    result satisfies [post]; when it raises, the error is on a character
    of [text]. *)
Definition tracks {A} (text : string) (m : Sc A) (r : string) (p : Z)
  (post : A -> string -> Z -> Prop) : Prop :=
  follows text r p ->
  match m (standing r p) with
  | Ok (a, self') =>
      exists r' p',
        self' = standing r' p'
        /\ follows text r' p'
        /\ (p <= p')%Z
        /\ (comments_closed r' = true -> comments_closed r = true)
        /\ post a r' p'
  | Raise e => unrecognized_at text e
  | OutOfFuel => True
  end.



(** *** Writing a tree back as tokens *)

(** A token without a value, as the scanner gives for keywords and
    punctuation. *)
Definition tk (type : token_type) : Token := Token.mk type (VInt 0) 0.

(** The tokens of an expression: one token for a literal or a name; the
    two operands of an operator in parentheses. *)
Fixpoint expr_tokens (e : Expression) : list Token :=
  match e with
  | IntegerExpression v => [Token.mk TK_INTLITERAL v 0]
  | VnameExpression v => [Token.mk TK_IDENTIFIER (identifier v) 0]
  | BinaryExpression e1 oper e2 =>
      [tk TK_LPAREN] ++ expr_tokens e1
      ++ [tk TK_RPAREN; Token.mk TK_OPERATOR oper 0; tk TK_LPAREN]
      ++ expr_tokens e2 ++ [tk TK_RPAREN]
  end.

(** The tokens of a declaration; a sequence is written with a semicolon
    between its two parts. *)
Fixpoint decl_tokens (d : Declaration) : list Token :=
  match d with
  | ConstDeclaration v e =>
      [tk TK_CONST; Token.mk TK_IDENTIFIER v 0; tk TK_IS] ++ expr_tokens e
  | VarDeclaration v t =>
      [tk TK_VAR; Token.mk TK_IDENTIFIER v 0; tk TK_COLON;
       Token.mk TK_IDENTIFIER (type_identifier t) 0]
  | SequentialDeclaration d1 d2 =>
      decl_tokens d1 ++ [tk TK_SEMICOLON] ++ decl_tokens d2
  end.

(** The tokens of a command; a sequence is a [begin] block of its two
    parts, and the branches of a conditional are closed by a semicolon
    before [else]. *)
Fixpoint cmd_tokens (c : Command) : list Token :=
  match c with
  | AssignCommand v e =>
      [Token.mk TK_IDENTIFIER (identifier v) 0; tk TK_BECOMES]
      ++ expr_tokens e
  | CallCommand name e =>
      [Token.mk TK_IDENTIFIER name 0; tk TK_LPAREN]
      ++ expr_tokens e ++ [tk TK_RPAREN]
  | SequentialCommand c1 c2 =>
      [tk TK_BEGIN] ++ cmd_tokens c1 ++ [tk TK_SEMICOLON]
      ++ cmd_tokens c2 ++ [tk TK_END]
  | IfCommand e c1 c2 =>
      [tk TK_IF] ++ expr_tokens e ++ [tk TK_THEN] ++ cmd_tokens c1
      ++ [tk TK_SEMICOLON; tk TK_ELSE] ++ cmd_tokens c2
  | WhileCommand e c =>
      [tk TK_WHILE] ++ expr_tokens e ++ [tk TK_DO] ++ cmd_tokens c
  | LetCommand d c =>
      [tk TK_LET] ++ decl_tokens d ++ [tk TK_IN] ++ cmd_tokens c
  end.

(** The number of nodes of a declaration and of a command. *)
Fixpoint decl_size (d : Declaration) : nat :=
  match d with
  | ConstDeclaration _ e => 1 + expr_size e
  | VarDeclaration _ _ => 1
  | SequentialDeclaration d1 d2 => 1 + decl_size d1 + decl_size d2
  end.

Fixpoint cmd_size (c : Command) : nat :=
  match c with
  | AssignCommand _ e => 1 + expr_size e
  | CallCommand _ e => 1 + expr_size e
  | SequentialCommand c1 c2 => 1 + cmd_size c1 + cmd_size c2
  | IfCommand e c1 c2 => 1 + expr_size e + cmd_size c1 + cmd_size c2
  | WhileCommand e c => 1 + expr_size e + cmd_size c
  | LetCommand d c => 1 + decl_size d + cmd_size c
  end.

(** The tokens ahead start with a token that is no operator. *)
Definition closes (rest : list Token) : bool :=
  match rest with
  | t :: _ => negb (token_type_eqb (Token.type t) TK_OPERATOR)
  | [] => false
  end.

(** The parser with [pre] behind it, standing on the first token of
    [rest]. *)
Definition reading (pre rest : list Token) : Parser :=
  {| tokens := pre ++ rest;
     curindex := length pre;
     curtoken := hd (tk TK_EOT) rest |}.

(** A program with every construct, used to try the theorems on. *)
Definition sample_program : Command :=
  LetCommand
    (SequentialDeclaration
       (SequentialDeclaration
          (VarDeclaration (VStr "n") (mkTypeDenoter (VStr "Integer")))
          (ConstDeclaration (VStr "two") (IntegerExpression (VInt 2))))
       (VarDeclaration (VStr "r") (mkTypeDenoter (VStr "Integer"))))
    (SequentialCommand
       (CallCommand (VStr "getint") (var_ref "n"))
       (WhileCommand
          (BinaryExpression (var_ref "n") (VStr ">")
             (IntegerExpression (VInt 0)))
          (SequentialCommand
             (IfCommand
                (BinaryExpression
                   (BinaryExpression (var_ref "n") (VStr "\") (var_ref "two"))
                   (VStr "=") (IntegerExpression (VInt 0)))
                (CallCommand (VStr "putint") (var_ref "n"))
                (AssignCommand (mkVname (VStr "r"))
                   (BinaryExpression (var_ref "r") (VStr "+")
                      (IntegerExpression (VInt 1)))))
             (AssignCommand (mkVname (VStr "n"))
                (BinaryExpression (var_ref "n") (VStr "-")
                   (IntegerExpression (VInt 1))))))).

(** * Fuel

    More fuel never changes an outcome that was reached. *)

Section Approximation.
Context {S E : Type}.

Lemma le_res_refl {A} (r : result E A) : le_res r r.
Proof. right; reflexivity. Qed.

Lemma le_M_refl {A} (m : M S E A) : le_M m m.
Proof. intro s; apply le_res_refl. Qed.

Lemma le_M_out_of_fuel {A} (m : M S E A) : le_M out_of_fuel m.
Proof. intro s; left; reflexivity. Qed.

Lemma le_M_bind {A B} (m m' : M S E A) (k k' : A -> M S E B) :
  le_M m m' -> (forall a, le_M (k a) (k' a)) -> le_M (bind m k) (bind m' k').
Proof.
  intros Hm Hk s. unfold bind.
  destruct (Hm s) as [H | H]; rewrite H.
  - left; reflexivity.
  - destruct (m' s) as [[a s'] | e |].
    + apply Hk.
    + right; reflexivity.
    + left; reflexivity.
Qed.

Lemma le_res_value_of {A} (r r' : result E (A * S)) :
  le_res r r' -> le_res (value_of r) (value_of r').
Proof. intros [H | H]; rewrite H; [left | right]; reflexivity. Qed.

End Approximation.

Lemma le_res_lift {E E' A} (f : E -> E') (r r' : result E A) :
  le_res r r' -> le_res (lift f r) (lift f r').
Proof. intros [H | H]; rewrite H; [left | right]; reflexivity. Qed.

Lemma le_res_then {E A B} (r r' : result E A) (k k' : A -> result E B) :
  le_res r r' -> (forall a, le_res (k a) (k' a)) ->
  le_res (then_ r k) (then_ r' k').
Proof.
  intros [H | H] Hk; rewrite H.
  - left; reflexivity.
  - destruct r'; simpl; [apply Hk | right | left]; reflexivity.
Qed.

Lemma le_res_reached {E A} (r r' v : result E A) :
  le_res r r' -> r = v -> v <> OutOfFuel -> r' = v.
Proof. intros [H | H] Hr Hv; congruence. Qed.

Create HintDb fuel.
#[local] Hint Resolve le_M_refl le_M_out_of_fuel : fuel.

(** One step of a monotonicity proof: descend through a bind or through a
    test that both sides share. *)
Ltac mono_step :=
  match goal with
  | |- le_M (bind _ _) (bind _ _) => apply le_M_bind; [ | intro ]
  | |- le_M (if ?b then _ else _) (if ?b then _ else _) => destruct b
  | |- le_M (match ?x with _ => _ end) (match ?x with _ => _ end) =>
      destruct x
  | |- le_M ?m ?m => apply le_M_refl
  | |- le_M out_of_fuel _ => apply le_M_out_of_fuel
  end.

Ltac mono := repeat mono_step; eauto with fuel.

(** The shape shared by all loops: induction on the smaller fuel. *)
Ltac by_fuel fuel :=
  induction fuel as [| fuel IH]; intros fuel' Hle;
  [ | destruct fuel' as [| fuel']; [ lia | apply le_S_n in Hle ] ].

Module scanner_fuel.
Import scanner.

Lemma skip_comm_mono fuel : forall fuel', fuel <= fuel' ->
  le_M (skip_comm fuel) (skip_comm fuel').
Proof. by_fuel fuel; simpl; mono. Qed.

Lemma scan_int_loop_mono fuel : forall fuel', fuel <= fuel' ->
  forall l, le_M (scan_int_loop fuel l) (scan_int_loop fuel' l).
Proof. by_fuel fuel; intro l; simpl; mono. Qed.

Lemma scan_chars_loop_mono fuel : forall fuel', fuel <= fuel' ->
  forall l, le_M (scan_chars_loop fuel l) (scan_chars_loop fuel' l).
Proof. by_fuel fuel; intro l; simpl; mono. Qed.

Lemma scan_int_mono fuel fuel' : fuel <= fuel' ->
  le_M (scan_int fuel) (scan_int fuel').
Proof. intro; unfold scan_int; mono; auto using scan_int_loop_mono. Qed.

Lemma scan_chars_mono fuel fuel' : fuel <= fuel' ->
  le_M (scan_chars fuel) (scan_chars fuel').
Proof. intro; unfold scan_chars; mono; auto using scan_chars_loop_mono. Qed.

Lemma scan_token_mono fuel : forall fuel', fuel <= fuel' ->
  le_M (scan_token fuel) (scan_token fuel').
Proof.
  by_fuel fuel; simpl; mono;
    auto using scan_int_mono, scan_chars_mono, skip_comm_mono.
Qed.

Lemma scan_loop_mono fuel : forall fuel', fuel <= fuel' ->
  forall l, le_M (scan_loop fuel l) (scan_loop fuel' l).
Proof. by_fuel fuel; intro l; simpl; mono; auto using scan_token_mono. Qed.

Lemma scanAll_mono fuel fuel' text : fuel <= fuel' ->
  le_res (scanAll fuel text) (scanAll fuel' text).
Proof.
  intro. unfold scanAll, scan. apply le_res_value_of.
  apply scan_loop_mono; assumption.
Qed.

End scanner_fuel.

Module parser_fuel.
Import scanner ast parser.

Section Expressions.
Variables p p' : P Expression.
Hypothesis Hp : le_M p p'.

Lemma parse_priexpr_mono : le_M (parse_priexpr p) (parse_priexpr p').
Proof using Hp. unfold parse_priexpr; mono. Qed.

Lemma parse_tertexpr_loop_mono fuel : forall fuel', fuel <= fuel' ->
  forall e t,
    le_M (parse_tertexpr_loop p fuel e t) (parse_tertexpr_loop p' fuel' e t).
Proof using Hp.
  by_fuel fuel; intros e t; simpl; mono; auto using parse_priexpr_mono.
Qed.

Lemma parse_tertexpr_mono fuel fuel' : fuel <= fuel' ->
  le_M (parse_tertexpr p fuel) (parse_tertexpr p' fuel').
Proof using Hp.
  intro; unfold parse_tertexpr; mono;
    auto using parse_priexpr_mono, parse_tertexpr_loop_mono.
Qed.

Lemma parse_secexpr_loop_mono fuel : forall fuel', fuel <= fuel' ->
  forall e t,
    le_M (parse_secexpr_loop p fuel e t) (parse_secexpr_loop p' fuel' e t).
Proof using Hp.
  by_fuel fuel; intros e t; simpl; mono; auto using parse_tertexpr_mono.
Qed.

Lemma parse_secexpr_mono fuel fuel' : fuel <= fuel' ->
  le_M (parse_secexpr p fuel) (parse_secexpr p' fuel').
Proof using Hp.
  intro; unfold parse_secexpr; mono;
    auto using parse_tertexpr_mono, parse_secexpr_loop_mono.
Qed.

Lemma parse_expr_loop_mono fuel : forall fuel', fuel <= fuel' ->
  forall e t,
    le_M (parse_expr_loop p fuel e t) (parse_expr_loop p' fuel' e t).
Proof using Hp.
  by_fuel fuel; intros e t; simpl; mono; auto using parse_secexpr_mono.
Qed.

Lemma parse_expr_body_mono fuel fuel' : fuel <= fuel' ->
  le_M (parse_expr_body p fuel) (parse_expr_body p' fuel').
Proof using Hp.
  intro; unfold parse_expr_body; mono;
    auto using parse_secexpr_mono, parse_expr_loop_mono.
Qed.

End Expressions.

Lemma parse_expr_mono fuel : forall fuel', fuel <= fuel' ->
  le_M (parse_expr fuel) (parse_expr fuel').
Proof.
  by_fuel fuel; simpl; mono. apply parse_expr_body_mono; auto.
Qed.

Lemma parse_const_mono fuel fuel' : fuel <= fuel' ->
  le_M (parse_const fuel) (parse_const fuel').
Proof. intro; unfold parse_const; mono; auto using parse_expr_mono. Qed.

Lemma parse_declaration_mono fuel fuel' : fuel <= fuel' ->
  le_M (parse_declaration fuel) (parse_declaration fuel').
Proof.
  intro; unfold parse_declaration; mono; auto using parse_const_mono.
Qed.

Section Commands.
Variables p p' : P Command.
Hypothesis Hp : le_M p p'.

Lemma parse_begin_loop_mono fuel : forall fuel', fuel <= fuel' ->
  forall c t,
    le_M (parse_begin_loop p fuel c t) (parse_begin_loop p' fuel' c t).
Proof using Hp. by_fuel fuel; intros c t; simpl; mono. Qed.

Lemma parse_begin_mono fuel fuel' : fuel <= fuel' ->
  le_M (parse_begin p fuel) (parse_begin p' fuel').
Proof using Hp.
  intro; unfold parse_begin; mono; auto using parse_begin_loop_mono.
Qed.

Lemma parse_identifier_mono fuel fuel' : fuel <= fuel' ->
  le_M (parse_identifier fuel) (parse_identifier fuel').
Proof. intro; unfold parse_identifier; mono; auto using parse_expr_mono. Qed.

Lemma parse_let_loop_mono fuel : forall fuel', fuel <= fuel' ->
  forall d t, le_M (parse_let_loop fuel d t) (parse_let_loop fuel' d t).
Proof.
  by_fuel fuel; intros d t; simpl; mono;
    auto using parse_declaration_mono.
Qed.

Lemma parse_let_mono fuel fuel' : fuel <= fuel' ->
  le_M (parse_let p fuel) (parse_let p' fuel').
Proof using Hp.
  intro; unfold parse_let; mono;
    auto using parse_declaration_mono, parse_let_loop_mono.
Qed.

Lemma parse_command_body_mono fuel fuel' : fuel <= fuel' ->
  le_M (parse_command_body p fuel) (parse_command_body p' fuel').
Proof using Hp.
  intro; unfold parse_command_body; mono;
    auto using parse_let_mono, parse_identifier_mono, parse_begin_mono,
      parse_expr_mono.
Qed.

End Commands.

Lemma parse_command_mono fuel : forall fuel', fuel <= fuel' ->
  le_M (parse_command fuel) (parse_command fuel').
Proof.
  by_fuel fuel; simpl; mono. apply parse_command_body_mono; auto.
Qed.

Lemma parse_program_mono fuel fuel' : fuel <= fuel' ->
  le_M (parse_program fuel) (parse_program fuel').
Proof. intro; unfold parse_program; mono; auto using parse_command_mono. Qed.

Lemma parse_mono fuel fuel' tokens : fuel <= fuel' ->
  le_res (parse fuel tokens) (parse fuel' tokens).
Proof.
  intro. unfold parse. destruct (init tokens); try apply le_res_refl.
  apply le_res_value_of, parse_program_mono; assumption.
Qed.

End parser_fuel.

Lemma scan_parse_mono fuel fuel' text : fuel <= fuel' ->
  le_res (scan_parse fuel text) (scan_parse fuel' text).
Proof.
  intro. unfold scan_parse. apply le_res_then.
  - apply le_res_lift, scanner_fuel.scanAll_mono; assumption.
  - intro; apply le_res_lift, parser_fuel.parse_mono; assumption.
Qed.

Lemma compile_mono fuel fuel' text : fuel <= fuel' ->
  le_res (compile fuel text) (compile fuel' text).
Proof.
  intro. unfold compile. apply le_res_then.
  - apply scan_parse_mono; assumption.
  - intro; apply le_res_refl.
Qed.

(** An outcome computed at some fuel is the outcome at every larger one. *)
Lemma scanAll_reached n text r :
  scanAll n text = r -> r <> OutOfFuel -> forall k, scanAll (n + k) text = r.
Proof.
  intros Hr Hv k.
  apply (le_res_reached (scanAll n text)); auto.
  apply scanner_fuel.scanAll_mono; lia.
Qed.

Lemma scan_parse_reached n text r :
  scan_parse n text = r -> r <> OutOfFuel ->
  forall k, scan_parse (n + k) text = r.
Proof.
  intros Hr Hv k.
  apply (le_res_reached (scan_parse n text)); auto.
  apply scan_parse_mono; lia.
Qed.

Lemma compile_reached n text r :
  compile n text = r -> r <> OutOfFuel -> forall k, compile (n + k) text = r.
Proof.
  intros Hr Hv k.
  apply (le_res_reached (compile n text)); auto.
  apply compile_mono; lia.
Qed.

(** * The scanner: comments and the end of text *)

Module scanner_facts.
Import scanner.

(** Once the text is exhausted, [skip_comm] keeps taking the empty
    character: it leaves at no fuel. *)
Lemma skip_comm_at_end fuel : forall self,
  inputstr self = "" -> char self = "" -> skip_comm fuel self = OutOfFuel.
Proof.
  induction fuel as [| fuel IH]; intros self Hin Hc; [reflexivity |].
  cbn [skip_comm]. unfold bind at 1. unfold char_current at 1.
  rewrite Hc. change (negb ("" =? newline)) with true. cbv beta iota.
  unfold bind, char_take. rewrite Hin. cbn [read1].
  apply IH; reflexivity.
Qed.

(** A comment that no end-of-line closes is never left. *)
Lemma skip_comm_unclosed fuel : forall self c,
  char self = String c "" -> no_newline (String c (inputstr self)) = true ->
  skip_comm fuel self = OutOfFuel.
Proof.
  induction fuel as [| fuel IH]; intros self c Hc Hn; [reflexivity |].
  cbn [skip_comm]. unfold bind at 1. unfold char_current at 1. rewrite Hc.
  unfold no_newline in Hn. cbn [has_newline] in Hn.
  apply negb_true_iff, orb_false_iff in Hn. destruct Hn as [Hc10 Hrest].
  assert (Hne : String.eqb (String c "") newline = false).
  { unfold newline. cbn [String.eqb]. unfold is_newline in Hc10.
    rewrite Hc10. reflexivity. }
  rewrite Hne. cbn [negb]. unfold bind, char_take.
  destruct (inputstr self) as [| d rest] eqn:Hin; cbn [read1].
  - apply skip_comm_at_end; reflexivity.
  - apply (IH _ d); [reflexivity |].
    change (negb (has_newline (String d rest)) = true).
    rewrite Hrest. reflexivity.
Qed.

Lemma scan_token_unclosed_comment fuel : forall s,
  no_newline s = true ->
  scan_token fuel (scanner.init (String "!" s)) = OutOfFuel.
Proof.
  intros s Hn. destruct fuel as [| fuel]; [reflexivity |].
  cbn [scan_token]. unfold bind at 1 2. cbn.
  change (ascii_isspace "!") with false.
  change (ascii_isdigit "!") with false.
  change (ascii_isalpha "!") with false.
  cbn [andb]. unfold bind at 1.
  rewrite (skip_comm_unclosed fuel _ "!"%char);
    [reflexivity | reflexivity | exact Hn].
Qed.

Lemma scanAll_unclosed_comment fuel s :
  no_newline s = true -> scanAll fuel (String "!" s) = OutOfFuel.
Proof.
  intro Hn. unfold scanAll, scan.
  destruct fuel as [| fuel]; [reflexivity |].
  cbn [scan_loop]. unfold bind. rewrite scan_token_unclosed_comment by exact Hn.
  reflexivity.
Qed.

(** What [scan] returns when it returns: the tokens scanned so far, none
    of them [TK_EOT], and then one [TK_EOT]. *)
Lemma scan_loop_ends_with_EOT fuel : forall acc self tokens self',
  scan_loop fuel acc self = Ok (tokens, self') ->
  exists mid last,
    tokens = acc ++ mid ++ [last]
    /\ Token.type last = TK_EOT
    /\ Forall (fun t => Token.type t <> TK_EOT) mid.
Proof.
  induction fuel as [| fuel IH]; intros acc self tokens self' H;
    [discriminate |].
  cbn [scan_loop] in H. unfold bind in H.
  destruct (scan_token fuel self) as [[token self1] | |]; try discriminate.
  destruct (token_type_eqb (Token.type token) TK_EOT) eqn:Ht.
  - injection H as <- <-. exists [], token. repeat split; auto.
    destruct (Token.type token); try discriminate Ht; reflexivity.
  - apply IH in H. destruct H as (mid & last & -> & Hl & Hm).
    exists (token :: mid), last. repeat split; auto.
    + rewrite <- app_assoc. reflexivity.
    + constructor; auto. intro Heq. rewrite Heq in Ht. discriminate.
Qed.


(** *** Texts whose comments are closed *)

Lemma init_standing text : scanner.init text = standing text 1.
Proof. destruct text as [| c [| d r]]; reflexivity. Qed.

Lemma char_take_standing c r p :
  char_take (standing (String c r) p)
  = Ok (String c "", standing r (p + 1)).
Proof. destruct r as [| d r]; reflexivity. Qed.

Lemma char_current_standing c r p :
  char_current (standing (String c r) p)
  = Ok (String c "", standing (String c r) p).
Proof. reflexivity. Qed.

Lemma closed_tail c r :
  comments_closed (String c r) = true -> comments_closed r = true.
Proof. cbn. intro H. apply andb_true_iff in H. apply H. Qed.

Lemma str_is_single q c : str_is q (String c "") = q c.
Proof. cbn. apply andb_true_r. Qed.

(** The two inner loops stop at the first character out of their class,
    at the latest at the end of the text. *)
Section Runs.
Variable q : ascii -> bool.
Variable loop : nat -> list string -> Sc (list string).
Hypothesis loop_S : forall fuel l,
  loop (S fuel) l
  = (c <- char_current ;;
     if str_is q c then d <- char_take ;; loop fuel (l ++ [d])
     else ret l).

Lemma run_progresses fuel : forall r p l,
  String.length r < fuel -> progresses (loop fuel l) r p (fun _ _ => True).
Proof using loop_S.
  induction fuel as [| fuel IH]; intros r p l Hf; [lia |].
  unfold progresses. rewrite loop_S.
  destruct r as [| c r].
  - cbn. exists "", p. repeat split; auto.
  - unfold bind at 1. rewrite char_current_standing, str_is_single.
    destruct (q c).
    + unfold bind at 1. rewrite char_take_standing.
      specialize (IH r (p + 1)%Z (l ++ [String c ""])).
      unfold progresses in IH.
      destruct (loop fuel (l ++ [String c ""]) (standing r (p + 1)))
        as [[a self'] | e |].
      * destruct IH as (r' & p' & -> & Hl & Hc & _); [cbn in Hf; lia |].
        exists r', p'. repeat split; auto.
        -- cbn; lia.
        -- intro H. apply Hc. apply (closed_tail c r H).
      * exact I.
      * apply IH. cbn in Hf; lia.
    + exists (String c r), p. repeat split; auto.
Qed.

End Runs.

Lemma scan_int_loop_progresses fuel r p l :
  String.length r < fuel -> progresses (scan_int_loop fuel l) r p (fun _ _ => True).
Proof. apply (run_progresses ascii_isdigit scan_int_loop). reflexivity. Qed.

Lemma scan_chars_loop_progresses fuel r p l :
  String.length r < fuel ->
  progresses (scan_chars_loop fuel l) r p (fun _ _ => True).
Proof. apply (run_progresses ascii_isalnum scan_chars_loop). reflexivity. Qed.

Lemma progresses_post {A} (m : Sc A) r p (post post' : A -> string -> Prop) :
  progresses m r p post ->
  (forall a r', String.length r' <= String.length r ->
                post a r' -> post' a r') ->
  progresses m r p post'.
Proof.
  unfold progresses. destruct (m (standing r p)) as [[a self'] | e |]; auto.
  intros (r' & p' & Hs & Hl & Hc & Hp) H.
  exists r', p'. repeat split; auto.
Qed.

Lemma progresses_bind {A B} (m : Sc A) (k : A -> Sc B) r p
  (mid : A -> string -> Prop) (post : B -> string -> Prop) :
  progresses m r p mid ->
  (forall a r1 p1,
      String.length r1 <= String.length r ->
      (comments_closed r = true -> comments_closed r1 = true) ->
      mid a r1 ->
      progresses (k a) r1 p1
        (fun b r' => String.length r' <= String.length r -> post b r')) ->
  progresses (bind m k) r p post.
Proof.
  unfold progresses at 1 3, bind.
  destruct (m (standing r p)) as [[a self1] | e |]; auto.
  intros (r1 & p1 & -> & Hl1 & Hc1 & Hm) Hk.
  specialize (Hk a r1 p1 Hl1 Hc1 Hm). unfold progresses in Hk.
  destruct (k a (standing r1 p1)) as [[b self'] | e |]; auto.
  destruct Hk as (r' & p' & -> & Hl & Hc & Hp).
  exists r', p'. repeat split; auto; try lia. apply Hp; lia.
Qed.

Lemma progresses_eq {A} (m m' : Sc A) r p (post : A -> string -> Prop) :
  m (standing r p) = m' (standing r p) ->
  progresses m' r p post -> progresses m r p post.
Proof. unfold progresses. intros ->. auto. Qed.

Lemma progresses_ret {A} (a : A) r p (post : A -> string -> Prop) :
  post a r -> progresses (ret a) r p post.
Proof. intro H. exists r, p. repeat split; auto. Qed.

Lemma char_take_progresses c r p :
  progresses char_take (String c r) p
    (fun d r' => d = String c "" /\ r' = r).
Proof.
  unfold progresses. rewrite char_take_standing.
  exists r, (p + 1)%Z.
  split; [reflexivity | split; [cbn; lia | split; [apply closed_tail | auto]]].
Qed.

Lemma char_pos_progresses r p :
  progresses char_pos r p (fun _ r' => r' = r).
Proof. exists r, p. repeat split; auto. Qed.

Lemma char_current_progresses r p :
  progresses char_current r p
    (fun c r' => r' = r /\ c = match r with
                               | EmptyString => ""
                               | String c _ => String c ""
                               end).
Proof. exists r, p. repeat split; auto. destruct r; reflexivity. Qed.

Lemma single_progresses type val c r p :
  progresses (single type val) (String c r) p (fun _ r' => r' = r).
Proof.
  unfold single.
  eapply progresses_bind; [apply char_pos_progresses |].
  intros pos r1 p1 _ _ ->.
  eapply progresses_bind; [apply char_take_progresses |].
  intros d r1 p2 _ _ (_ & ->).
  apply progresses_ret. auto.
Qed.

Lemma scan_int_progresses fuel c r p :
  String.length r < fuel ->
  progresses (scan_int fuel) (String c r) p
    (fun _ r' => String.length r' <= String.length r).
Proof.
  intro Hf. unfold scan_int.
  eapply progresses_bind; [apply char_pos_progresses |].
  intros pos r1 p1 _ _ ->.
  eapply progresses_bind; [apply char_take_progresses |].
  intros d r1 p2 _ _ (_ & ->).
  eapply progresses_bind; [apply scan_int_loop_progresses; exact Hf |].
  intros l r1 p3 Hl _ _.
  apply progresses_ret. intro; lia.
Qed.

Lemma scan_chars_progresses fuel c r p :
  String.length r < fuel ->
  progresses (scan_chars fuel) (String c r) p
    (fun _ r' => String.length r' <= String.length r).
Proof.
  intro Hf. unfold scan_chars.
  eapply progresses_bind; [apply char_pos_progresses |].
  intros pos r1 p1 _ _ ->.
  eapply progresses_bind; [apply char_take_progresses |].
  intros d r1 p2 _ _ (_ & ->).
  eapply progresses_bind; [apply scan_chars_loop_progresses; exact Hf |].
  intros l r1 p3 Hl _ _.
  apply progresses_ret. intro; lia.
Qed.

Lemma eqb_newline c : String.eqb (String c "") newline = is_newline c.
Proof.
  unfold newline, is_newline. cbn. destruct (Ascii.eqb c _); reflexivity.
Qed.

(** A comment with an end-of-line ahead is left at that end-of-line. *)
Lemma skip_comm_progresses fuel : forall r p,
  has_newline r = true -> String.length r < fuel ->
  progresses (skip_comm fuel) r p
    (fun _ r' => forall c r0, r = String c r0 -> is_newline c = false ->
                              String.length r' <= String.length r0).
Proof.
  induction fuel as [| fuel IH]; intros r p Hn Hf; [lia |].
  destruct r as [| c r]; [discriminate Hn |].
  cbn [skip_comm].
  unfold progresses, bind at 1.
  rewrite char_current_standing, eqb_newline.
  cbn [has_newline] in Hn.
  destruct (is_newline c) eqn:Hc; cbn [negb].
  - exists (String c r), p. repeat split; auto. congruence.
  - unfold bind. rewrite char_take_standing.
    cbn in Hn, Hf.
    specialize (IH r (p + 1)%Z Hn ltac:(lia)). unfold progresses in IH.
    destruct (skip_comm fuel (standing r (p + 1))) as [[a self'] | e |]; auto.
    destruct IH as (r' & p' & -> & Hl & Hcl & _).
    exists r', p'. repeat split; auto.
    + cbn; lia.
    + intro H. apply Hcl, (closed_tail c r H).
    + intros c' r0 Heq _. injection Heq as _ <-. exact Hl.
Qed.

Lemma eqb_single c d :
  String.eqb (String c "") (String d "") = Ascii.eqb c d.
Proof. cbn. destruct (Ascii.eqb c d); reflexivity. Qed.

(** One token: on a text with closed comments [scan_token] returns when
    the fuel exceeds the length of the text by two, and every token but
    the end of text shortens the text. *)
Lemma scan_token_progresses fuel : forall r p,
  comments_closed r = true -> String.length r + 2 <= fuel ->
  progresses (scan_token fuel) r p
    (fun token r' =>
       Token.type token <> TK_EOT -> String.length r' < String.length r).
Proof.
  induction fuel as [| fuel IH]; intros r p Hc Hf; [lia |].
  destruct r as [| c r].
  - exists "", p. repeat split; auto. cbn. congruence.
  - cbn [String.length] in Hf.
    assert (Hshort : forall (m : Sc Token) p',
      progresses m (String c r) p'
        (fun _ r' => String.length r' <= String.length r) ->
      progresses m (String c r) p'
        (fun token r' => Token.type token <> TK_EOT ->
                         String.length r' < String.length (String c r))).
    { intros m p' H. apply (progresses_post _ _ _ _ _ H).
      cbn [String.length]. intros; lia. }
    assert (Hsingle : forall type val,
      progresses (single type val) (String c r) p
        (fun token r' => Token.type token <> TK_EOT ->
                         String.length r' < String.length (String c r))).
    { intros type val. apply Hshort.
      apply (progresses_post _ _ _ _ _ (single_progresses type val c r p)).
      intros a r' _ ->. lia. }
    apply (progresses_eq _
      (if isspace (String c "") then char_take ;; scan_token fuel
       else if isdigit (String c "") then scan_int fuel
       else if isalpha (String c "") then scan_chars fuel
       else if existsb (String.eqb (String c "")) OPER
            then single TK_OPERATOR (VStr (String c ""))
       else if String.eqb (String c "") "!"
            then skip_comm fuel ;; scan_token fuel
       else if String.eqb (String c "") ";" then single TK_SEMICOLON (VInt 0)
       else if String.eqb (String c "") ":" then
         token <- single TK_COLON (VInt 0) ;;
         c <- char_current ;;
         if String.eqb c "=" then
           pos <- char_pos ;;
           char_take ;;
           ret (Token.mk TK_BECOMES (VInt 0) (pos - 1)%Z)
         else ret token
       else if String.eqb (String c "") "~" then single TK_IS (VInt 0)
       else if String.eqb (String c "") "(" then single TK_LPAREN (VInt 0)
       else if String.eqb (String c "") ")" then single TK_RPAREN (VInt 0)
       else
         pos <- char_pos ;;
         raise (mkScannerError pos (String c "")))); [reflexivity |].
    destruct (isspace (String c "")).
    { eapply progresses_bind; [apply char_take_progresses |].
      intros d r1 p1 _ _ (_ & ->).
      apply (progresses_post _ _ _ _ _
               (IH r p1 (closed_tail c r Hc) ltac:(lia))).
      cbn [String.length]. intros; lia. }
    destruct (isdigit (String c "")).
    { apply Hshort, scan_int_progresses. lia. }
    destruct (isalpha (String c "")).
    { apply Hshort, scan_chars_progresses. lia. }
    destruct (existsb (String.eqb (String c "")) OPER); [apply Hsingle |].
    rewrite !eqb_single.
    destruct (Ascii.eqb_spec c "!") as [-> | _].
    { assert (Hn : has_newline (String "!" r) = true).
      { cbn in Hc. apply andb_true_iff in Hc. apply Hc. }
      eapply progresses_bind.
      - apply (skip_comm_progresses fuel (String "!" r) p); [exact Hn |].
        cbn [String.length]. lia.
      - intros u r1 p1 _ Hc1 Hr1. cbv beta in Hr1.
        specialize (Hr1 "!"%char r eq_refl eq_refl).
        apply (progresses_post _ _ _ _ _ (IH r1 p1 (Hc1 Hc) ltac:(lia))).
        cbn [String.length]. intros; lia. }
    destruct (Ascii.eqb c ";"); [apply Hsingle |].
    destruct (Ascii.eqb c ":").
    { eapply progresses_bind; [apply single_progresses |].
      intros token r1 p1 _ _ ->.
      eapply progresses_bind; [apply char_current_progresses |].
      intros c0 r1 p2 _ _ (-> & ->).
      destruct r as [| d r].
      - cbn [String.eqb]. apply progresses_ret. cbn. intros; lia.
      - rewrite eqb_single. destruct (Ascii.eqb d "=").
        + eapply progresses_bind; [apply char_pos_progresses |].
          intros pos r1 p3 _ _ ->.
          eapply progresses_bind; [apply char_take_progresses |].
          intros d' r1 p4 _ _ (_ & ->).
          apply progresses_ret. cbn. intros; lia.
        + apply progresses_ret. cbn. intros; lia. }
    destruct (Ascii.eqb c "~"); [apply Hsingle |].
    destruct (Ascii.eqb c "("); [apply Hsingle |].
    destruct (Ascii.eqb c ")"); [apply Hsingle |].
    exact I.
Qed.

(** The whole scan: with closed comments it returns once the fuel exceeds
    the length of the text by three. *)
Lemma scan_loop_returns fuel : forall r p acc,
  comments_closed r = true -> String.length r + 3 <= fuel ->
  scan_loop fuel acc (standing r p) <> OutOfFuel.
Proof.
  induction fuel as [| fuel IH]; intros r p acc Hc Hf; [lia |].
  cbn [scan_loop]. unfold bind.
  assert (H := scan_token_progresses fuel r p Hc ltac:(lia)).
  unfold progresses in H.
  destruct (scan_token fuel (standing r p)) as [[token self'] | e |];
    [| discriminate | destruct H].
  destruct H as (r' & p' & -> & Hl & Hc' & Hp).
  destruct (token_type_eqb (Token.type token) TK_EOT) eqn:Ht;
    [discriminate |].
  apply IH; [auto |].
  assert (Token.type token <> TK_EOT)
    by (intro Heq; rewrite Heq in Ht; discriminate).
  specialize (Hp ltac:(assumption)). lia.
Qed.

Lemma scanAll_returns text :
  comments_closed text = true ->
  scanAll (String.length text + 3) text <> OutOfFuel.
Proof.
  intro Hc. unfold scanAll, scan. rewrite init_standing.
  assert (H := scan_loop_returns (String.length text + 3) text 1 [] Hc
                 ltac:(lia)).
  destruct (scan_loop _ _ _) as [[tokens self'] | e |];
    [discriminate | discriminate | congruence].
Qed.

End scanner_facts.

(** Whatever [scanAll] returns ends with its only [TK_EOT]. *)
Lemma scanAll_ends_with_EOT fuel text tokens :
  scanAll fuel text = Ok tokens ->
  exists mid last,
    tokens = mid ++ [last]
    /\ Token.type last = TK_EOT
    /\ Forall (fun t => Token.type t <> TK_EOT) mid.
Proof.
  unfold scanAll, scan. intro H.
  destruct (scan_loop fuel [] (scanner.init text)) as [[l self'] | |] eqn:Hs;
    try discriminate H.
  injection H as ->.
  apply scanner_facts.scan_loop_ends_with_EOT in Hs.
  destruct Hs as (mid & last & -> & Hl & Hm). exists mid, last. auto.
Qed.

(** X16: on a text whose comments are all closed by an end-of-line, [scanAll]
    returns: a [ScannerError], or tokens ending with their only
    [TK_EOT]. *)
Lemma scanAll_closed_comments text k :
  comments_closed text = true ->
  (exists e, scanAll (String.length text + 3 + k) text = Raise e)
  \/ (exists mid last,
        scanAll (String.length text + 3 + k) text = Ok (mid ++ [last])
        /\ Token.type last = TK_EOT
        /\ Forall (fun t => Token.type t <> TK_EOT) mid).
Proof.
  intro Hc. apply scanner_facts.scanAll_returns in Hc.
  destruct (scanAll (String.length text + 3) text) as [tokens | e |] eqn:Hs;
    [| | congruence].
  - right. destruct (scanAll_ends_with_EOT _ _ _ Hs) as (mid & last & -> & H).
    exists mid, last. split; [| exact H].
    apply scanAll_reached; [exact Hs | discriminate].
  - left. exists e. apply scanAll_reached; [exact Hs | discriminate].
Qed.

(** C3: on a text that opens a comment and has no end-of-line, [scanAll]
    gives no outcome at any fuel. *)
Theorem scanAll_comment_without_newline : forall fuel,
  scanAll fuel "! no end of line" = OutOfFuel.
Proof.
  intro fuel. apply (scanner_facts.scanAll_unclosed_comment fuel " no end of line").
  reflexivity.
Qed.

(** * Steps of the parser's cursor *)

Module parser_facts.

Lemma run_bind {S E A B} (m : M S E A) (k : A -> M S E B) s a s' :
  m s = Ok (a, s') -> bind m k s = k a s'.
Proof. unfold bind. intros ->. reflexivity. Qed.

Lemma nth_error_after {A} (pre l : list A) i :
  nth_error (pre ++ l) (length pre + i) = nth_error l i.
Proof. rewrite nth_error_app2 by lia. f_equal. lia. Qed.

Lemma token_type_eqb_refl t : token_type_eqb t t = true.
Proof. destruct t; reflexivity. Qed.

Lemma token_type_eqb_neq t t' : t <> t' -> token_type_eqb t t' = false.
Proof. destruct t, t'; try reflexivity; congruence. Qed.

Lemma token_current_run self :
  token_current self = Ok (curtoken self, self).
Proof. reflexivity. Qed.

(** Taking a token that is not the end of text moves to the next one. *)
Lemma token_accept_any_next tokens i t t' :
  Token.type t <> TK_EOT -> nth_error tokens (S i) = Some t' ->
  token_accept_any {| tokens := tokens; curindex := i; curtoken := t |}
  = Ok (tt, {| tokens := tokens; curindex := S i; curtoken := t' |}).
Proof.
  intros Ht Hn. unfold token_accept_any. cbn [curtoken curindex parser.tokens].
  rewrite (token_type_eqb_neq _ _ Ht), Hn. reflexivity.
Qed.

(** At the end of text the cursor stays. *)
Lemma token_accept_any_at_end tokens i t :
  Token.type t = TK_EOT ->
  token_accept_any {| tokens := tokens; curindex := i; curtoken := t |}
  = Ok (tt, {| tokens := tokens; curindex := i; curtoken := t |}).
Proof.
  intro Ht. unfold token_accept_any. cbn [curtoken]. rewrite Ht. reflexivity.
Qed.

Lemma token_accept_next type tokens i t t' :
  Token.type t = type -> type <> TK_EOT ->
  nth_error tokens (S i) = Some t' ->
  token_accept type {| tokens := tokens; curindex := i; curtoken := t |}
  = Ok (tt, {| tokens := tokens; curindex := S i; curtoken := t' |}).
Proof.
  intros Ht Hne Hn. unfold token_accept.
  rewrite (run_bind _ _ _ _ _ (token_current_run _)). cbn [curtoken].
  rewrite Ht, token_type_eqb_refl. cbn [negb].
  apply token_accept_any_next; congruence.
Qed.

(** [parse_var] reads the name and the colon, and builds the type
    denoter from the token it then stands on, whatever that token is. *)
Lemma parse_var_run tokens i tid tcolon t :
  Token.type tid = TK_IDENTIFIER ->
  Token.type tcolon = TK_COLON ->
  nth_error tokens (S i) = Some tcolon ->
  nth_error tokens (S (S i)) = Some t ->
  parse_var {| tokens := tokens; curindex := i; curtoken := tid |}
  = Ok (VarDeclaration (Token.val tid) (mkTypeDenoter (Token.val t)),
        {| tokens := tokens; curindex := S (S i); curtoken := t |}).
Proof.
  intros Hid Hcolon N1 N2. unfold parse_var.
  rewrite (run_bind _ _ _ _ _ (token_current_run _)). cbn [curtoken].
  rewrite Hid. cbn [token_type_eqb token_code Z.eqb].
  erewrite run_bind
    by (apply token_accept_any_next; [congruence | exact N1]).
  erewrite run_bind
    by (apply token_accept_next; [exact Hcolon | discriminate | exact N2]).
  rewrite (run_bind _ _ _ _ _ (token_current_run _)). reflexivity.
Qed.

End parser_facts.

(** * Declarations: the type denoter *)

(** C10: after [var x :] the parser takes whatever token comes next as
    the type denoter: the declaration keeps that token's value, and the
    cursor moves past it. *)
Theorem parse_var_takes_any_type_token
  (fuel : nat) (pre rest : list Token) (tvar tid tcolon t next : Token) :
  Token.type tvar = TK_VAR ->
  Token.type tid = TK_IDENTIFIER ->
  Token.type tcolon = TK_COLON ->
  Token.type t <> TK_EOT ->
  let tokens := pre ++ [tvar; tid; tcolon; t; next] ++ rest in
  parse_declaration fuel
    {| tokens := tokens; curindex := length pre; curtoken := tvar |}
  = Ok (VarDeclaration (Token.val tid) (mkTypeDenoter (Token.val t)),
        {| tokens := tokens; curindex := length pre + 4; curtoken := next |}).
Proof.
  intros Hvar Hid Hcolon Ht tokens.
  assert (N : forall i, nth_error tokens (length pre + i)
                        = nth_error ([tvar; tid; tcolon; t; next] ++ rest) i)
    by (intro i; apply parser_facts.nth_error_after).
  clearbody tokens.
  replace (length pre + 4) with (S (S (S (S (length pre))))) by lia.
  assert (N1 := N 1). assert (N2 := N 2). assert (N3 := N 3).
  assert (N4 := N 4). clear N.
  replace (length pre + 1) with (S (length pre)) in N1 by lia.
  replace (length pre + 2) with (S (S (length pre))) in N2 by lia.
  replace (length pre + 3) with (S (S (S (length pre)))) in N3 by lia.
  replace (length pre + 4) with (S (S (S (S (length pre))))) in N4 by lia.
  cbn in N1, N2, N3, N4.
  unfold parse_declaration.
  rewrite (parser_facts.run_bind _ _ _ _ _ (parser_facts.token_current_run _)).
  cbn [curtoken]. rewrite Hvar.
  erewrite parser_facts.run_bind
    by (apply parser_facts.token_accept_any_next; [congruence | exact N1]).
  erewrite parser_facts.run_bind
    by (apply (parser_facts.parse_var_run _ _ tid tcolon t); assumption).
  erewrite parser_facts.run_bind
    by (apply parser_facts.token_accept_any_next; [exact Ht | exact N4]).
  reflexivity.
Qed.

Lemma parse_var_takes_any_type_token_witness :
  let tokens :=
    [Token.mk TK_LET (VInt 0) 0; Token.mk TK_VAR (VInt 0) 4;
     tk_id "x" 8; Token.mk TK_COLON (VInt 0) 9;
     Token.mk TK_INTLITERAL (VInt 42) 11; Token.mk TK_IN (VInt 0) 14;
     Token.mk TK_EOT (VInt 0) 16] in
  parse_declaration 0
    {| tokens := tokens; curindex := 1;
       curtoken := Token.mk TK_VAR (VInt 0) 4 |}
  = Ok (VarDeclaration (VStr "x") (mkTypeDenoter (VInt 42)),
        {| tokens := tokens; curindex := 5;
           curtoken := Token.mk TK_IN (VInt 0) 14 |}).
Proof.
  apply (parse_var_takes_any_type_token 0
           [Token.mk TK_LET (VInt 0) 0] [Token.mk TK_EOT (VInt 0) 16]
           (Token.mk TK_VAR (VInt 0) 4) (tk_id "x" 8)
           (Token.mk TK_COLON (VInt 0) 9)
           (Token.mk TK_INTLITERAL (VInt 42) 11)
           (Token.mk TK_IN (VInt 0) 14));
    try reflexivity.
  discriminate.
Defined.

(** X13: with the end of text in the type position the declaration is built
    all the same, from the value of that token; the cursor stays. *)
Lemma parse_var_at_end_of_text
  (fuel : nat) (pre : list Token) (tvar tid tcolon t : Token) :
  Token.type tvar = TK_VAR ->
  Token.type tid = TK_IDENTIFIER ->
  Token.type tcolon = TK_COLON ->
  Token.type t = TK_EOT ->
  let tokens := pre ++ [tvar; tid; tcolon; t] in
  parse_declaration fuel
    {| tokens := tokens; curindex := length pre; curtoken := tvar |}
  = Ok (VarDeclaration (Token.val tid) (mkTypeDenoter (Token.val t)),
        {| tokens := tokens; curindex := length pre + 3; curtoken := t |}).
Proof.
  intros Hvar Hid Hcolon Ht tokens.
  assert (N : forall i, nth_error tokens (length pre + i)
                        = nth_error [tvar; tid; tcolon; t] i)
    by (intro i; apply parser_facts.nth_error_after).
  clearbody tokens.
  replace (length pre + 3) with (S (S (S (length pre)))) by lia.
  assert (N1 := N 1). assert (N2 := N 2). assert (N3 := N 3). clear N.
  replace (length pre + 1) with (S (length pre)) in N1 by lia.
  replace (length pre + 2) with (S (S (length pre))) in N2 by lia.
  replace (length pre + 3) with (S (S (S (length pre)))) in N3 by lia.
  cbn in N1, N2, N3.
  unfold parse_declaration.
  rewrite (parser_facts.run_bind _ _ _ _ _ (parser_facts.token_current_run _)).
  cbn [curtoken]. rewrite Hvar.
  erewrite parser_facts.run_bind
    by (apply parser_facts.token_accept_any_next; [congruence | exact N1]).
  erewrite parser_facts.run_bind
    by (apply (parser_facts.parse_var_run _ _ tid tcolon t); assumption).
  erewrite parser_facts.run_bind
    by (apply parser_facts.token_accept_any_at_end; exact Ht).
  reflexivity.
Qed.

(** * Expressions: tiers and association *)

Module chain_facts.
Import parser_facts.

Lemma cursor_next pre t t' post :
  {| tokens := pre ++ t :: t' :: post; curindex := S (length pre);
     curtoken := t' |}
  = cursor (pre ++ [t]) t' post.
Proof.
  unfold cursor. rewrite <- app_assoc, length_app, Nat.add_1_r. reflexivity.
Qed.

Lemma token_accept_any_cursor pre t t' post :
  Token.type t <> TK_EOT ->
  token_accept_any (cursor pre t (t' :: post))
  = Ok (tt, cursor (pre ++ [t]) t' post).
Proof.
  intro Ht. unfold cursor at 1.
  rewrite (token_accept_any_next _ _ _ t' Ht).
  - rewrite cursor_next. reflexivity.
  - replace (S (length pre)) with (length pre + 1) by lia.
    rewrite nth_error_after. reflexivity.
Qed.

Lemma is_primary_not_EOT t : is_primary t = true -> Token.type t <> TK_EOT.
Proof. unfold is_primary. intros H Heq. rewrite Heq in H. discriminate. Qed.

Lemma is_oper_not_EOT t opers :
  is_oper t opers = true -> Token.type t <> TK_EOT.
Proof. unfold is_oper. intros H Heq. rewrite Heq in H. discriminate. Qed.

Lemma parse_priexpr_primary p pre t n post :
  is_primary t = true ->
  parse_priexpr p (cursor pre t (n :: post))
  = Ok (primary t, cursor (pre ++ [t]) n post).
Proof.
  intro Ht. unfold parse_priexpr.
  rewrite (run_bind _ _ _ _ _ (token_current_run _)).
  cbn [curtoken cursor].
  assert (Hne := is_primary_not_EOT t Ht).
  unfold is_primary in Ht. unfold primary.
  destruct (Token.type t) eqn:Hty; try discriminate Ht;
    cbn [token_type_eqb token_code Z.eqb];
    fold (cursor pre t (n :: post));
    rewrite (run_bind _ _ _ _ _
               (token_accept_any_cursor pre t n post
                  ltac:(rewrite Hty; discriminate)));
    reflexivity.
Qed.


(** One tier: a loop over [opers] whose operands are parsed by
    [operand].  The operand parser returns a one-token operand as soon as
    the token after it is an operator of this tier or no operator. *)
Section Tier.
Variable opers : list string.
Variable operand : nat -> P Expression.
Variable loop : nat -> Expression -> Token -> P Expression.

Hypothesis loop_S : forall fuel e1 token,
  loop (S fuel) e1 token
  = if is_oper token opers then
      token_accept_any ;;
      e2 <- operand fuel ;;
      token' <- token_current ;;
      loop fuel (BinaryExpression e1 (Token.val token) e2) token'
    else ret e1.

Hypothesis operand_primary : forall fuel pre t n post,
  1 <= fuel -> is_primary t = true ->
  is_oper n opers = true \/ Token.type n <> TK_OPERATOR ->
  operand fuel (cursor pre t (n :: post))
  = Ok (primary t, cursor (pre ++ [t]) n post).

Lemma loop_chain : forall chain fuel pre e1 stop post first rest,
  chain_of opers chain ->
  Token.type stop <> TK_OPERATOR ->
  length chain + 2 <= fuel ->
  first :: rest = chain_tokens chain ++ stop :: post ->
  loop fuel e1 first (cursor pre first rest)
  = Ok (group_left e1 chain, cursor (pre ++ chain_tokens chain) stop post).
Proof using loop_S operand_primary.
  induction chain as [| [o t] chain IH];
    intros fuel pre e1 stop post first rest Hch Hstop Hf Heq;
    (destruct fuel as [| fuel]; [cbn in Hf; lia |]); rewrite loop_S.
  - cbn in Heq. injection Heq as -> ->.
    assert (Hno : is_oper stop opers = false).
    { unfold is_oper. rewrite (token_type_eqb_neq _ _ Hstop). reflexivity. }
    rewrite Hno. cbn. rewrite app_nil_r. reflexivity.
  - cbn [chain_tokens flat_map fst snd app] in Heq.
    injection Heq as -> ->.
    inversion Hch as [| ? ? [Ho Ht] Hch']; subst. cbn [fst snd] in Ho, Ht.
    rewrite Ho.
    fold (chain_tokens chain).
    destruct (chain_tokens chain ++ stop :: post) as [| n rest'] eqn:Hn.
    { destruct (chain_tokens chain); discriminate Hn. }
    rewrite (run_bind _ _ _ _ _
               (token_accept_any_cursor pre o t (n :: rest')
                  (is_oper_not_EOT _ _ Ho))).
    assert (Hnext : is_oper n opers = true \/ Token.type n <> TK_OPERATOR).
    { destruct chain as [| [o' t'] chain'].
      - cbn in Hn. injection Hn as <- _. right. exact Hstop.
      - cbn in Hn. injection Hn as <- _. left.
        inversion Hch' as [| ? ? [Ho' _] _]. exact Ho'. }
    cbn [length] in Hf.
    rewrite (run_bind _ _ _ _ _
               (operand_primary fuel (pre ++ [o]) t n rest'
                  ltac:(lia) Ht Hnext)).
    rewrite (run_bind _ _ _ _ _ (token_current_run _)).
    cbn [curtoken cursor].
    fold (cursor ((pre ++ [o]) ++ [t]) n rest').
    rewrite (IH fuel ((pre ++ [o]) ++ [t]) _ stop post n rest' Hch' Hstop
               ltac:(lia) (eq_sym Hn)).
    cbn [group_left fold_left chain_tokens flat_map fst snd].
    rewrite <- !app_assoc. reflexivity.
Qed.

End Tier.

(** An operator of one tier is not an operator of another. *)
Ltac other_tier :=
  unfold is_oper, value_in, value_eqb, tier_opers;
  destruct (token_type_eqb _ _); [cbn [andb] | discriminate];
  match goal with
  | |- context [Token.val ?t] =>
      let s := fresh "s" in
      destruct (Token.val t) as [? | s]; [reflexivity |];
      cbn [existsb];
      repeat match goal with
             | |- context [String.eqb s ?x] =>
                 destruct (String.eqb_spec s x) as [-> | ?];
                   [cbn; intro; (reflexivity || discriminate) |]
             end;
      cbn; intro; (reflexivity || discriminate)
  end.

Lemma tier2_not_tier3 t :
  is_oper t (tier_opers 2) = true -> is_oper t (tier_opers 3) = false.
Proof. other_tier. Qed.

Lemma tier1_not_tier3 t :
  is_oper t (tier_opers 1) = true -> is_oper t (tier_opers 3) = false.
Proof. other_tier. Qed.

Lemma tier1_not_tier2 t :
  is_oper t (tier_opers 1) = true -> is_oper t (tier_opers 2) = false.
Proof. other_tier. Qed.

Lemma not_oper_any t opers :
  Token.type t <> TK_OPERATOR -> is_oper t opers = false.
Proof.
  intro H. unfold is_oper. rewrite (token_type_eqb_neq _ _ H). reflexivity.
Qed.

Section Operands.
Variable p : P Expression.

(** A one-token operand at the two tighter levels. *)
Lemma parse_tertexpr_primary fuel pre t n post :
  1 <= fuel -> is_primary t = true ->
  is_oper n (tier_opers 3) = false ->
  parse_tertexpr p fuel (cursor pre t (n :: post))
  = Ok (primary t, cursor (pre ++ [t]) n post).
Proof.
  intros Hf Ht Hn. unfold parse_tertexpr.
  rewrite (run_bind _ _ _ _ _ (parse_priexpr_primary p pre t n post Ht)).
  rewrite (run_bind _ _ _ _ _ (token_current_run _)).
  destruct fuel as [| fuel]; [lia |].
  cbn [parse_tertexpr_loop curtoken cursor].
  cbn [tier_opers] in Hn. rewrite Hn. reflexivity.
Qed.

Lemma parse_secexpr_primary fuel pre t n post :
  1 <= fuel -> is_primary t = true ->
  is_oper n (tier_opers 3) = false ->
  is_oper n (tier_opers 2) = false ->
  parse_secexpr p fuel (cursor pre t (n :: post))
  = Ok (primary t, cursor (pre ++ [t]) n post).
Proof.
  intros Hf Ht Hn3 Hn2. unfold parse_secexpr.
  rewrite (run_bind _ _ _ _ _
             (parse_tertexpr_primary fuel pre t n post Hf Ht Hn3)).
  rewrite (run_bind _ _ _ _ _ (token_current_run _)).
  destruct fuel as [| fuel]; [lia |].
  cbn [parse_secexpr_loop curtoken cursor].
  cbn [tier_opers] in Hn2. rewrite Hn2. reflexivity.
Qed.

Lemma parse_tertexpr_loop_chain chain fuel pre e1 stop post first rest :
  chain_of (tier_opers 3) chain ->
  Token.type stop <> TK_OPERATOR ->
  length chain + 2 <= fuel ->
  first :: rest = chain_tokens chain ++ stop :: post ->
  parse_tertexpr_loop p fuel e1 first (cursor pre first rest)
  = Ok (group_left e1 chain, cursor (pre ++ chain_tokens chain) stop post).
Proof.
  apply (loop_chain (tier_opers 3) (fun _ => parse_priexpr p)
           (parse_tertexpr_loop p)).
  - reflexivity.
  - intros f pre' t n post' _ Ht _. apply parse_priexpr_primary, Ht.
Qed.

Lemma parse_secexpr_loop_chain chain fuel pre e1 stop post first rest :
  chain_of (tier_opers 2) chain ->
  Token.type stop <> TK_OPERATOR ->
  length chain + 2 <= fuel ->
  first :: rest = chain_tokens chain ++ stop :: post ->
  parse_secexpr_loop p fuel e1 first (cursor pre first rest)
  = Ok (group_left e1 chain, cursor (pre ++ chain_tokens chain) stop post).
Proof.
  apply (loop_chain (tier_opers 2) (parse_tertexpr p)
           (parse_secexpr_loop p)).
  - reflexivity.
  - intros f pre' t n post' Hf Ht Hn. apply parse_tertexpr_primary; auto.
    destruct Hn as [Hn | Hn].
    + apply tier2_not_tier3, Hn.
    + apply not_oper_any, Hn.
Qed.

Lemma parse_expr_loop_chain chain fuel pre e1 stop post first rest :
  chain_of (tier_opers 1) chain ->
  Token.type stop <> TK_OPERATOR ->
  length chain + 2 <= fuel ->
  first :: rest = chain_tokens chain ++ stop :: post ->
  parse_expr_loop p fuel e1 first (cursor pre first rest)
  = Ok (group_left e1 chain, cursor (pre ++ chain_tokens chain) stop post).
Proof.
  apply (loop_chain (tier_opers 1) (parse_secexpr p) (parse_expr_loop p)).
  - reflexivity.
  - intros f pre' t n post' Hf Ht Hn. apply parse_secexpr_primary; auto.
    + destruct Hn as [Hn | Hn].
      * apply tier1_not_tier3, Hn.
      * apply not_oper_any, Hn.
    + destruct Hn as [Hn | Hn].
      * apply tier1_not_tier2, Hn.
      * apply not_oper_any, Hn.
Qed.

(** The first token of what follows a chain: its next operator, or the
    token that stops it. *)
Lemma chain_next opers chain stop post n rest :
  chain_of opers chain ->
  Token.type stop <> TK_OPERATOR ->
  n :: rest = chain_tokens chain ++ stop :: post ->
  is_oper n opers = true \/ Token.type n <> TK_OPERATOR.
Proof.
  intros Hch Hstop Hn. destruct chain as [| [o t] chain].
  - cbn in Hn. injection Hn as -> _. right. exact Hstop.
  - cbn in Hn. injection Hn as -> _. left.
    inversion Hch as [| ? ? [Ho _] _]. exact Ho.
Qed.

(** A loop of any tier stops on a token that is no operator. *)
Lemma loops_stop fuel e stop pre post :
  1 <= fuel -> Token.type stop <> TK_OPERATOR ->
  parse_secexpr_loop p fuel e stop (cursor pre stop post)
  = Ok (e, cursor pre stop post)
  /\ parse_expr_loop p fuel e stop (cursor pre stop post)
     = Ok (e, cursor pre stop post).
Proof.
  intros Hf Hstop. destruct fuel as [| fuel]; [lia |].
  cbn [parse_secexpr_loop parse_expr_loop].
  rewrite !(not_oper_any stop _ Hstop). auto.
Qed.

(** Each level on a whole chain of its own tier, and of a tighter one. *)
Lemma parse_tertexpr_chain chain fuel pre t0 stop post n rest :
  is_primary t0 = true ->
  chain_of (tier_opers 3) chain ->
  Token.type stop <> TK_OPERATOR ->
  length chain + 2 <= fuel ->
  n :: rest = chain_tokens chain ++ stop :: post ->
  parse_tertexpr p fuel (cursor pre t0 (n :: rest))
  = Ok (group_left (primary t0) chain,
        cursor ((pre ++ [t0]) ++ chain_tokens chain) stop post).
Proof.
  intros Ht0 Hch Hstop Hf Hn. unfold parse_tertexpr.
  rewrite (run_bind _ _ _ _ _ (parse_priexpr_primary p pre t0 n rest Ht0)).
  rewrite (run_bind _ _ _ _ _ (token_current_run _)).
  cbn [curtoken cursor]. fold (cursor (pre ++ [t0]) n rest).
  apply parse_tertexpr_loop_chain; assumption.
Qed.

Lemma parse_secexpr_chain T chain fuel pre t0 stop post n rest :
  2 <= T <= 3 ->
  is_primary t0 = true ->
  chain_of (tier_opers T) chain ->
  Token.type stop <> TK_OPERATOR ->
  length chain + 2 <= fuel ->
  n :: rest = chain_tokens chain ++ stop :: post ->
  parse_secexpr p fuel (cursor pre t0 (n :: rest))
  = Ok (group_left (primary t0) chain,
        cursor ((pre ++ [t0]) ++ chain_tokens chain) stop post).
Proof.
  intros HT Ht0 Hch Hstop Hf Hn. unfold parse_secexpr.
  assert (HT' : T = 2 \/ T = 3) by lia. destruct HT' as [-> | ->].
  - assert (Hn3 : is_oper n (tier_opers 3) = false).
    { destruct (chain_next _ _ _ _ _ _ Hch Hstop Hn) as [H | H].
      - apply tier2_not_tier3, H.
      - apply not_oper_any, H. }
    rewrite (run_bind _ _ _ _ _
               (parse_tertexpr_primary fuel pre t0 n rest ltac:(lia) Ht0 Hn3)).
    rewrite (run_bind _ _ _ _ _ (token_current_run _)).
    cbn [curtoken cursor]. fold (cursor (pre ++ [t0]) n rest).
    apply parse_secexpr_loop_chain; assumption.
  - rewrite (run_bind _ _ _ _ _
               (parse_tertexpr_chain chain fuel pre t0 stop post n rest
                  Ht0 Hch Hstop Hf Hn)).
    rewrite (run_bind _ _ _ _ _ (token_current_run _)).
    cbn [curtoken cursor].
    fold (cursor ((pre ++ [t0]) ++ chain_tokens chain) stop post).
    apply loops_stop; [lia | exact Hstop].
Qed.

Lemma parse_expr_body_chain T chain fuel pre t0 stop post n rest :
  1 <= T <= 3 ->
  is_primary t0 = true ->
  chain_of (tier_opers T) chain ->
  Token.type stop <> TK_OPERATOR ->
  length chain + 2 <= fuel ->
  n :: rest = chain_tokens chain ++ stop :: post ->
  parse_expr_body p fuel (cursor pre t0 (n :: rest))
  = Ok (group_left (primary t0) chain,
        cursor ((pre ++ [t0]) ++ chain_tokens chain) stop post).
Proof.
  intros HT Ht0 Hch Hstop Hf Hn. unfold parse_expr_body.
  assert (HT' : T = 1 \/ 2 <= T <= 3) by lia. destruct HT' as [-> | HT'].
  - assert (Hn' : is_oper n (tier_opers 3) = false
                  /\ is_oper n (tier_opers 2) = false).
    { destruct (chain_next _ _ _ _ _ _ Hch Hstop Hn) as [H | H].
      - split; [apply tier1_not_tier3, H | apply tier1_not_tier2, H].
      - split; apply not_oper_any, H. }
    rewrite (run_bind _ _ _ _ _
               (parse_secexpr_primary fuel pre t0 n rest ltac:(lia) Ht0
                  (proj1 Hn') (proj2 Hn'))).
    rewrite (run_bind _ _ _ _ _ (token_current_run _)).
    cbn [curtoken cursor]. fold (cursor (pre ++ [t0]) n rest).
    apply parse_expr_loop_chain; assumption.
  - rewrite (run_bind _ _ _ _ _
               (parse_secexpr_chain T chain fuel pre t0 stop post n rest
                  HT' Ht0 Hch Hstop Hf Hn)).
    rewrite (run_bind _ _ _ _ _ (token_current_run _)).
    cbn [curtoken cursor].
    fold (cursor ((pre ++ [t0]) ++ chain_tokens chain) stop post).
    apply loops_stop; [lia | exact Hstop].
Qed.

End Operands.

End chain_facts.


Lemma parse_expr_of_reached n tokens r :
  parse_expr_of n tokens = r -> r <> OutOfFuel ->
  forall k, parse_expr_of (n + k) tokens = r.
Proof.
  intros Hr Hv k.
  apply (le_res_reached (parse_expr_of n tokens)); auto.
  unfold parse_expr_of. destruct (parser.init tokens); try apply le_res_refl.
  apply le_res_value_of, parser_fuel.parse_expr_mono. lia.
Qed.

Lemma tier_inv oper t :
  tier oper = Some t ->
  (t = 1 /\ (oper = ">" \/ oper = "<" \/ oper = "="))
  \/ (t = 2 /\ (oper = "+" \/ oper = "-"))
  \/ (t = 3 /\ (oper = "*" \/ oper = "/" \/ oper = "\")).
Proof.
  unfold tier, tier_opers. cbn [existsb].
  repeat match goal with
         | |- context [String.eqb oper ?s] =>
             destruct (String.eqb_spec oper s) as [-> | _];
               [ cbn; intro H; injection H as <-; tauto | ]
         end.
  cbn. discriminate.
Qed.

(** A chain of operators of one tier, between one-token operands and up
    to a token that is no operator, groups to the left, whatever its
    length. *)
Lemma tier_chain_groups_left (T : nat) (t0 stop : Token)
  (chain : list (Token * Token)) (post : list Token) (k : nat) :
  1 <= T <= 3 ->
  is_primary t0 = true ->
  chain_of (tier_opers T) chain ->
  Token.type stop <> TK_OPERATOR ->
  parse_expr_of (length chain + 3 + k)
    (t0 :: chain_tokens chain ++ stop :: post)
  = Ok (group_left (primary t0) chain).
Proof.
  intros HT Ht0 Hch Hstop.
  unfold parse_expr_of. cbn [parser.init nth_error].
  change {| tokens := t0 :: chain_tokens chain ++ stop :: post;
            curindex := 0; curtoken := t0 |}
    with (cursor [] t0 (chain_tokens chain ++ stop :: post)).
  replace (length chain + 3 + k) with (S (length chain + 2 + k)) by lia.
  cbn [parse_expr].
  destruct (chain_tokens chain ++ stop :: post) as [| n rest] eqn:Hn.
  { destruct (chain_tokens chain); discriminate Hn. }
  rewrite (chain_facts.parse_expr_body_chain _ T chain
             (length chain + 2 + k) [] t0 stop post
             n rest HT Ht0 Hch Hstop ltac:(lia) (eq_sym Hn)).
  reflexivity.
Qed.


(** Two operators in a row: the second takes the middle operand only
    when its tier is strictly tighter than the first one's. *)
Lemma two_operators (a b c : string) (pa pb pc p1 p2 pe : Z)
  (o1 o2 : string) (t1 t2 k : nat) :
  tier o1 = Some t1 -> tier o2 = Some t2 ->
  parse_expr_of (8 + k)
    [tk_id a pa; tk_op o1 p1; tk_id b pb; tk_op o2 p2; tk_id c pc;
     Token.mk TK_EOT (VInt 0) pe]
  = Ok (if (t2 <=? t1)%nat
        then BinaryExpression
               (BinaryExpression (var_ref a) (VStr o1) (var_ref b))
               (VStr o2) (var_ref c)
        else BinaryExpression (var_ref a) (VStr o1)
               (BinaryExpression (var_ref b) (VStr o2) (var_ref c))).
Proof.
  intros H1 H2. apply tier_inv in H1, H2.
  apply parse_expr_of_reached; [| destruct (t2 <=? t1)%nat; discriminate].
  destruct H1 as [(-> & H1) | [(-> & H1) | (-> & H1)]];
    destruct H2 as [(-> & H2) | [(-> & H2) | (-> & H2)]];
    repeat match goal with
           | H : _ \/ _ |- _ => destruct H as [-> | H]
           | H : _ = _ |- _ => rewrite H; clear H
           end;
    reflexivity.
Qed.

(** C5: three tiers, each associating to the left.  A chain of operators
    of one tier groups to the left whatever its length; of two operators
    in a row the second takes the middle operand only when its tier is
    strictly tighter, comparison being the loosest tier and
    multiplication the tightest.  So [a<b<c] is [(a<b)<c] and [a+b*c] is
    [a+(b*c)]. *)
Theorem precedence_tiers :
  (forall T t0 stop chain post k,
      1 <= T <= 3 ->
      is_primary t0 = true ->
      chain_of (tier_opers T) chain ->
      Token.type stop <> TK_OPERATOR ->
      parse_expr_of (length chain + 3 + k)
        (t0 :: chain_tokens chain ++ stop :: post)
      = Ok (group_left (primary t0) chain))
  /\ (forall a b c pa pb pc p1 p2 pe,
      let tokens o1 o2 :=
        [tk_id a pa; tk_op o1 p1; tk_id b pb; tk_op o2 p2; tk_id c pc;
         Token.mk TK_EOT (VInt 0) pe] in
      let to_left o1 o2 :=
        BinaryExpression (BinaryExpression (var_ref a) (VStr o1) (var_ref b))
          (VStr o2) (var_ref c) in
      let to_right o1 o2 :=
        BinaryExpression (var_ref a) (VStr o1)
          (BinaryExpression (var_ref b) (VStr o2) (var_ref c)) in
      (forall o1 o2 t1 t2 k,
          tier o1 = Some t1 -> tier o2 = Some t2 ->
          parse_expr_of (8 + k) (tokens o1 o2)
          = Ok (if (t2 <=? t1)%nat then to_left o1 o2 else to_right o1 o2))
      /\ (forall k,
             parse_expr_of (8 + k) (tokens "<" "<") = Ok (to_left "<" "<"))
      /\ (forall k,
             parse_expr_of (8 + k) (tokens "+" "*") = Ok (to_right "+" "*"))).
Proof.
  split.
  - intros T t0 stop chain post k HT Ht0 Hch Hstop.
    apply (tier_chain_groups_left T); assumption.
  - intros a b c pa pb pc p1 p2 pe tokens to_left to_right.
    split; [| split].
    + intros o1 o2 t1 t2 k H1 H2. apply two_operators; assumption.
    + intro k.
      apply (two_operators a b c pa pb pc p1 p2 pe "<" "<" 1 1 k);
        reflexivity.
    + intro k.
      apply (two_operators a b c pa pb pc p1 p2 pe "+" "*" 2 3 k);
        reflexivity.
Qed.

Lemma precedence_tiers_witness :
  tier "-" = Some 2 /\ tier "/" = Some 3
  /\ parse_expr_of 8
       [tk_id "a" 0; tk_op "-" 1; tk_id "b" 2; tk_op "/" 3; tk_id "c" 4;
        Token.mk TK_EOT (VInt 0) 5]
     = Ok (BinaryExpression (var_ref "a") (VStr "-")
             (BinaryExpression (var_ref "b") (VStr "/") (var_ref "c")))
  /\ chain_of (tier_opers 2)
       [(tk_op "-" 1, tk_id "b" 2); (tk_op "+" 3, tk_id "c" 4);
        (tk_op "-" 5, Token.mk TK_INTLITERAL (VInt 1) 6)]
  /\ parse_expr_of 6
       [tk_id "a" 0; tk_op "-" 1; tk_id "b" 2; tk_op "+" 3; tk_id "c" 4;
        tk_op "-" 5; Token.mk TK_INTLITERAL (VInt 1) 6;
        Token.mk TK_EOT (VInt 0) 7]
     = Ok (BinaryExpression
             (BinaryExpression
                (BinaryExpression (var_ref "a") (VStr "-") (var_ref "b"))
                (VStr "+") (var_ref "c"))
             (VStr "-") (IntegerExpression (VInt 1))).
Proof.
  assert (Hch : chain_of (tier_opers 2)
       [(tk_op "-" 1, tk_id "b" 2); (tk_op "+" 3, tk_id "c" 4);
        (tk_op "-" 5, Token.mk TK_INTLITERAL (VInt 1) 6)])
    by (repeat constructor).
  split; [reflexivity | split; [reflexivity | split; [| split]]].
  - apply (proj1 (proj2 precedence_tiers "a" "b" "c" 0%Z 2%Z 4%Z 1%Z 3%Z 5%Z)
             "-" "/" 2 3 0); reflexivity.
  - exact Hch.
  - apply (proj1 precedence_tiers 2 (tk_id "a" 0)
             (Token.mk TK_EOT (VInt 0) 7)
             [(tk_op "-" 1, tk_id "b" 2); (tk_op "+" 3, tk_id "c" 4);
              (tk_op "-" 5, Token.mk TK_INTLITERAL (VInt 1) 6)] [] 0).
    + lia.
    + reflexivity.
    + exact Hch.
    + discriminate.
Defined.

(** * Label discipline of the generated code *)

Module codegen_facts.

(** *** Running a generator computation backwards *)

Lemma bind_Ok {S E A B} (m : M S E A) (k : A -> M S E B) s r :
  bind m k s = Ok r -> exists a s1, m s = Ok (a, s1) /\ k a s1 = Ok r.
Proof.
  unfold bind. destruct (m s) as [[a s1] | |]; try discriminate.
  intro H. exists a, s1. split; [reflexivity | exact H].
Qed.

Lemma append_Ok i s u s' :
  append i s = Ok (u, s') ->
  code s' = code s ++ [i] /\ labels s' = labels s.
Proof. unfold append. intro H. injection H as _ <-. split; reflexivity. Qed.

Lemma new_label_Ok s l s' :
  new_label s = Ok (l, s') ->
  l = mkLabel (labels s) /\ code s' = code s /\ labels s' = S (labels s).
Proof.
  unfold new_label. intro H. injection H as <- <-. repeat split.
Qed.

(** *** Counting *)

Lemma count_app p a b : count p (a ++ b) = count p a + count p b.
Proof. unfold count. rewrite filter_app, length_app. reflexivity. Qed.

Lemma count_cons p i c :
  count p (i :: c) = (if p i then 1 else 0) + count p c.
Proof. unfold count. simpl. destruct (p i); reflexivity. Qed.

Lemma count_nil p : count p [] = 0.
Proof. reflexivity. Qed.

Lemma count_no_label p c :
  (forall i, no_label i = true -> p i = false) ->
  Forall (fun i => no_label i = true) c -> count p c = 0.
Proof.
  intros Hp Hc. induction Hc as [| i c Hi _ IH]; [reflexivity |].
  rewrite count_cons, IH, (Hp i Hi). reflexivity.
Qed.

Lemma no_label_def l i : no_label i = true -> is_def l i = false.
Proof.
  destruct i as [[o | l'] [| v | l'']]; cbn; intro H;
    try discriminate H; reflexivity.
Qed.

Lemma no_label_jump l i : no_label i = true -> is_jump_to l i = false.
Proof.
  destruct i as [[o | l'] [| v | l'']]; cbn; intro H;
    try discriminate H; destruct o; reflexivity.
Qed.

Lemma no_label_ref l i : no_label i = true -> is_ref l i = false.
Proof.
  destruct i as [[o | l'] [| v | l'']]; cbn; intro H;
    try discriminate H; reflexivity.
Qed.

Lemma tidy_no_label lo hi c :
  Forall (fun i => no_label i = true) c -> tidy lo hi c.
Proof.
  intros Hc l.
  rewrite (count_no_label (is_def l)), (count_no_label (is_jump_to l)),
    (count_no_label (is_ref l));
    auto using no_label_def, no_label_jump, no_label_ref.
  repeat split; lia.
Qed.

Lemma tidy_app lo mid hi a b :
  lo <= mid -> mid <= hi ->
  tidy lo mid a -> tidy mid hi b -> tidy lo hi (a ++ b).
Proof.
  intros H1 H2 Ha Hb l. rewrite !count_app.
  destruct (Ha l) as (Ha1 & Ha2 & Ha3 & Ha4).
  destruct (Hb l) as (Hb1 & Hb2 & Hb3 & Hb4).
  repeat split; lia.
Qed.

(** *** Expressions and declarations place and use no label *)

Lemma plain_ret : plain (ret tt).
Proof.
  intros s u s' H. injection H as _ <-. split; [reflexivity |].
  exists []. rewrite app_nil_r. auto.
Qed.

Lemma plain_append i : no_label i = true -> plain (append i).
Proof.
  intros Hi s u s' H. apply append_Ok in H. destruct H as [Hc Hl].
  split; [exact Hl |]. exists [i]. auto.
Qed.

Lemma plain_bind (m : G unit) (k : unit -> G unit) :
  plain m -> (forall u, plain (k u)) -> plain (bind m k).
Proof.
  intros Hm Hk s u s' H. apply bind_Ok in H.
  destruct H as (a & s1 & H1 & H2).
  apply Hm in H1. destruct H1 as (Hl1 & n1 & Hc1 & Hn1).
  apply Hk in H2. destruct H2 as (Hl2 & n2 & Hc2 & Hn2).
  split; [congruence |]. exists (n1 ++ n2).
  rewrite Hc2, Hc1, app_assoc. split; [reflexivity |].
  apply Forall_app; auto.
Qed.

Lemma plain_raise e : plain (raise e).
Proof. intros s u s' H. discriminate H. Qed.

Lemma gen_expr_plain tree : plain (gen_expr tree).
Proof.
  induction tree as [v | v | e1 IH1 op e2 IH2]; simpl.
  - apply plain_append; reflexivity.
  - apply plain_append; reflexivity.
  - unfold gen_binaryexpr.
    apply plain_bind; [exact IH1 | intros _].
    apply plain_bind; [exact IH2 | intros _].
    repeat match goal with
           | |- plain (if ?b then _ else _) => destruct b
           end; auto using plain_append, plain_raise.
Qed.

Lemma gen_declaration_plain tree : plain (gen_declaration tree).
Proof.
  induction tree as [i e | i t | d1 IH1 d2 IH2]; simpl.
  - unfold gen_constdecl.
    apply plain_bind; [apply gen_expr_plain | intros _].
    apply plain_append; reflexivity.
  - apply plain_ret.
  - apply plain_bind; auto.
Qed.

Lemma gen_assigncommand_plain v e : plain (gen_assigncommand v e).
Proof.
  unfold gen_assigncommand.
  apply plain_bind; [apply gen_expr_plain | intros _].
  apply plain_append; reflexivity.
Qed.

Lemma gen_callcommand_plain i e : plain (gen_callcommand i e).
Proof.
  unfold gen_callcommand.
  destruct (value_eqb i (VStr "getint")).
  - apply plain_bind; [apply plain_append; reflexivity | intros _].
    apply plain_bind; [apply plain_append; reflexivity | intros _].
    intros s u s' H. apply bind_Ok in H. destruct H as (v & s1 & H1 & H2).
    destruct e; try discriminate H1. injection H1 as <- <-.
    revert H2. apply plain_append. reflexivity.
  - destruct (value_eqb i (VStr "putint")); [| apply plain_ret].
    apply plain_bind.
    + destruct e; auto using plain_append, plain_raise.
    + intros _. repeat (apply plain_bind; [apply plain_append; reflexivity | intros _]).
      apply plain_append; reflexivity.
Qed.

(** *** Commands *)

Lemma plain_disciplined m : plain m -> disciplined m.
Proof.
  intros Hm s u s' H. apply Hm in H. destruct H as (Hl & new & Hc & Hn).
  split; [lia |]. exists new. split; [exact Hc |].
  apply tidy_no_label; exact Hn.
Qed.

Lemma disciplined_bind (m : G unit) (k : unit -> G unit) :
  disciplined m -> (forall u, disciplined (k u)) -> disciplined (bind m k).
Proof.
  intros Hm Hk s u s' H. apply bind_Ok in H.
  destruct H as (a & s1 & H1 & H2).
  apply Hm in H1. destruct H1 as (Hl1 & n1 & Hc1 & Hn1).
  apply Hk in H2. destruct H2 as (Hl2 & n2 & Hc2 & Hn2).
  split; [lia |]. exists (n1 ++ n2).
  rewrite Hc2, Hc1, app_assoc. split; [reflexivity |].
  apply (tidy_app _ (labels s1)); auto.
Qed.

(** The layout of a conditional, and of a loop, around tidy parts. *)
Ltac count_labels l Hne H1 :=
  rewrite ?count_app, ?count_cons, ?count_nil;
  rewrite (count_no_label (is_def l)), (count_no_label (is_jump_to l)),
    (count_no_label (is_ref l));
    auto using no_label_def, no_label_jump, no_label_ref;
  cbn [is_def is_jump_to is_ref fst snd]; unfold label_eqb; cbn [label_id].

Lemma tidy_if n m h ne n1 n2 :
  Forall (fun i => no_label i = true) ne ->
  n + 3 <= m -> m <= h ->
  tidy (n + 3) m n1 -> tidy m h n2 ->
  tidy n h
    (ne ++ [(Op POP_JUMP_IF_FALSE, ALabel (mkLabel n))] ++ n1
        ++ [(Op JUMP_ABSOLUTE, ALabel (mkLabel (S n)));
            (Lbl (mkLabel n), ANone)]
        ++ n2 ++ [(Lbl (mkLabel (S n)), ANone)]).
Proof.
  intros Hne Hm Hh H1 H2 l.
  destruct (H1 l) as (A1 & A2 & A3 & A4).
  destruct (H2 l) as (B1 & B2 & B3 & B4).
  count_labels l Hne H1.
  destruct (Nat.eqb_spec (label_id l) n);
    destruct (Nat.eqb_spec (label_id l) (S n));
    repeat split; lia.
Qed.

Lemma tidy_while n h ne n1 :
  Forall (fun i => no_label i = true) ne ->
  n + 3 <= h ->
  tidy (n + 3) h n1 ->
  tidy n h
    ([(Lbl (mkLabel n), ANone)] ++ ne
        ++ [(Op POP_JUMP_IF_FALSE, ALabel (mkLabel (S n)))] ++ n1
        ++ [(Op JUMP_ABSOLUTE, ALabel (mkLabel n));
            (Lbl (mkLabel (S n)), ANone)]).
Proof.
  intros Hne Hh H1 l.
  destruct (H1 l) as (A1 & A2 & A3 & A4).
  count_labels l Hne H1.
  destruct (Nat.eqb_spec (label_id l) n);
    destruct (Nat.eqb_spec (label_id l) (S n));
    repeat split; lia.
Qed.

Ltac unbind H :=
  let a := fresh "u" in
  let s := fresh "s" in
  let H1 := fresh "H" in
  apply bind_Ok in H; destruct H as (a & s & H1 & H).

Section Command.
Variable gen : Command -> G unit.

Lemma gen_ifcommand_disciplined e c1 c2 :
  disciplined (gen c1) -> disciplined (gen c2) ->
  disciplined (gen_ifcommand gen e c1 c2).
Proof.
  intros IH1 IH2 s u s' H. unfold gen_ifcommand in H.
  do 9 unbind H.
  apply new_label_Ok in H0, H1, H2.
  destruct H0 as (-> & C0 & L0), H1 as (-> & C1 & L1), H2 as (-> & C2 & L2).
  apply gen_expr_plain in H3. destruct H3 as (L3 & ne & C3 & Hne).
  apply append_Ok in H4, H6, H7, H.
  destruct H4 as (C4 & L4), H6 as (C6 & L6), H7 as (C7 & L7), H as (C9 & L9).
  apply IH1 in H5. destruct H5 as (L5 & n1 & C5 & T1).
  apply IH2 in H8. destruct H8 as (L8 & n2 & C8 & T2).
  split; [lia |].
  eexists. split.
  - rewrite C9, C8, C7, C6, C5, C4, C3, C2, C1, C0.
    rewrite <- !app_assoc. reflexivity.
  - rewrite L0. cbn [app].
    apply (tidy_if (labels s) (labels s5) (labels s') ne n1 n2 Hne);
      try lia.
    + replace (labels s + 3) with (labels s4) by lia. exact T1.
    + replace (labels s') with (labels s8) by lia.
      replace (labels s5) with (labels s7) by lia. exact T2.
Qed.

Lemma gen_whilecommand_disciplined e c :
  disciplined (gen c) -> disciplined (gen_whilecommand gen e c).
Proof.
  intros IH s u s' H. unfold gen_whilecommand in H.
  do 8 unbind H.
  apply new_label_Ok in H0, H1, H2.
  destruct H0 as (-> & C0 & L0), H1 as (-> & C1 & L1), H2 as (-> & C2 & L2).
  apply append_Ok in H3, H5, H7, H.
  destruct H3 as (C3 & L3), H5 as (C5 & L5), H7 as (C7 & L7), H as (C8 & L8).
  apply gen_expr_plain in H4. destruct H4 as (L4 & ne & C4 & Hne).
  apply IH in H6. destruct H6 as (L6 & n1 & C6 & T1).
  split; [lia |].
  eexists. split.
  - rewrite C8, C7, C6, C5, C4, C3, C2, C1, C0.
    rewrite <- !app_assoc. reflexivity.
  - rewrite L0. cbn [app].
    apply (tidy_while (labels s) (labels s') ne n1 Hne); try lia.
    replace (labels s + 3) with (labels s5) by lia.
    replace (labels s') with (labels s6) by lia. exact T1.
Qed.

End Command.

Lemma gen_command_disciplined tree : disciplined (gen_command tree).
Proof.
  induction tree as [v e | i e | c1 IH1 c2 IH2 | e c1 IH1 c2 IH2
                    | e c IH | d c IH]; cbn [gen_command].
  - apply plain_disciplined, gen_assigncommand_plain.
  - apply plain_disciplined, gen_callcommand_plain.
  - apply disciplined_bind; auto.
  - apply gen_ifcommand_disciplined; assumption.
  - apply gen_whilecommand_disciplined; assumption.
  - apply disciplined_bind; [| auto].
    apply plain_disciplined, gen_declaration_plain.
Qed.

(** The code of a whole program: tidy, whatever the number of labels. *)
Lemma generate_tidy tree c :
  generate tree = Ok c -> exists hi, tidy 0 hi c.
Proof.
  unfold generate. intro H.
  destruct ((gen_command (command tree);;
             append (Op RETURN_VALUE, ANone);;
             self <- get;; ret (code self)) init)
    as [[c' s'] | |] eqn:Hrun; try discriminate H.
  injection H as ->.
  unbind Hrun. unbind Hrun.
  apply gen_command_disciplined in H. destruct H as (L & new & C & T).
  apply append_Ok in H0. destruct H0 as (C0 & L0).
  unfold bind, get, ret in Hrun. injection Hrun as <- <-.
  exists (labels s). rewrite C0, C. cbn [init code app].
  apply (tidy_app 0 (labels s) (labels s)); try lia.
  - exact T.
  - apply tidy_no_label. repeat constructor.
Qed.

Lemma count_pos_In p c : 1 <= count p c <-> exists i, In i c /\ p i = true.
Proof.
  unfold count. split.
  - destruct (filter p c) as [| i r] eqn:Hf; [cbn; lia |].
    intros _. exists i. apply filter_In. rewrite Hf. left; reflexivity.
  - intros (i & Hi & Hp).
    assert (Hin : In i (filter p c)) by (apply filter_In; auto).
    destruct (filter p c); [destruct Hin | cbn; lia].
Qed.

Lemma occurs_count l c :
  occurs l c = true -> 1 <= count (is_def l) c + count (is_ref l) c.
Proof.
  unfold occurs. intro H. apply existsb_exists in H.
  destruct H as (i & Hi & Hp). apply orb_true_iff in Hp.
  destruct Hp as [Hp | Hp].
  - assert (1 <= count (is_def l) c) by (apply count_pos_In; eauto). lia.
  - assert (1 <= count (is_ref l) c) by (apply count_pos_In; eauto). lia.
Qed.

End codegen_facts.

(** C4: in the code of every program the generator accepts, a label that
    occurs is placed exactly once, every jump and jump-if-false goes to a
    placed label, and every placed label is the target of some jump. *)
Theorem generate_label_discipline (tree : Program) (c : list instr) :
  generate tree = Ok c ->
  forall l,
    (occurs l c = true -> count (is_def l) c = 1)
    /\ (forall i, In i c -> is_jump_to l i = true ->
        exists d, In d c /\ is_def l d = true)
    /\ (forall d, In d c -> is_def l d = true ->
        exists i, In i c /\ is_jump_to l i = true).
Proof.
  intros H l. apply codegen_facts.generate_tidy in H. destruct H as (hi & T).
  destruct (T l) as (T1 & T2 & T3 & _).
  split; [| split].
  - intro Ho. apply codegen_facts.occurs_count in Ho. lia.
  - intros i Hi Hj. apply codegen_facts.count_pos_In.
    assert (1 <= count (is_jump_to l) c)
      by (apply codegen_facts.count_pos_In; eauto).
    lia.
  - intros d Hd Hp. apply codegen_facts.count_pos_In.
    assert (1 <= count (is_def l) c)
      by (apply codegen_facts.count_pos_In; eauto).
    lia.
Qed.

Lemma generate_label_discipline_witness :
  let tree :=
    mkProgram
      (WhileCommand (var_ref "x")
         (IfCommand (var_ref "x")
            (CallCommand (VStr "putint") (var_ref "x"))
            (AssignCommand (mkVname (VStr "x")) (IntegerExpression (VInt 0)))))
  in
  let c :=
    [(Lbl (mkLabel 0), ANone);
     (Op LOAD_FAST, AVal (VStr "x"));
     (Op POP_JUMP_IF_FALSE, ALabel (mkLabel 1));
     (Op LOAD_FAST, AVal (VStr "x"));
     (Op POP_JUMP_IF_FALSE, ALabel (mkLabel 3));
     (Op LOAD_FAST, AVal (VStr "x"));
     (Op PRINT_ITEM, ANone); (Op PRINT_NEWLINE, ANone);
     (Op LOAD_CONST, AVal (VInt 0));
     (Op JUMP_ABSOLUTE, ALabel (mkLabel 4));
     (Lbl (mkLabel 3), ANone);
     (Op LOAD_CONST, AVal (VInt 0));
     (Op STORE_FAST, AVal (VStr "x"));
     (Lbl (mkLabel 4), ANone);
     (Op JUMP_ABSOLUTE, ALabel (mkLabel 0));
     (Lbl (mkLabel 1), ANone);
     (Op RETURN_VALUE, ANone)] in
  generate tree = Ok c
  /\ forall l,
      (occurs l c = true -> count (is_def l) c = 1)
      /\ (forall i, In i c -> is_jump_to l i = true ->
          exists d, In d c /\ is_def l d = true)
      /\ (forall d, In d c -> is_def l d = true ->
          exists i, In i c /\ is_jump_to l i = true).
Proof.
  intros tree c. split; [reflexivity |].
  apply (generate_label_discipline tree c). reflexivity.
Defined.

(** * Calls of the builtins *)

(** C6 as stated fails: after the print instructions one more
    instruction is emitted. *)
Lemma putint_emits_more_than_print :
  ~ putint_emits print_builtin (IntegerExpression (VInt 1)) codegen.init.
Proof.
  intros (ce & He & Hc). vm_compute in He, Hc.
  injection He as <-. discriminate Hc.
Qed.

(** C6, amended: [putint(e)] with [e] a literal or a bare variable emits
    the instructions of [e], the two print instructions, then
    load-constant 0, and nothing else. *)
Theorem putint_emits_print_then_zero (e : Expression) (self : CodeGen) :
  is_literal_or_variable e = true ->
  putint_emits (print_builtin ++ [(Op LOAD_CONST, AVal (VInt 0))]) e self.
Proof.
  intro He. destruct e as [v | v | e1 op e2]; try discriminate He.
  - exists [(Op LOAD_CONST, AVal v)]. split; [reflexivity |].
    unfold gen_callcommand, bind, append; cbn. rewrite <- !app_assoc.
    reflexivity.
  - exists [(Op LOAD_FAST, AVal (identifier v))]. split; [reflexivity |].
    unfold gen_callcommand, bind, append; cbn. rewrite <- !app_assoc.
    reflexivity.
Qed.

Lemma putint_emits_print_then_zero_witness :
  is_literal_or_variable (var_ref "x") = true
  /\ putint_emits (print_builtin ++ [(Op LOAD_CONST, AVal (VInt 0))])
       (var_ref "x") codegen.init.
Proof.
  split; [reflexivity |].
  apply (putint_emits_print_then_zero (var_ref "x") codegen.init).
  reflexivity.
Defined.

(** C7: [putint] of anything but a literal or a bare variable raises a
    [CodeGenError] carrying the argument; [putint(1+2)] parses and is
    then rejected by the generator. *)
Theorem putint_compound_rejected (e : Expression) :
  is_literal_or_variable e = false ->
  (forall self,
     gen_command (CallCommand (VStr "putint") e) self
       = Raise (CodeGenError (NExpression e)))
  /\ generate (mkProgram (CallCommand (VStr "putint") e))
       = Raise (CodeGenError (NExpression e))
  /\ forall k,
       let sum := BinaryExpression (IntegerExpression (VInt 1)) (VStr "+")
                    (IntegerExpression (VInt 2)) in
       scan_parse (40 + k) "putint(1+2)"
         = Ok (mkProgram (CallCommand (VStr "putint") sum))
       /\ compile (40 + k) "putint(1+2)"
         = Raise (GenExc (CodeGenError (NExpression sum))).
Proof.
  intro He. destruct e as [v | v | e1 op e2]; try discriminate He.
  split; [| split].
  - intro self. reflexivity.
  - reflexivity.
  - intros k sum. split.
    + apply scan_parse_reached; [vm_compute; reflexivity | discriminate].
    + apply compile_reached; [vm_compute; reflexivity | discriminate].
Qed.

Lemma putint_compound_rejected_witness :
  let e := BinaryExpression (var_ref "x") (VStr "*") (var_ref "y") in
  is_literal_or_variable e = false
  /\ generate (mkProgram (CallCommand (VStr "putint") e))
       = Raise (CodeGenError (NExpression e)).
Proof.
  intro e. split; [reflexivity |].
  apply (putint_compound_rejected e). reflexivity.
Defined.

(** C2: a call of an unknown name generates nothing and succeeds, and
    [getint] of a non-variable ends in an [AttributeError]; neither is a
    [CodeGenError]. *)
Theorem unknown_call_not_rejected : forall k,
  compile (40 + k) "foo(1)" = Ok [(Op RETURN_VALUE, ANone)]
  /\ compile (40 + k) "getint(1)" = Raise (GenExc AttributeError).
Proof.
  intro k. split;
    apply compile_reached; (vm_compute; reflexivity) || discriminate.
Qed.

(** Any call that is neither [getint] nor [putint] leaves the generator
    as it was. *)
Lemma gen_callcommand_other name e self :
  value_eqb name (VStr "getint") = false ->
  value_eqb name (VStr "putint") = false ->
  gen_callcommand name e self = Ok (tt, self).
Proof. intros H1 H2. unfold gen_callcommand. rewrite H1, H2. reflexivity. Qed.

(** * Whole programs *)

(** C8: [begin:=end] scans to four tokens, [:=] at offset 5, and the
    parse fails on that token: a [ParserError] at position 5 that found
    [TK_BECOMES]. *)
Theorem begin_becomes_end_rejected : forall k,
  scanAll (40 + k) "begin:=end"
    = Ok [Token.mk TK_BEGIN (VInt 0) 0; Token.mk TK_BECOMES (VInt 0) 5;
          Token.mk TK_END (VInt 0) 7; Token.mk TK_EOT (VInt 0) 10]
  /\ scan_parse (40 + k) "begin:=end"
    = Raise (ParseExc (ParserError 5 TK_BECOMES)).
Proof.
  intro k. split.
  - apply scanAll_reached; [vm_compute; reflexivity | discriminate].
  - apply scan_parse_reached; [vm_compute; reflexivity | discriminate].
Qed.

(** C9: [let var x: Integer in x := 3] compiles; the let command gives
    exactly load-constant 3 and store x, the declaration gives nothing,
    and the program ends with the one return. *)
Theorem let_var_assign_compiles : forall k,
  let decl := VarDeclaration (VStr "x") (mkTypeDenoter (VStr "Integer")) in
  let body := AssignCommand (mkVname (VStr "x")) (IntegerExpression (VInt 3)) in
  scan_parse (40 + k) "let var x: Integer in x := 3"
    = Ok (mkProgram (LetCommand decl body))
  /\ (forall self, gen_declaration decl self = Ok (tt, self))
  /\ gen_command (LetCommand decl body) codegen.init
    = Ok (tt, {| code := [(Op LOAD_CONST, AVal (VInt 3));
                          (Op STORE_FAST, AVal (VStr "x"))];
                 labels := 0 |})
  /\ compile (40 + k) "let var x: Integer in x := 3"
    = Ok [(Op LOAD_CONST, AVal (VInt 3)); (Op STORE_FAST, AVal (VStr "x"));
          (Op RETURN_VALUE, ANone)].
Proof.
  intros k decl body. split; [| split; [| split]].
  - apply scan_parse_reached; [vm_compute; reflexivity | discriminate].
  - intro self. reflexivity.
  - reflexivity.
  - apply compile_reached; [vm_compute; reflexivity | discriminate].
Qed.

(** C1: on [if 1=1 then putint(1) else putint(0)] the parse fails: the
    token after the then-branch, here [else], is taken whatever it is, and
    the [else] then expected is missing. *)
Theorem if_then_else_rejected : forall k,
  compile (40 + k) "if 1=1 then putint(1) else putint(0)"
    = Raise (ParseExc (ParserError 27 TK_IDENTIFIER)).
Proof.
  intro k. apply compile_reached; [vm_compute; reflexivity | discriminate].
Qed.

(** With one more token between the then-branch and [else], the same
    program compiles to the layout of a conditional. *)
Lemma if_then_semicolon_else_compiles : forall k,
  compile (40 + k) "if 1=1 then putint(1); else putint(0)"
    = Ok ([(Op LOAD_CONST, AVal (VInt 1)); (Op LOAD_CONST, AVal (VInt 1));
           (Op COMPARE_OP, AVal (VStr "=="));
           (Op POP_JUMP_IF_FALSE, ALabel (mkLabel 0))]
          ++ [(Op LOAD_CONST, AVal (VInt 1))] ++ print_builtin
          ++ [(Op LOAD_CONST, AVal (VInt 0))]
          ++ [(Op JUMP_ABSOLUTE, ALabel (mkLabel 1));
              (Lbl (mkLabel 0), ANone)]
          ++ [(Op LOAD_CONST, AVal (VInt 0))] ++ print_builtin
          ++ [(Op LOAD_CONST, AVal (VInt 0))]
          ++ [(Lbl (mkLabel 1), ANone); (Op RETURN_VALUE, ANone)]).
Proof.
  intro k. apply compile_reached; [vm_compute; reflexivity | discriminate].
Qed.

(** * The generator as a function of the tree *)

Module lowering.

Lemma grown_grown s a j b k :
  grown (grown s a j) b k = grown s (a ++ b) (j + k).
Proof.
  unfold grown; cbn. rewrite <- app_assoc, Nat.add_assoc. reflexivity.
Qed.

Lemma grown_nil s : grown s [] 0 = s.
Proof. destruct s. unfold grown; cbn. rewrite app_nil_r, Nat.add_0_r. reflexivity. Qed.

Lemma append_grown i s : append i s = Ok (tt, grown s [i] 0).
Proof. unfold append, grown. rewrite Nat.add_0_r. reflexivity. Qed.

Lemma new_label_grown s :
  new_label s = Ok (mkLabel (labels s), grown s [] 1).
Proof.
  unfold new_label, grown. rewrite app_nil_r, Nat.add_1_r. reflexivity.
Qed.

Lemma run_raise {S E A B} (m : M S E A) (k : A -> M S E B) s e :
  m s = Raise e -> bind m k s = Raise e.
Proof. unfold bind. intros ->. reflexivity. Qed.

(** The operator tests of [gen_binaryexpr] are the table. *)
Lemma gen_operator oper s :
  (let op := oper in
   if value_eqb op (VStr "+") then append (Op BINARY_ADD, ANone)
   else if value_eqb op (VStr "-") then append (Op BINARY_SUBTRACT, ANone)
   else if value_eqb op (VStr "*") then append (Op BINARY_MULTIPLY, ANone)
   else if value_eqb op (VStr "/") then append (Op BINARY_DIVIDE, ANone)
   else if value_eqb op (VStr ">") then
     append (Op COMPARE_OP, AVal (VStr ">"))
   else if value_eqb op (VStr "<") then
     append (Op COMPARE_OP, AVal (VStr "<"))
   else if value_eqb op (VStr "=") then
     append (Op COMPARE_OP, AVal (VStr "=="))
   else if value_eqb op (VStr "\") then append (Op BINARY_MODULO, ANone)
   else raise (CodeGenError (NOper op))) s
  = match operator_instr oper with
    | Some i => Ok (tt, grown s [i] 0)
    | None => Raise (CodeGenError (NOper oper))
    end.
Proof.
  destruct oper as [z | o]; [reflexivity |].
  cbn [value_eqb operator_instr operator_table lookup].
  repeat match goal with
         | |- context [String.eqb o ?x] =>
             destruct (String.eqb o x); [apply append_grown |]
         end.
  reflexivity.
Qed.

Lemma gen_expr_code e : forall s,
  ops_ok e = true -> gen_expr e s = Ok (tt, grown s (expr_code e) 0).
Proof.
  induction e as [v | v | e1 IH1 oper e2 IH2]; intros s H.
  - apply append_grown.
  - apply append_grown.
  - cbn [ops_ok] in H.
    apply andb_true_iff in H. destruct H as [H Ho].
    apply andb_true_iff in H. destruct H as [H1 H2].
    cbn [gen_expr expr_code]. unfold gen_binaryexpr.
    rewrite (parser_facts.run_bind _ _ _ _ _ (IH1 s H1)).
    rewrite (parser_facts.run_bind _ _ _ _ _ (IH2 _ H2)).
    rewrite gen_operator.
    destruct (operator_instr oper) as [i |]; [| discriminate Ho].
    rewrite !grown_grown. reflexivity.
Qed.

Lemma gen_expr_fails e : forall s,
  ops_ok e = false -> exists v, gen_expr e s = Raise (CodeGenError (NOper v)).
Proof.
  induction e as [v | v | e1 IH1 oper e2 IH2]; intros s H;
    try discriminate H.
  cbn [ops_ok] in H. cbn [gen_expr]. unfold gen_binaryexpr.
  destruct (ops_ok e1) eqn:H1.
  - rewrite (parser_facts.run_bind _ _ _ _ _ (gen_expr_code e1 s H1)).
    destruct (ops_ok e2) eqn:H2.
    + rewrite (parser_facts.run_bind _ _ _ _ _ (gen_expr_code e2 _ H2)).
      rewrite gen_operator.
      destruct (operator_instr oper); [discriminate H |].
      exists oper. reflexivity.
    + destruct (IH2 (grown s (expr_code e1) 0) eq_refl) as (v & Hv).
      exists v. apply run_raise. exact Hv.
  - destruct (IH1 s eq_refl) as (v & Hv).
    exists v. apply run_raise. exact Hv.
Qed.


Lemma gen_declaration_code d : forall s,
  decl_ok d = true -> gen_declaration d s = Ok (tt, grown s (decl_code d) 0).
Proof.
  induction d as [i e | i t | d1 IH1 d2 IH2]; intros s H.
  - cbn [gen_declaration decl_code]. unfold gen_constdecl.
    rewrite (parser_facts.run_bind _ _ _ _ _ (gen_expr_code e s H)).
    rewrite append_grown, grown_grown. reflexivity.
  - cbn. rewrite grown_nil. reflexivity.
  - cbn [decl_ok] in H. apply andb_true_iff in H. destruct H as [H1 H2].
    cbn [gen_declaration decl_code].
    rewrite (parser_facts.run_bind _ _ _ _ _ (IH1 s H1)).
    rewrite (IH2 _ H2), grown_grown. reflexivity.
Qed.

Lemma gen_declaration_fails d : forall s,
  decl_ok d = false ->
  exists v, gen_declaration d s = Raise (CodeGenError (NOper v)).
Proof.
  induction d as [i e | i t | d1 IH1 d2 IH2]; intros s H;
    try discriminate H.
  - cbn [gen_declaration]. unfold gen_constdecl.
    destruct (gen_expr_fails e s H) as (v & Hv).
    exists v. apply run_raise. exact Hv.
  - cbn [decl_ok] in H. cbn [gen_declaration].
    destruct (decl_ok d1) eqn:H1.
    + rewrite (parser_facts.run_bind _ _ _ _ _ (gen_declaration_code d1 s H1)).
      apply IH2. exact H.
    + destruct (IH1 s eq_refl) as (v & Hv).
      exists v. apply run_raise. exact Hv.
Qed.

Lemma gen_callcommand_code name e s :
  call_ok name e = true ->
  gen_callcommand name e s = Ok (tt, grown s (call_code name e) 0).
Proof.
  unfold call_ok, call_code, gen_callcommand. intro H.
  destruct (value_eqb name (VStr "getint")).
  - destruct e as [v | v | e1 o e2]; try discriminate H.
    rewrite (parser_facts.run_bind _ _ _ _ _ (append_grown _ _)).
    rewrite (parser_facts.run_bind _ _ _ _ _ (append_grown _ _)).
    cbn [variable_of]. unfold bind at 1, ret.
    rewrite append_grown, !grown_grown. reflexivity.
  - destruct (value_eqb name (VStr "putint")).
    + destruct e as [v | v | e1 o e2]; try discriminate H;
        cbn [expr_code];
        rewrite (parser_facts.run_bind _ _ _ _ _ (append_grown _ _));
        rewrite (parser_facts.run_bind _ _ _ _ _ (append_grown _ _));
        rewrite (parser_facts.run_bind _ _ _ _ _ (append_grown _ _));
        rewrite append_grown, !grown_grown; reflexivity.
    + cbn. rewrite grown_nil. reflexivity.
Qed.

(** A call the generator does not go through ends in the
    [AttributeError] of [getint] or in the [CodeGenError] of [putint] on
    its argument. *)
Lemma gen_callcommand_fails name e s :
  call_ok name e = false ->
  gen_callcommand name e s = Raise AttributeError
  \/ gen_callcommand name e s = Raise (CodeGenError (NExpression e)).
Proof.
  unfold call_ok, gen_callcommand. intro H.
  destruct (value_eqb name (VStr "getint")).
  - left. destruct e as [v | v | e1 o e2]; try discriminate H; reflexivity.
  - destruct (value_eqb name (VStr "putint")); [| discriminate H].
    right. destruct e as [v | v | e1 o e2]; try discriminate H. reflexivity.
Qed.

Lemma gen_command_code c : forall s,
  cmd_ok c = true ->
  gen_command c s = Ok (tt, grown s (cmd_code (labels s) c) (3 * constructs c)).
Proof.
  induction c as [v e | name e | c1 IH1 c2 IH2 | e c1 IH1 c2 IH2
                 | e c IH | d c IH]; intros s H; cbn [cmd_ok] in H.
  - cbn [gen_command cmd_code constructs]. unfold gen_assigncommand.
    rewrite (parser_facts.run_bind _ _ _ _ _ (gen_expr_code e s H)).
    rewrite append_grown, grown_grown. reflexivity.
  - apply gen_callcommand_code. exact H.
  - apply andb_true_iff in H. destruct H as [H1 H2].
    cbn [gen_command cmd_code constructs].
    rewrite (parser_facts.run_bind _ _ _ _ _ (IH1 s H1)).
    rewrite (IH2 _ H2), grown_grown. cbn [grown labels].
    repeat (f_equal; try lia).
  - apply andb_true_iff in H. destruct H as [H H2].
    apply andb_true_iff in H. destruct H as [He H1].
    cbn [gen_command cmd_code constructs]. unfold gen_ifcommand.
    rewrite (parser_facts.run_bind _ _ _ _ _ (new_label_grown _)).
    rewrite (parser_facts.run_bind _ _ _ _ _ (new_label_grown _)).
    rewrite (parser_facts.run_bind _ _ _ _ _ (new_label_grown _)).
    rewrite (parser_facts.run_bind _ _ _ _ _ (gen_expr_code e _ He)).
    rewrite (parser_facts.run_bind _ _ _ _ _ (append_grown _ _)).
    rewrite (parser_facts.run_bind _ _ _ _ _ (IH1 _ H1)).
    rewrite (parser_facts.run_bind _ _ _ _ _ (append_grown _ _)).
    rewrite (parser_facts.run_bind _ _ _ _ _ (append_grown _ _)).
    rewrite (parser_facts.run_bind _ _ _ _ _ (IH2 _ H2)).
    rewrite append_grown, !grown_grown. cbn [grown labels code app].
    repeat (f_equal; try lia).
  - apply andb_true_iff in H. destruct H as [He H1].
    cbn [gen_command cmd_code constructs]. unfold gen_whilecommand.
    rewrite (parser_facts.run_bind _ _ _ _ _ (new_label_grown _)).
    rewrite (parser_facts.run_bind _ _ _ _ _ (new_label_grown _)).
    rewrite (parser_facts.run_bind _ _ _ _ _ (new_label_grown _)).
    rewrite (parser_facts.run_bind _ _ _ _ _ (append_grown _ _)).
    rewrite (parser_facts.run_bind _ _ _ _ _ (gen_expr_code e _ He)).
    rewrite (parser_facts.run_bind _ _ _ _ _ (append_grown _ _)).
    rewrite (parser_facts.run_bind _ _ _ _ _ (IH _ H1)).
    rewrite (parser_facts.run_bind _ _ _ _ _ (append_grown _ _)).
    rewrite append_grown, !grown_grown. cbn [grown labels code app].
    repeat (f_equal; try lia).
  - apply andb_true_iff in H. destruct H as [Hd H1].
    cbn [gen_command cmd_code constructs].
    rewrite (parser_facts.run_bind _ _ _ _ _ (gen_declaration_code d s Hd)).
    rewrite (IH _ H1), grown_grown. cbn [grown labels].
    repeat (f_equal; try lia).
Qed.

Lemma gen_command_fails c : forall s,
  cmd_ok c = false ->
  exists e, gen_command c s = Raise e /\ generation_error e.
Proof.
  assert (Hop : forall (m : G unit) s,
             (exists v, m s = Raise (CodeGenError (NOper v))) ->
             forall k : unit -> G unit,
               exists e, bind m k s = Raise e /\ generation_error e).
  { intros m s (v & Hv) k. exists (CodeGenError (NOper v)).
    split; [apply run_raise, Hv | right; left; eauto]. }
  assert (Hlift : forall (m : G unit) (k : unit -> G unit) s,
             (exists e, m s = Raise e /\ generation_error e) ->
             exists e, bind m k s = Raise e /\ generation_error e).
  { intros m k s (e & He & Hg). exists e.
    split; [apply run_raise, He | exact Hg]. }
  induction c as [v e | name e | c1 IH1 c2 IH2 | e c1 IH1 c2 IH2
                 | e c IH | d c IH]; intros s H; cbn [cmd_ok] in H.
  - cbn [gen_command]. unfold gen_assigncommand.
    apply Hop, gen_expr_fails, H.
  - cbn [gen_command].
    destruct (gen_callcommand_fails name e s H) as [-> | ->];
      eexists; split; try reflexivity.
    + left; reflexivity.
    + right; right; eauto.
  - cbn [gen_command]. destruct (cmd_ok c1) eqn:H1.
    + rewrite (parser_facts.run_bind _ _ _ _ _ (gen_command_code c1 s H1)).
      apply IH2, H.
    + apply Hlift, IH1. reflexivity.
  - cbn [gen_command]. unfold gen_ifcommand.
    rewrite (parser_facts.run_bind _ _ _ _ _ (new_label_grown _)).
    rewrite (parser_facts.run_bind _ _ _ _ _ (new_label_grown _)).
    rewrite (parser_facts.run_bind _ _ _ _ _ (new_label_grown _)).
    destruct (ops_ok e) eqn:He; [| apply Hop, gen_expr_fails, He].
    rewrite (parser_facts.run_bind _ _ _ _ _ (gen_expr_code e _ He)).
    rewrite (parser_facts.run_bind _ _ _ _ _ (append_grown _ _)).
    destruct (cmd_ok c1) eqn:H1; [| apply Hlift, IH1; reflexivity].
    rewrite (parser_facts.run_bind _ _ _ _ _ (gen_command_code c1 _ H1)).
    rewrite (parser_facts.run_bind _ _ _ _ _ (append_grown _ _)).
    rewrite (parser_facts.run_bind _ _ _ _ _ (append_grown _ _)).
    apply Hlift, IH2, H.
  - cbn [gen_command]. unfold gen_whilecommand.
    rewrite (parser_facts.run_bind _ _ _ _ _ (new_label_grown _)).
    rewrite (parser_facts.run_bind _ _ _ _ _ (new_label_grown _)).
    rewrite (parser_facts.run_bind _ _ _ _ _ (new_label_grown _)).
    rewrite (parser_facts.run_bind _ _ _ _ _ (append_grown _ _)).
    destruct (ops_ok e) eqn:He; [| apply Hop, gen_expr_fails, He].
    rewrite (parser_facts.run_bind _ _ _ _ _ (gen_expr_code e _ He)).
    rewrite (parser_facts.run_bind _ _ _ _ _ (append_grown _ _)).
    apply Hlift, IH, H.
  - cbn [gen_command]. destruct (decl_ok d) eqn:Hd.
    + rewrite (parser_facts.run_bind _ _ _ _ _ (gen_declaration_code d s Hd)).
      apply IH, H.
    + apply Hop, gen_declaration_fails, Hd.
Qed.

Lemma generate_code c :
  cmd_ok c = true ->
  generate (mkProgram c) = Ok (cmd_code 0 c ++ [(Op RETURN_VALUE, ANone)]).
Proof.
  intro H. unfold generate. cbn [command].
  rewrite (parser_facts.run_bind _ _ _ _ _ (gen_command_code c codegen.init H)).
  rewrite (parser_facts.run_bind _ _ _ _ _ (append_grown _ _)).
  reflexivity.
Qed.

Lemma generate_fails c :
  cmd_ok c = false ->
  exists e, generate (mkProgram c) = Raise e /\ generation_error e.
Proof.
  intro H. unfold generate. cbn [command].
  destruct (gen_command_fails c codegen.init H) as (e & He & Hg).
  exists e. split; [| exact Hg].
  rewrite (run_raise _ _ _ _ He). reflexivity.
Qed.


(** *** What the code contains *)

Lemma operator_instr_plain oper i :
  operator_instr oper = Some i -> no_label i = true /\ is_return i = false.
Proof.
  destruct oper as [z | o]; [discriminate |].
  cbn [operator_instr operator_table lookup].
  repeat match goal with
         | |- context [String.eqb o ?x] =>
             destruct (String.eqb o x);
               [intro H; injection H as <-; split; reflexivity |]
         end.
  discriminate.
Qed.

Lemma straight_app a b : straight a -> straight b -> straight (a ++ b).
Proof. apply Forall_app_2 || (intros; apply Forall_app; auto). Qed.

Lemma expr_code_straight e : straight (expr_code e).
Proof.
  induction e as [v | v | e1 IH1 oper e2 IH2]; cbn [expr_code].
  - repeat constructor.
  - repeat constructor.
  - apply straight_app; [exact IH1 |]. apply straight_app; [exact IH2 |].
    destruct (operator_instr oper) as [i |] eqn:Hi; [| constructor].
    constructor; [| constructor]. apply (operator_instr_plain oper), Hi.
Qed.

Lemma decl_code_straight d : straight (decl_code d).
Proof.
  induction d as [i e | i t | d1 IH1 d2 IH2]; cbn [decl_code].
  - apply straight_app; [apply expr_code_straight | repeat constructor].
  - constructor.
  - apply straight_app; assumption.
Qed.

Lemma call_code_straight name e : straight (call_code name e).
Proof.
  unfold call_code.
  destruct (value_eqb name (VStr "getint")).
  - destruct e; repeat constructor.
  - destruct (value_eqb name (VStr "putint")); [| constructor].
    apply straight_app; [apply expr_code_straight | repeat constructor].
Qed.

Lemma straight_count p c :
  (forall i, no_label i = true -> is_return i = false -> p i = false) ->
  straight c -> count p c = 0.
Proof.
  intros Hp Hc. induction Hc as [| i c [Hi Hr] _ IH]; [reflexivity |].
  rewrite codegen_facts.count_cons, IH, (Hp i Hi Hr). reflexivity.
Qed.

Lemma straight_occurs l c : straight c -> occurs l c = false.
Proof.
  intro Hc. unfold occurs.
  induction Hc as [| i c [Hi _] _ IH]; [reflexivity |].
  cbn [existsb]. rewrite IH.
  rewrite (codegen_facts.no_label_def l i Hi),
    (codegen_facts.no_label_ref l i Hi). reflexivity.
Qed.

Lemma no_label_place i : no_label i = true -> is_place i = false.
Proof.
  destruct i as [[o | l'] [| v | l'']]; cbn; intro H;
    try discriminate H; reflexivity.
Qed.

Lemma no_label_is_jump i : no_label i = true -> is_jump i = false.
Proof.
  destruct i as [[o | l'] [| v | l'']]; cbn; intro H;
    try discriminate H; destruct o; reflexivity.
Qed.

Ltac count_straight :=
  rewrite ?codegen_facts.count_app, ?codegen_facts.count_cons,
    ?codegen_facts.count_nil;
  repeat match goal with
         | |- context [count ?p (expr_code ?e)] =>
             rewrite (straight_count p (expr_code e));
               [| auto using no_label_place, no_label_is_jump
                | apply expr_code_straight]
         | |- context [count ?p (decl_code ?d)] =>
             rewrite (straight_count p (decl_code d));
               [| auto using no_label_place, no_label_is_jump
                | apply decl_code_straight]
         | |- context [count ?p (call_code ?n ?e)] =>
             rewrite (straight_count p (call_code n e));
               [| auto using no_label_place, no_label_is_jump
                | apply call_code_straight]
         end.

Lemma cmd_code_counts c : forall n,
  count is_return (cmd_code n c) = 0
  /\ count is_place (cmd_code n c) = 2 * constructs c
  /\ count is_jump (cmd_code n c) = 2 * constructs c.
Proof.
  induction c as [v e | name e | c1 IH1 c2 IH2 | e c1 IH1 c2 IH2
                 | e c IH | d c IH]; intro n;
    cbn [cmd_code constructs]; count_straight;
    repeat match goal with
           | IH : forall n, count is_return (cmd_code n ?c) = 0 /\ _
             |- context [cmd_code ?m ?c] =>
               let A := fresh in let B := fresh in let C := fresh in
               destruct (IH m) as (A & B & C); rewrite ?A, ?B, ?C; clear IH
           end;
    cbn; repeat split; lia.
Qed.

Lemma occurs_app l a b : occurs l (a ++ b) = occurs l a || occurs l b.
Proof. unfold occurs. apply existsb_app. Qed.

Lemma occurs_cons l i c :
  occurs l (i :: c) = (is_def l i || is_ref l i) || occurs l c.
Proof. reflexivity. Qed.

Lemma occurs_nil l : occurs l [] = false.
Proof. reflexivity. Qed.

(** Where [l] can occur in a layout, as a list of cases. *)
Ltac occurs_cases H :=
  rewrite ?occurs_app, ?occurs_cons, ?occurs_nil in H;
  rewrite ?(straight_occurs _ _ (expr_code_straight _)),
    ?(straight_occurs _ _ (decl_code_straight _)),
    ?(straight_occurs _ _ (call_code_straight _ _)) in H;
  cbn [is_def is_ref fst snd] in H; unfold label_eqb in H;
  cbn [label_id orb] in H; rewrite ?orb_false_r in H;
  repeat rewrite orb_true_iff in H; rewrite ?Nat.eqb_eq in H.

(** A label of the code is the first or the second of the three labels
    of one of its constructs. *)
Lemma cmd_code_labels l c : forall n,
  occurs l (cmd_code n c) = true ->
  exists j k, label_id l = n + 3 * j + k /\ j < constructs c /\ k < 2.
Proof.
  induction c as [v e | name e | c1 IH1 c2 IH2 | e c1 IH1 c2 IH2
                 | e c IH | d c IH]; intros n H;
    cbn [cmd_code constructs] in *; occurs_cases H;
    try discriminate H.
  - destruct H as [H | H].
    + destruct (IH1 _ H) as (j & k & E & Hj & Hk).
      exists j, k. repeat split; lia.
    + destruct (IH2 _ H) as (j & k & E & Hj & Hk).
      exists (constructs c1 + j), k. repeat split; lia.
  - destruct H as [H | [H | [[H | H] | [H | H]]]].
    + exists 0, 0. repeat split; lia.
    + destruct (IH1 _ H) as (j & k & E & Hj & Hk).
      exists (1 + j), k. repeat split; lia.
    + exists 0, 1. repeat split; lia.
    + exists 0, 0. repeat split; lia.
    + destruct (IH2 _ H) as (j & k & E & Hj & Hk).
      exists (1 + constructs c1 + j), k. repeat split; lia.
    + exists 0, 1. repeat split; lia.
  - destruct H as [H | [H | [H | [H | H]]]].
    + exists 0, 0. repeat split; lia.
    + exists 0, 1. repeat split; lia.
    + destruct (IH _ H) as (j & k & E & Hj & Hk).
      exists (1 + j), k. repeat split; lia.
    + exists 0, 0. repeat split; lia.
    + exists 0, 1. repeat split; lia.
  - apply IH, H.
Qed.

End lowering.

(** X1: an expression whose operators are all among the eight is lowered
    in post-order: the code of the left operand, of the right operand,
    then the operator, one instruction per node, appended to the code
    with the label counter untouched. *)
Theorem gen_expr_postorder (e : Expression) (s : CodeGen) :
  ops_ok e = true ->
  gen_expr e s
    = Ok (tt, {| code := code s ++ expr_code e; labels := labels s |})
  /\ length (expr_code e) = expr_size e.
Proof.
  intro H. split.
  - rewrite (lowering.gen_expr_code e s H). unfold grown.
    rewrite Nat.add_0_r. reflexivity.
  - induction e as [v | v | e1 IH1 oper e2 IH2]; try reflexivity.
    cbn [ops_ok] in H.
    apply andb_true_iff in H. destruct H as [H Ho].
    apply andb_true_iff in H. destruct H as [H1 H2].
    cbn [expr_code expr_size]. rewrite !length_app, IH1, IH2 by assumption.
    destruct (operator_instr oper); [cbn; lia | discriminate Ho].
Qed.

Lemma gen_expr_postorder_witness :
  let e := BinaryExpression (var_ref "a") (VStr "-")
             (BinaryExpression (var_ref "b") (VStr "\") (var_ref "c")) in
  ops_ok e = true
  /\ gen_expr e codegen.init
     = Ok (tt, {| code := [(Op LOAD_FAST, AVal (VStr "a"));
                           (Op LOAD_FAST, AVal (VStr "b"));
                           (Op LOAD_FAST, AVal (VStr "c"));
                           (Op BINARY_MODULO, ANone);
                           (Op BINARY_SUBTRACT, ANone)];
                  labels := 0 |}).
Proof.
  intro e. split; [reflexivity |].
  apply (proj1 (gen_expr_postorder e codegen.init eq_refl)).
Defined.

(** X2: a command the generator goes through only appends to the code:
    what was there stays, the appended code depends on the label counter
    alone, and three labels are allocated for every conditional and every
    loop. *)
Theorem gen_command_appends (c : Command) (s : CodeGen) :
  cmd_ok c = true ->
  gen_command c s
  = Ok (tt, {| code := code s ++ cmd_code (labels s) c;
               labels := labels s + 3 * constructs c |}).
Proof. intro H. apply (lowering.gen_command_code c s H). Qed.

Lemma gen_command_appends_witness :
  cmd_ok sample_command = true
  /\ gen_command sample_command
       {| code := [(Op LOAD_CONST, AVal (VInt 7))]; labels := 3 |}
     = Ok (tt, {| code := [(Op LOAD_CONST, AVal (VInt 7))]
                          ++ cmd_code 3 sample_command;
                  labels := 9 |}).
Proof.
  split; [reflexivity |].
  apply (gen_command_appends sample_command
           {| code := [(Op LOAD_CONST, AVal (VInt 7))]; labels := 3 |}).
  reflexivity.
Defined.


(** X4: the code of a program returns once, at its end. *)
Theorem generate_returns_once (tree : Program) (c : list instr) :
  generate tree = Ok c ->
  exists body,
    c = body ++ [(Op RETURN_VALUE, ANone)] /\ count is_return body = 0.
Proof.
  destruct tree as [cmd]. intro H.
  destruct (cmd_ok cmd) eqn:Hok.
  - rewrite (lowering.generate_code cmd Hok) in H. injection H as <-.
    exists (cmd_code 0 cmd). split; [reflexivity |].
    apply (lowering.cmd_code_counts cmd 0).
  - destruct (lowering.generate_fails cmd Hok) as (e & He & _).
    rewrite He in H. discriminate H.
Qed.

Lemma generate_returns_once_witness :
  exists c body,
    generate (mkProgram sample_command) = Ok c
    /\ c = body ++ [(Op RETURN_VALUE, ANone)] /\ count is_return body = 0.
Proof.
  exists (cmd_code 0 sample_command ++ [(Op RETURN_VALUE, ANone)]).
  destruct (generate_returns_once (mkProgram sample_command)
              (cmd_code 0 sample_command ++ [(Op RETURN_VALUE, ANone)])
              eq_refl) as (body & Hc & Hr).
  exists body. split; [reflexivity | split; assumption].
Defined.

(** X5: of the three labels allocated for a conditional or a loop, two
    are placed and jumped to and the third occurs nowhere: the code has
    two label entries and two jumps per construct, and a label in it has a
    number below three times the constructs, never the last of a
    triple. *)
Theorem generate_uses_two_labels_of_three (tree : Program) (c : list instr) :
  generate tree = Ok c ->
  count is_place c = 2 * constructs (command tree)
  /\ count is_jump c = 2 * constructs (command tree)
  /\ forall l, occurs l c = true ->
       label_id l < 3 * constructs (command tree)
       /\ label_id l mod 3 <> 2.
Proof.
  destruct tree as [cmd]. cbn [command]. intro H.
  destruct (cmd_ok cmd) eqn:Hok.
  - rewrite (lowering.generate_code cmd Hok) in H. injection H as <-.
    destruct (lowering.cmd_code_counts cmd 0) as (_ & Hp & Hj).
    rewrite !codegen_facts.count_app, Hp, Hj.
    rewrite !codegen_facts.count_cons, !codegen_facts.count_nil.
    cbn [is_place is_jump fst].
    split; [lia | split; [lia |]].
    intros l Hl. rewrite lowering.occurs_app in Hl.
    apply orb_true_iff in Hl. destruct Hl as [Hl | Hl]; [| discriminate Hl].
    destruct (lowering.cmd_code_labels l cmd 0 Hl) as (j & k & E & Hj' & Hk).
    split; [lia |].
    replace (label_id l) with (k + j * 3) by lia.
    rewrite Nat.Div0.mod_add, Nat.mod_small; lia.
  - destruct (lowering.generate_fails cmd Hok) as (e & He & _).
    rewrite He in H. discriminate H.
Qed.

Lemma generate_uses_two_labels_of_three_witness :
  let c := cmd_code 0 sample_command ++ [(Op RETURN_VALUE, ANone)] in
  generate (mkProgram sample_command) = Ok c
  /\ count is_place c = 4 /\ count is_jump c = 4.
Proof.
  intro c. split; [reflexivity |].
  destruct (generate_uses_two_labels_of_three (mkProgram sample_command) c
              eq_refl) as (Hp & Hj & _).
  split; assumption.
Defined.

(** * The parser on any token list *)

Module parser_total.
Import parser_facts.

Section Tokens.
Variable tokens0 : list Token.
Hypothesis Hend : ends_with_EOT tokens0.

Lemma index_in_range i t : nth_error tokens0 i = Some t -> i < length tokens0.
Proof. intro H. apply nth_error_Some. congruence. Qed.

(** A token that is not the end of text is not the last one. *)
Lemma next_exists i t :
  nth_error tokens0 i = Some t -> Token.type t <> TK_EOT ->
  exists t', nth_error tokens0 (S i) = Some t'.
Proof using Hend.
  intros Hi Ht. destruct Hend as (front & last & E & Hl).
  assert (Hr := index_in_range i t Hi).
  rewrite E, length_app in Hr. cbn in Hr.
  assert (i <> length front).
  { intro Heq. subst i. rewrite E in Hi.
    rewrite nth_error_app2, Nat.sub_diag in Hi by lia.
    injection Hi as <-. contradiction. }
  destruct (nth_error tokens0 (S i)) as [t' |] eqn:Hn; [eauto |].
  apply nth_error_None in Hn. rewrite E, length_app in Hn. cbn in Hn. lia.
Qed.

Lemma parses_ret {A} (a : A) i (post : A -> nat -> Prop) :
  post a i -> parses tokens0 (ret a) i post.
Proof. intros H s Ht <- Hc. cbn. auto. Qed.

Lemma parses_bind {A B} (m : P A) (k : A -> P B) i
  (mid : A -> nat -> Prop) (post : B -> nat -> Prop) :
  parses tokens0 m i mid ->
  (forall a j, i <= j -> mid a j ->
     parses tokens0 (k a) j (fun b j' => i <= j' -> post b j')) ->
  parses tokens0 (bind m k) i post.
Proof.
  intros Hm Hk s Ht Hi Hc. unfold bind.
  specialize (Hm s Ht Hi Hc).
  destruct (m s) as [[a s1] | e |]; auto.
  destruct Hm as (Ht1 & Hc1 & Hle & Hmid).
  specialize (Hk a (curindex s1) Hle Hmid s1 Ht1 eq_refl Hc1).
  destruct (k a s1) as [[b s'] | e |]; auto.
  destruct Hk as (Ht' & Hc' & Hle' & Hpost).
  repeat split; auto; try lia. apply Hpost. lia.
Qed.

Lemma parses_post {A} (m : P A) i (post post' : A -> nat -> Prop) :
  parses tokens0 m i post ->
  (forall a j, i <= j -> post a j -> post' a j) ->
  parses tokens0 m i post'.
Proof.
  intros Hm H s Ht Hi Hc. specialize (Hm s Ht Hi Hc).
  destruct (m s) as [[a s'] | e |]; auto.
  destruct Hm as (Ht' & Hc' & Hle & Hp). auto.
Qed.

Lemma token_current_parses i :
  parses tokens0 token_current i
    (fun t j => j = i /\ nth_error tokens0 i = Some t).
Proof. intros s Ht <- Hc. cbn. auto. Qed.

Lemma bad_token_parses {A} i (post : A -> nat -> Prop) :
  parses tokens0 bad_token i post.
Proof.
  intros s Ht Hi Hc. cbn. exists (curtoken s).
  split; [| auto]. eapply nth_error_In. exact Hc.
Qed.

(** Taking a token: one step on, or none at the end of text. *)
Lemma token_accept_any_parses i :
  parses tokens0 token_accept_any i
    (fun _ j => forall t, nth_error tokens0 i = Some t ->
                j = if token_type_eqb (Token.type t) TK_EOT then i else S i).
Proof using Hend.
  intros s Ht Hi Hc. unfold token_accept_any.
  destruct (token_type_eqb (Token.type (curtoken s)) TK_EOT) eqn:He;
    cbn [negb].
  - split; [exact Ht | split; [rewrite Hi; exact Hc | split; [lia |]]].
    intros t Hn. rewrite Hi. rewrite Hn in Hc. injection Hc as ->.
    rewrite He. reflexivity.
  - assert (Hne : Token.type (curtoken s) <> TK_EOT).
    { intro Heq. rewrite Heq in He. discriminate He. }
    destruct (next_exists i _ Hc Hne) as (t' & Hn).
    rewrite Ht, Hi, Hn. cbn [tokens curindex curtoken].
    split; [reflexivity | split; [exact Hn | split; [lia |]]].
    intros t Hn'. rewrite Hn' in Hc. injection Hc as ->.
    rewrite He. reflexivity.
Qed.

Lemma token_accept_any_step i t :
  nth_error tokens0 i = Some t -> Token.type t <> TK_EOT ->
  parses tokens0 token_accept_any i (fun _ j => j = S i).
Proof using Hend.
  intros Hn Ht. apply (parses_post _ _ _ _ (token_accept_any_parses i)).
  intros _ j _ H. rewrite (H t Hn), (token_type_eqb_neq _ _ Ht). reflexivity.
Qed.

Lemma token_accept_parses type i :
  type <> TK_EOT ->
  parses tokens0 (token_accept type) i (fun _ j => j = S i).
Proof using Hend.
  intro Hty. unfold token_accept.
  eapply parses_bind; [apply token_current_parses |].
  intros t j _ (-> & Hn).
  destruct (token_type_eqb (Token.type t) type) eqn:He; cbn [negb].
  - apply (parses_post _ _ _ _ (token_accept_any_step i t Hn
             ltac:(destruct (Token.type t), type; try discriminate He; congruence))).
    auto.
  - apply bad_token_parses.
Qed.

Lemma token_accept_EOT_parses i :
  parses tokens0 (token_accept TK_EOT) i (fun _ j => True).
Proof using Hend.
  unfold token_accept.
  eapply parses_bind; [apply token_current_parses |].
  intros t j _ (-> & Hn).
  destruct (token_type_eqb (Token.type t) TK_EOT) eqn:He; cbn [negb].
  - apply (parses_post _ _ _ _ (token_accept_any_parses i)). auto.
  - apply bad_token_parses.
Qed.

(** An operator the parser loops on is an operator of the table. *)
Lemma is_oper_lowered t opers :
  is_oper t opers = true ->
  forallb (fun o => match lookup o operator_table with
                    | Some _ => true
                    | None => false
                    end) opers = true ->
  match operator_instr (Token.val t) with Some _ => true | None => false end
  = true.
Proof.
  unfold is_oper, value_in. intros H Hall.
  apply andb_true_iff in H. destruct H as [_ H].
  apply existsb_exists in H. destruct H as (o & Hin & Ho).
  rewrite forallb_forall in Hall. specialize (Hall o Hin).
  destruct (Token.val t) as [z | s]; [discriminate Ho |].
  cbn [value_eqb] in Ho. apply String.eqb_eq in Ho. subst s. exact Hall.
Qed.

Section Expressions.
Variable p : P Expression.
Variable F : nat.
Hypothesis Hp : forall i, length tokens0 - i < F -> parses tokens0 p i (Qe i).

Lemma parse_priexpr_parses i :
  length tokens0 - i <= F -> parses tokens0 (parse_priexpr p) i (Qe i).
Proof using Hend Hp.
  intro Hf. unfold parse_priexpr.
  eapply parses_bind; [apply token_current_parses |].
  intros t j _ (-> & Hn). assert (Hr := index_in_range i t Hn).
  destruct (Token.type t) eqn:Hty; try apply bad_token_parses.
  - eapply parses_bind;
      [apply (token_accept_any_step i t Hn); rewrite Hty; discriminate |].
    intros _ j _ ->. apply parses_ret. intros _. split; [lia | reflexivity].
  - eapply parses_bind;
      [apply (token_accept_any_step i t Hn); rewrite Hty; discriminate |].
    intros _ j _ ->. apply parses_ret. intros _. split; [lia | reflexivity].
  - eapply parses_bind;
      [apply (token_accept_any_step i t Hn); rewrite Hty; discriminate |].
    intros _ j _ ->.
    eapply parses_bind; [apply Hp; lia |].
    intros e j _ (Hj & He).
    eapply parses_bind; [apply token_accept_parses; discriminate |].
    intros _ j' _ ->. apply parses_ret. intros _. split; [lia | exact He].
Qed.

(** The three loops share their shape: [operand] parses an operand,
    [opers] are the operators looped on. *)
Section Loop.
Variable opers : list string.
Variable operand : nat -> P Expression.
Variable loop : nat -> Expression -> Token -> P Expression.
Hypothesis loop_S : forall fuel e1 token,
  loop (S fuel) e1 token
  = if is_oper token opers then
      token_accept_any ;;
      e2 <- operand fuel ;;
      token' <- token_current ;;
      loop fuel (BinaryExpression e1 (Token.val token) e2) token'
    else ret e1.
Hypothesis opers_lowered :
  forallb (fun o => match lookup o operator_table with
                    | Some _ => true
                    | None => false
                    end) opers = true.
Hypothesis operand_parses : forall g i,
  g <= F -> length tokens0 - i <= g -> parses tokens0 (operand g) i (Qe i).

Lemma loop_parses g : forall i e1 t,
  S g <= F -> length tokens0 - i <= S g ->
  nth_error tokens0 i = Some t -> ops_ok e1 = true ->
  parses tokens0 (loop (S g) e1 t) i (fun e _ => ops_ok e = true).
Proof using Hend loop_S opers_lowered operand_parses.
  induction g as [| g IH]; intros i e1 t HF Hf Hn He1; rewrite loop_S;
    assert (Hr := index_in_range i t Hn).
  - destruct (is_oper t opers) eqn:Ho; [| apply parses_ret; exact He1].
    eapply parses_bind;
      [apply (token_accept_any_step i t Hn),
         (chain_facts.is_oper_not_EOT _ _ Ho) |].
    intros _ j _ ->.
    intros s Ht Hi Hc. apply index_in_range in Hc. lia.
  - destruct (is_oper t opers) eqn:Ho; [| apply parses_ret; exact He1].
    eapply parses_bind;
      [apply (token_accept_any_step i t Hn),
         (chain_facts.is_oper_not_EOT _ _ Ho) |].
    intros _ j _ ->.
    eapply parses_bind; [apply operand_parses; lia |].
    intros e2 j _ (Hj & He2).
    eapply parses_bind; [apply token_current_parses |].
    intros t' j' _ (-> & Hn').
    eapply parses_post; [apply IH; try lia; [exact Hn' |] |].
    + cbn [ops_ok]. rewrite He1, He2. cbn [andb].
      apply (is_oper_lowered t opers Ho opers_lowered).
    + auto.
Qed.

Lemma tier_parses g i :
  S g <= F -> length tokens0 - i <= S g ->
  parses tokens0
    (e1 <- operand (S g) ;; token <- token_current ;; loop (S g) e1 token)
    i (Qe i).
Proof using Hend loop_S opers_lowered operand_parses.
  intros HF Hf.
  eapply parses_bind; [apply operand_parses; lia |].
  intros e1 j _ (Hj & He1).
  eapply parses_bind; [apply token_current_parses |].
  intros t j' _ (-> & Hn).
  eapply parses_post; [apply loop_parses; try lia; eassumption |].
  intros e j' Hle He _. split; [lia | exact He].
Qed.

End Loop.

(** No valid cursor is left when the fuel bound is zero. *)
Lemma parses_vacuous {A} (m : P A) i (post : A -> nat -> Prop) :
  length tokens0 - i <= 0 -> parses tokens0 m i post.
Proof. intros Hf s Ht Hi Hc. apply index_in_range in Hc. lia. Qed.

Lemma parse_tertexpr_parses g i :
  g <= F -> length tokens0 - i <= g -> parses tokens0 (parse_tertexpr p g) i (Qe i).
Proof using Hend Hp.
  intros HF Hf. destruct g as [| g]; [apply parses_vacuous, Hf |].
  apply (tier_parses ["*"; "/"; "\"] (fun _ => parse_priexpr p)
           (parse_tertexpr_loop p)); auto.
  intros g' i' HF' Hf'. apply parse_priexpr_parses. lia.
Qed.

Lemma parse_secexpr_parses g i :
  g <= F -> length tokens0 - i <= g -> parses tokens0 (parse_secexpr p g) i (Qe i).
Proof using Hend Hp.
  intros HF Hf. destruct g as [| g]; [apply parses_vacuous, Hf |].
  apply (tier_parses ["+"; "-"] (parse_tertexpr p) (parse_secexpr_loop p));
    auto using parse_tertexpr_parses.
Qed.

Lemma parse_expr_body_parses g i :
  g <= F -> length tokens0 - i <= g -> parses tokens0 (parse_expr_body p g) i (Qe i).
Proof using Hend Hp.
  intros HF Hf. destruct g as [| g]; [apply parses_vacuous, Hf |].
  apply (tier_parses [">"; "<"; "="] (parse_secexpr p) (parse_expr_loop p));
    auto using parse_secexpr_parses.
Qed.

End Expressions.

Lemma parse_expr_parses fuel : forall i,
  length tokens0 - i < fuel -> parses tokens0 (parse_expr fuel) i (Qe i).
Proof using Hend.
  induction fuel as [| fuel IH]; intros i Hf; [lia |].
  cbn [parse_expr].
  apply (parse_expr_body_parses (parse_expr fuel) fuel IH); lia.
Qed.

(** *** Declarations *)

Lemma parse_const_parses fuel i :
  length tokens0 - i <= fuel -> parses tokens0 (parse_const fuel) i (Qd i).
Proof using Hend.
  intro Hf. unfold parse_const.
  eapply parses_bind; [apply token_current_parses |].
  intros t j _ (-> & Hn). assert (Hr := index_in_range i t Hn).
  destruct (token_type_eqb (Token.type t) TK_IDENTIFIER) eqn:Hty;
    [| apply bad_token_parses].
  eapply parses_bind.
  { apply (token_accept_any_step i t Hn). intro Heq. rewrite Heq in Hty.
    discriminate Hty. }
  intros _ j _ ->.
  eapply parses_bind; [apply token_accept_parses; discriminate |].
  intros _ j _ ->.
  eapply parses_bind; [apply parse_expr_parses; lia |].
  intros e j _ (Hj & He). apply parses_ret. intros _.
  split; [lia | split; [exact He | reflexivity]].
Qed.

Lemma parse_var_parses i : parses tokens0 parse_var i (Qd i).
Proof using Hend.
  unfold parse_var.
  eapply parses_bind; [apply token_current_parses |].
  intros t j _ (-> & Hn).
  destruct (token_type_eqb (Token.type t) TK_IDENTIFIER) eqn:Hty;
    [| apply bad_token_parses].
  eapply parses_bind.
  { apply (token_accept_any_step i t Hn). intro Heq. rewrite Heq in Hty.
    discriminate Hty. }
  intros _ j _ ->.
  eapply parses_bind; [apply token_accept_parses; discriminate |].
  intros _ j _ ->.
  eapply parses_bind; [apply token_current_parses |].
  intros t' j _ (-> & Hn'). apply parses_ret. intros _.
  split; [lia | split; reflexivity].
Qed.

Lemma parse_declaration_parses fuel i :
  length tokens0 - i <= fuel -> parses tokens0 (parse_declaration fuel) i (Qd i).
Proof using Hend.
  intro Hf. unfold parse_declaration.
  eapply parses_bind; [apply token_current_parses |].
  intros t j _ (-> & Hn). assert (Hr := index_in_range i t Hn).
  destruct (Token.type t) eqn:Hty; try apply bad_token_parses.
  - eapply parses_bind;
      [apply (token_accept_any_step i t Hn); rewrite Hty; discriminate |].
    intros _ j _ ->.
    eapply parses_post; [apply parse_const_parses; lia |].
    intros d j _ (Hj & Hd) _. split; [lia | exact Hd].
  - eapply parses_bind;
      [apply (token_accept_any_step i t Hn); rewrite Hty; discriminate |].
    intros _ j _ ->.
    eapply parses_bind; [apply parse_var_parses |].
    intros d j _ (Hj & Hd).
    eapply parses_bind; [apply token_accept_any_parses |].
    intros _ j' Hle _. apply parses_ret. intros _.
    split; [lia | exact Hd].
Qed.

Lemma atomic_left_nested d : is_atomic_decl d = true -> left_nested d = true.
Proof. destruct d; [reflexivity | reflexivity | discriminate]. Qed.

(** *** Commands *)

Section Commands.
Variable p : P Command.
Variable F : nat.
Hypothesis Hp : forall i, length tokens0 - i < F -> parses tokens0 p i (Qc i).

Lemma parse_begin_loop_parses g : forall i c t,
  length tokens0 - i <= g -> g <= F ->
  nth_error tokens0 i = Some t ->
  cmd_ops c = true -> decls_left_nested c = true ->
  parses tokens0 (parse_begin_loop p g c t) i
    (fun c' _ => cmd_ops c' = true /\ decls_left_nested c' = true).
Proof using Hend Hp.
  induction g as [| g IH]; intros i c t Hf HF Hn Hc Hl;
    [apply parses_vacuous, Hf |].
  assert (Hr := index_in_range i t Hn). cbn [parse_begin_loop].
  destruct (token_type_eqb (Token.type t) TK_SEMICOLON) eqn:Hty;
    [| apply parses_ret; auto].
  eapply parses_bind.
  { apply (token_accept_any_step i t Hn). intro Heq. rewrite Heq in Hty.
    discriminate Hty. }
  intros _ j _ ->.
  eapply parses_bind; [apply token_current_parses |].
  intros t' j _ (-> & Hn').
  destruct (token_type_eqb (Token.type t') TK_END);
    [apply parses_ret; auto |].
  eapply parses_bind; [apply Hp; lia |].
  intros c2 j _ (Hj & Hc2 & Hl2).
  eapply parses_bind; [apply token_current_parses |].
  intros t2 j' _ (-> & Hn2).
  eapply parses_post; [apply IH; try lia; [exact Hn2 | |] |].
  - cbn [cmd_ops]. rewrite Hc, Hc2. reflexivity.
  - cbn [decls_left_nested]. rewrite Hl, Hl2. reflexivity.
  - auto.
Qed.

Lemma parse_begin_parses g i t :
  length tokens0 - i <= g -> g <= F ->
  nth_error tokens0 i = Some t -> Token.type t <> TK_EOT ->
  parses tokens0 (parse_begin p g) i (Qc i).
Proof using Hend Hp.
  intros Hf HF Hn Hty. assert (Hr := index_in_range i t Hn).
  unfold parse_begin.
  eapply parses_bind; [apply (token_accept_any_step i t Hn Hty) |].
  intros _ j _ ->.
  eapply parses_bind; [apply Hp; lia |].
  intros c j _ (Hj & Hc & Hl).
  eapply parses_bind; [apply token_current_parses |].
  intros t' j' _ (-> & Hn').
  eapply parses_bind;
    [apply parse_begin_loop_parses; try lia; eassumption |].
  intros c' j' Hle Hc'.
  eapply parses_bind; [apply token_accept_parses; discriminate |].
  intros _ j2 _ ->. apply parses_ret. intros _. split; [lia | exact Hc'].
Qed.

Lemma parse_identifier_parses g i t :
  length tokens0 - i <= g ->
  nth_error tokens0 i = Some t -> Token.type t <> TK_EOT ->
  parses tokens0 (parse_identifier g) i (Qc i).
Proof using Hend.
  intros Hf Hn Hty. assert (Hr := index_in_range i t Hn).
  unfold parse_identifier.
  eapply parses_bind; [apply token_current_parses |].
  intros t0 j _ (-> & Hn0).
  eapply parses_bind; [apply (token_accept_any_step i t Hn Hty) |].
  intros _ j _ ->.
  eapply parses_bind; [apply token_current_parses |].
  intros t1 j _ (-> & Hn1). assert (Hr1 := index_in_range _ t1 Hn1).
  destruct (Token.type t1) eqn:Hty1; try apply bad_token_parses.
  - eapply parses_bind;
      [apply (token_accept_any_step _ t1 Hn1); rewrite Hty1; discriminate |].
    intros _ j _ ->.
    eapply parses_bind; [apply parse_expr_parses; lia |].
    intros e j _ (Hj & He). apply parses_ret. intros _.
    split; [lia | split; [exact He | reflexivity]].
  - eapply parses_bind;
      [apply (token_accept_any_step _ t1 Hn1); rewrite Hty1; discriminate |].
    intros _ j _ ->.
    eapply parses_bind; [apply parse_expr_parses; lia |].
    intros e j _ (Hj & He).
    eapply parses_bind; [apply token_accept_parses; discriminate |].
    intros _ j' _ ->. apply parses_ret. intros _.
    split; [lia | split; [exact He | reflexivity]].
Qed.

Lemma parse_let_loop_parses g : forall i d t,
  length tokens0 - i <= g ->
  nth_error tokens0 i = Some t ->
  decl_ok d = true -> left_nested d = true ->
  parses tokens0 (parse_let_loop g d t) i
    (fun d' _ => decl_ok d' = true /\ left_nested d' = true).
Proof using Hend.
  induction g as [| g IH]; intros i d t Hf Hn Hd Hl;
    [apply parses_vacuous, Hf |].
  assert (Hr := index_in_range i t Hn). cbn [parse_let_loop].
  destruct (token_type_eqb (Token.type t) TK_SEMICOLON) eqn:Hty;
    [| apply parses_ret; auto].
  eapply parses_bind.
  { apply (token_accept_any_step i t Hn). intro Heq. rewrite Heq in Hty.
    discriminate Hty. }
  intros _ j _ ->.
  eapply parses_bind; [apply token_current_parses |].
  intros t' j _ (-> & Hn').
  destruct (token_type_eqb (Token.type t') TK_IN);
    [apply parses_ret; auto |].
  eapply parses_bind; [apply parse_declaration_parses; lia |].
  intros d2 j _ (Hj & Hd2 & Ha2).
  eapply parses_bind; [apply token_current_parses |].
  intros t2 j' _ (-> & Hn2).
  eapply parses_post; [apply IH; try lia; [exact Hn2 | |] |].
  - cbn [decl_ok]. rewrite Hd, Hd2. reflexivity.
  - cbn [left_nested]. rewrite Hl, Ha2. reflexivity.
  - auto.
Qed.

Lemma parse_let_parses g i t :
  length tokens0 - i <= g -> g <= F ->
  nth_error tokens0 i = Some t -> Token.type t <> TK_EOT ->
  parses tokens0 (parse_let p g) i (Qc i).
Proof using Hend Hp.
  intros Hf HF Hn Hty. assert (Hr := index_in_range i t Hn).
  unfold parse_let.
  eapply parses_bind; [apply (token_accept_any_step i t Hn Hty) |].
  intros _ j _ ->.
  eapply parses_bind; [apply parse_declaration_parses; lia |].
  intros d j _ (Hj & Hd & Ha).
  eapply parses_bind; [apply token_current_parses |].
  intros t' j' _ (-> & Hn').
  eapply parses_bind.
  { apply parse_let_loop_parses; try lia;
      [eassumption | exact Hd | apply atomic_left_nested, Ha]. }
  intros d' j' Hle (Hd' & Hl').
  eapply parses_bind; [apply token_accept_parses; discriminate |].
  intros _ j2 _ ->.
  eapply parses_bind; [apply Hp; lia |].
  intros c j3 _ (Hj3 & Hc & Hl). apply parses_ret. intros _.
  split; [lia |]. cbn [cmd_ops decls_left_nested].
  rewrite Hd', Hc, Hl', Hl. split; reflexivity.
Qed.

Lemma parse_command_body_parses g i :
  length tokens0 - i <= g -> g <= F -> parses tokens0 (parse_command_body p g) i (Qc i).
Proof using Hend Hp.
  intros Hf HF. unfold parse_command_body.
  eapply parses_bind; [apply token_current_parses |].
  intros t j _ (-> & Hn). assert (Hr := index_in_range i t Hn).
  destruct (Token.type t) eqn:Hty; try apply bad_token_parses.
  - eapply parses_post; [| intros c j _ H _; exact H].
    apply (parse_identifier_parses g i t); auto. rewrite Hty. discriminate.
  - eapply parses_post; [| intros c j _ H _; exact H].
    apply (parse_begin_parses g i t); auto. rewrite Hty. discriminate.
  - (* if *)
    eapply parses_bind; [apply token_accept_parses; discriminate |].
    intros _ j _ ->.
    eapply parses_bind; [apply parse_expr_parses; lia |].
    intros e j _ (Hj & He).
    eapply parses_bind; [apply token_accept_any_parses |].
    intros _ j1 Hle1 _.
    eapply parses_bind; [apply Hp; lia |].
    intros c1 j2 _ (Hj2 & Hc1 & Hl1).
    eapply parses_bind; [apply token_accept_any_parses |].
    intros _ j3 Hle3 _.
    eapply parses_bind; [apply token_accept_parses; discriminate |].
    intros _ j4 _ ->.
    eapply parses_bind; [apply Hp; lia |].
    intros c2 j5 _ (Hj5 & Hc2 & Hl2). apply parses_ret. intros _.
    split; [lia |]. cbn [cmd_ops decls_left_nested].
    rewrite He, Hc1, Hc2, Hl1, Hl2. split; reflexivity.
  - eapply parses_post; [| intros c j _ H _; exact H].
    apply (parse_let_parses g i t); auto. rewrite Hty. discriminate.
  - (* while *)
    eapply parses_bind; [apply token_accept_parses; discriminate |].
    intros _ j _ ->.
    eapply parses_bind; [apply parse_expr_parses; lia |].
    intros e j _ (Hj & He).
    eapply parses_bind; [apply token_accept_parses; discriminate |].
    intros _ j1 _ ->.
    eapply parses_bind; [apply Hp; lia |].
    intros c j2 _ (Hj2 & Hc & Hl). apply parses_ret. intros _.
    split; [lia |]. cbn [cmd_ops decls_left_nested].
    rewrite He, Hc, Hl. split; reflexivity.
Qed.

End Commands.

Lemma parse_command_parses fuel : forall i,
  length tokens0 - i < fuel -> parses tokens0 (parse_command fuel) i (Qc i).
Proof using Hend.
  induction fuel as [| fuel IH]; intros i Hf; [lia |].
  cbn [parse_command].
  apply (parse_command_body_parses (parse_command fuel) fuel IH); lia.
Qed.

Lemma parse_program_parses fuel :
  length tokens0 < fuel ->
  parses tokens0 (parse_program fuel) 0
    (fun tree _ => cmd_ops (command tree) = true
                   /\ decls_left_nested (command tree) = true).
Proof using Hend.
  intro Hf. unfold parse_program.
  eapply parses_bind; [apply parse_command_parses; lia |].
  intros c j _ (Hj & Hc).
  eapply parses_bind; [apply token_accept_EOT_parses |].
  intros _ j' _ _. apply parses_ret. intros _ _. exact Hc.
Qed.

End Tokens.

(** [parse] on a list that ends with the end of text. *)
Lemma parse_outcome tokens fuel :
  ends_with_EOT tokens -> length tokens < fuel ->
  match parse fuel tokens with
  | Ok tree => cmd_ops (command tree) = true
               /\ decls_left_nested (command tree) = true
  | Raise e => reported tokens e
  | OutOfFuel => False
  end.
Proof.
  intros Hend Hf. unfold parse, parser.init.
  destruct (nth_error tokens 0) as [t |] eqn:Hn.
  - assert (H := parse_program_parses tokens Hend fuel Hf
                   {| tokens := tokens; curindex := 0; curtoken := t |}
                   eq_refl eq_refl Hn).
    destruct (parse_program fuel _) as [[tree s'] | e |]; cbn [value_of].
    + apply H.
    + exact H.
    + exact H.
  - destruct Hend as (front & last & -> & _).
    destruct front; discriminate Hn.
Qed.

End parser_total.

(** * The stages together *)

Module pipeline_facts.

Lemma parse_outcome_any_fuel tokens fuel :
  ends_with_EOT tokens ->
  match parse fuel tokens with
  | Ok tree => cmd_ops (command tree) = true
               /\ decls_left_nested (command tree) = true
  | Raise e => reported tokens e
  | OutOfFuel => True
  end.
Proof.
  intro Hend.
  assert (H := parser_total.parse_outcome tokens (fuel + S (length tokens))
                 Hend ltac:(lia)).
  destruct (parser_fuel.parse_mono fuel (fuel + S (length tokens)) tokens
              ltac:(lia)) as [E | E]; rewrite E; [exact I |].
  destruct (parse (fuel + S (length tokens)) tokens); auto.
Qed.

Lemma bind_no_operator_error {A B} (m : G A) (k : A -> G B) s :
  no_operator_error (m s) ->
  (forall a s', m s = Ok (a, s') -> no_operator_error (k a s')) ->
  no_operator_error (bind m k s).
Proof.
  unfold bind. intros Hm Hk.
  destruct (m s) as [[a s'] | e |];
    [apply Hk; reflexivity | | intros v H; discriminate H].
  intros v H. apply (Hm v). injection H as ->. reflexivity.
Qed.

Lemma ok_no_operator_error {A} (a : A) :
  no_operator_error (@Ok CodeGenException A a).
Proof. intros v H. discriminate H. Qed.

Lemma gen_expr_no_operator_error e s :
  ops_ok e = true -> no_operator_error (gen_expr e s).
Proof.
  intro H. rewrite (lowering.gen_expr_code e s H). apply ok_no_operator_error.
Qed.

Lemma gen_callcommand_no_operator_error name e s :
  no_operator_error (gen_callcommand name e s).
Proof.
  destruct (call_ok name e) eqn:H.
  - rewrite (lowering.gen_callcommand_code name e s H).
    apply ok_no_operator_error.
  - destruct (lowering.gen_callcommand_fails name e s H) as [-> | ->];
      intros v Hv; discriminate Hv.
Qed.

Lemma gen_command_no_operator_error c : forall s,
  cmd_ops c = true -> no_operator_error (gen_command c s).
Proof.
  induction c as [v e | name e | c1 IH1 c2 IH2 | e c1 IH1 c2 IH2
                 | e c IH | d c IH]; intros s H; cbn [cmd_ops] in H;
    cbn [gen_command].
  - unfold gen_assigncommand.
    apply bind_no_operator_error; [apply gen_expr_no_operator_error, H |].
    intros a s' _. rewrite lowering.append_grown. apply ok_no_operator_error.
  - apply gen_callcommand_no_operator_error.
  - apply andb_true_iff in H. destruct H as [H1 H2].
    apply bind_no_operator_error; auto.
  - apply andb_true_iff in H. destruct H as [H H2].
    apply andb_true_iff in H. destruct H as [He H1].
    unfold gen_ifcommand.
    repeat (apply bind_no_operator_error;
            [first [ rewrite lowering.new_label_grown
                   | rewrite lowering.append_grown ];
             apply ok_no_operator_error
            | intros ? ? _ ]).
    apply bind_no_operator_error; [apply gen_expr_no_operator_error, He |].
    intros ? ? _.
    apply bind_no_operator_error;
      [rewrite lowering.append_grown; apply ok_no_operator_error |].
    intros ? ? _.
    apply bind_no_operator_error; [apply IH1, H1 |]. intros ? ? _.
    apply bind_no_operator_error;
      [rewrite lowering.append_grown; apply ok_no_operator_error |].
    intros ? ? _.
    apply bind_no_operator_error;
      [rewrite lowering.append_grown; apply ok_no_operator_error |].
    intros ? ? _.
    apply bind_no_operator_error; [apply IH2, H2 |]. intros ? ? _.
    rewrite lowering.append_grown. apply ok_no_operator_error.
  - apply andb_true_iff in H. destruct H as [He H1].
    unfold gen_whilecommand.
    repeat (apply bind_no_operator_error;
            [first [ rewrite lowering.new_label_grown
                   | rewrite lowering.append_grown ];
             apply ok_no_operator_error
            | intros ? ? _ ]).
    apply bind_no_operator_error; [apply gen_expr_no_operator_error, He |].
    intros ? ? _.
    apply bind_no_operator_error;
      [rewrite lowering.append_grown; apply ok_no_operator_error |].
    intros ? ? _.
    apply bind_no_operator_error; [apply IH, H1 |]. intros ? ? _.
    apply bind_no_operator_error;
      [rewrite lowering.append_grown; apply ok_no_operator_error |].
    intros ? ? _.
    rewrite lowering.append_grown. apply ok_no_operator_error.
  - apply andb_true_iff in H. destruct H as [Hd H1].
    apply bind_no_operator_error; [| intros ? ? _; apply IH, H1].
    rewrite (lowering.gen_declaration_code d s Hd).
    apply ok_no_operator_error.
Qed.

Lemma generate_no_operator_error tree :
  cmd_ops (command tree) = true -> no_operator_error (generate tree).
Proof.
  intro H. unfold generate.
  assert (Hg := gen_command_no_operator_error (command tree) codegen.init H).
  unfold bind.
  destruct (gen_command (command tree) codegen.init) as [[u s] | e |];
    cbn; intros v Hv; try discriminate Hv.
  apply (Hg v). injection Hv as ->. reflexivity.
Qed.


(** The tokens of a text with closed comments are at most one more than
    its characters. *)
Lemma scan_loop_bounded fuel : forall r p acc,
  comments_closed r = true -> String.length r + 3 <= fuel ->
  match scan_loop fuel acc (standing r p) with
  | Ok (tokens, _) => length tokens <= length acc + String.length r + 1
  | Raise _ => True
  | OutOfFuel => False
  end.
Proof.
  induction fuel as [| fuel IH]; intros r p acc Hc Hf; [lia |].
  cbn [scan_loop]. unfold bind.
  assert (H := scanner_facts.scan_token_progresses fuel r p Hc ltac:(lia)).
  unfold progresses in H.
  destruct (scan_token fuel (standing r p)) as [[token self'] | e |];
    [| exact I | destruct H].
  destruct H as (r' & p' & -> & Hl & Hc' & Hp).
  destruct (token_type_eqb (Token.type token) TK_EOT) eqn:Ht.
  - cbn. rewrite length_app. cbn. lia.
  - assert (Hne : Token.type token <> TK_EOT)
      by (intro Heq; rewrite Heq in Ht; discriminate).
    specialize (Hp Hne).
    specialize (IH r' p' (acc ++ [token]) (Hc' Hc) ltac:(lia)).
    destruct (scan_loop fuel (acc ++ [token]) (standing r' p'))
      as [[tokens s2] | e |]; auto.
    rewrite length_app in IH. cbn in IH. lia.
Qed.

Lemma scanAll_bounded text :
  comments_closed text = true ->
  match scanAll (String.length text + 3) text with
  | Ok tokens => length tokens <= String.length text + 1
  | Raise _ => True
  | OutOfFuel => False
  end.
Proof.
  intro Hc. unfold scanAll, scan. rewrite scanner_facts.init_standing.
  assert (H := scan_loop_bounded (String.length text + 3) text 1 [] Hc
                 ltac:(lia)).
  destruct (scan_loop _ _ _) as [[tokens s'] | e |]; cbn in *; auto.
Qed.

Lemma scanAll_ends tokens fuel text :
  scanAll fuel text = Ok tokens -> ends_with_EOT tokens.
Proof.
  unfold scanAll, scan. intro H.
  destruct (scan_loop fuel [] (scanner.init text)) as [[l self'] | |] eqn:Hs;
    try discriminate H.
  injection H as ->.
  apply scanner_facts.scan_loop_ends_with_EOT in Hs.
  destruct Hs as (mid & last & -> & Hl & _). exists mid, last. auto.
Qed.

End pipeline_facts.

(** X6: on a token list that ends with the end of text, the parser
    returns or raises once the fuel exceeds the number of tokens. *)
Theorem parse_terminates (tokens : list Token) (k : nat) :
  ends_with_EOT tokens ->
  parse (S (length tokens) + k) tokens <> OutOfFuel.
Proof.
  intros Hend H.
  assert (Ho := parser_total.parse_outcome tokens (S (length tokens) + k)
                  Hend ltac:(lia)).
  rewrite H in Ho. exact Ho.
Qed.

Lemma parse_terminates_witness :
  parse 3 [tk_id "x" 0; Token.mk TK_EOT (VInt 0) 1]
  = Raise (ParserError 1 TK_EOT)
  /\ parse 3 [tk_id "x" 0; Token.mk TK_EOT (VInt 0) 1] <> OutOfFuel.
Proof.
  split; [reflexivity |].
  apply (parse_terminates [tk_id "x" 0; Token.mk TK_EOT (VInt 0) 1] 0).
  exists [tk_id "x" 0], (Token.mk TK_EOT (VInt 0) 1). split; reflexivity.
Defined.

(** X7: on a token list that ends with the end of text, the parser never
    indexes past the list, and the position and type of every
    [ParserError] are those of a token of the list.  On the empty list the
    constructor raises the [IndexError]. *)
Theorem parse_reports_a_token (tokens : list Token) (fuel : nat) :
  ends_with_EOT tokens ->
  parse fuel tokens <> Raise IndexError
  /\ (forall p t,
        parse fuel tokens = Raise (ParserError p t) ->
        exists tok,
          In tok tokens /\ Token.pos tok = p /\ Token.type tok = t)
  /\ parse fuel [] = Raise IndexError.
Proof.
  intro Hend.
  assert (Ho := pipeline_facts.parse_outcome_any_fuel tokens fuel Hend).
  split; [| split].
  - intro H. rewrite H in Ho. exact Ho.
  - intros p t H. rewrite H in Ho. exact Ho.
  - reflexivity.
Qed.

Lemma parse_reports_a_token_witness :
  let tokens := [Token.mk TK_BEGIN (VInt 0) 0; Token.mk TK_BECOMES (VInt 0) 5;
                 Token.mk TK_EOT (VInt 0) 7] in
  parse 5 tokens = Raise (ParserError 5 TK_BECOMES)
  /\ exists tok,
       In tok tokens /\ Token.pos tok = 5%Z /\ Token.type tok = TK_BECOMES.
Proof.
  intro tokens. split; [reflexivity |].
  apply (proj1 (proj2 (parse_reports_a_token tokens 5
           (ex_intro _ [Token.mk TK_BEGIN (VInt 0) 0;
                        Token.mk TK_BECOMES (VInt 0) 5]
              (ex_intro _ (Token.mk TK_EOT (VInt 0) 7)
                 (conj eq_refl eq_refl))))) 5%Z TK_BECOMES).
  reflexivity.
Defined.

(** X8: every operator the parser puts in a tree is one of the eight the
    generator lowers, so generating from a parsed tree never raises the
    [CodeGenError] of an unknown operator. *)
Theorem parse_builds_lowered_operators
  (tokens : list Token) (fuel : nat) (tree : Program) :
  ends_with_EOT tokens ->
  parse fuel tokens = Ok tree ->
  cmd_ops (command tree) = true
  /\ forall v, generate tree <> Raise (CodeGenError (NOper v)).
Proof.
  intros Hend H.
  assert (Ho := pipeline_facts.parse_outcome_any_fuel tokens fuel Hend).
  rewrite H in Ho. split; [exact (proj1 Ho) |].
  apply pipeline_facts.generate_no_operator_error, Ho.
Qed.

Lemma parse_builds_lowered_operators_witness :
  let tokens := [tk_id "x" 0; Token.mk TK_BECOMES (VInt 0) 2;
                 tk_id "y" 5; tk_op "\" 7; Token.mk TK_INTLITERAL (VInt 2) 9;
                 Token.mk TK_EOT (VInt 0) 10] in
  let tree := mkProgram
    (AssignCommand (mkVname (VStr "x"))
       (BinaryExpression (var_ref "y") (VStr "\")
          (IntegerExpression (VInt 2)))) in
  parse 8 tokens = Ok tree /\ cmd_ops (command tree) = true.
Proof.
  intros tokens tree. split; [reflexivity |].
  apply (parse_builds_lowered_operators tokens 8 tree).
  - exists [tk_id "x" 0; Token.mk TK_BECOMES (VInt 0) 2;
            tk_id "y" 5; tk_op "\" 7; Token.mk TK_INTLITERAL (VInt 2) 9],
      (Token.mk TK_EOT (VInt 0) 10). split; reflexivity.
  - reflexivity.
Defined.

(** X9: the declarations of every [let] the parser builds are nested to
    the left: the second part of a sequence of declarations is a single
    declaration. *)
Theorem parse_nests_declarations_left
  (tokens : list Token) (fuel : nat) (tree : Program) :
  ends_with_EOT tokens ->
  parse fuel tokens = Ok tree ->
  decls_left_nested (command tree) = true.
Proof.
  intros Hend H.
  assert (Ho := pipeline_facts.parse_outcome_any_fuel tokens fuel Hend).
  rewrite H in Ho. exact (proj2 Ho).
Qed.

Lemma parse_nests_declarations_left_witness :
  let tokens := [Token.mk TK_LET (VInt 0) 0; Token.mk TK_VAR (VInt 0) 4;
                 tk_id "a" 8; Token.mk TK_COLON (VInt 0) 9; tk_id "T" 11;
                 Token.mk TK_SEMICOLON (VInt 0) 12;
                 Token.mk TK_VAR (VInt 0) 14;
                 tk_id "b" 18; Token.mk TK_COLON (VInt 0) 19; tk_id "T" 21;
                 Token.mk TK_SEMICOLON (VInt 0) 22;
                 Token.mk TK_CONST (VInt 0) 24; tk_id "c" 30;
                 Token.mk TK_IS (VInt 0) 32;
                 Token.mk TK_INTLITERAL (VInt 1) 34;
                 Token.mk TK_IN (VInt 0) 36; tk_id "a" 39;
                 Token.mk TK_BECOMES (VInt 0) 41; tk_id "c" 44;
                 Token.mk TK_EOT (VInt 0) 45] in
  let tree := mkProgram
    (LetCommand
       (SequentialDeclaration
          (SequentialDeclaration
             (VarDeclaration (VStr "a") (mkTypeDenoter (VStr "T")))
             (VarDeclaration (VStr "b") (mkTypeDenoter (VStr "T"))))
          (ConstDeclaration (VStr "c") (IntegerExpression (VInt 1))))
       (AssignCommand (mkVname (VStr "a")) (var_ref "c"))) in
  parse 21 tokens = Ok tree /\ decls_left_nested (command tree) = true.
Proof.
  intros tokens tree. split; [reflexivity |].
  apply (parse_nests_declarations_left tokens 21 tree); [| reflexivity].
  exists (removelast tokens), (Token.mk TK_EOT (VInt 0) 45).
  split; reflexivity.
Defined.

(** X14: whatever the text and the fuel, the three stages in a row never
    end in an [IndexError] of the parser nor in the [CodeGenError] of an
    unknown operator: the scanner closes its tokens with the end of text,
    and the parser builds only operators the generator lowers. *)
Theorem compile_stages_fit (fuel : nat) (text : string) :
  compile fuel text <> Raise (ParseExc IndexError)
  /\ forall v, compile fuel text <> Raise (GenExc (CodeGenError (NOper v))).
Proof.
  unfold compile, scan_parse.
  destruct (scanAll fuel text) as [tokens | e |] eqn:Hs; cbn;
    try solve [split; [| intro v]; intro H; inversion H].
  assert (Hend := pipeline_facts.scanAll_ends tokens fuel text Hs).
  assert (Ho := pipeline_facts.parse_outcome_any_fuel tokens fuel Hend).
  destruct (parse fuel tokens) as [tree | e |]; cbn;
    try solve [split; [| intro v]; intro H; inversion H].
  - split; [destruct (generate tree); cbn; intro H; inversion H |].
    intros v H.
    apply (pipeline_facts.generate_no_operator_error tree (proj1 Ho) v).
    destruct (generate tree) as [c | e |]; try discriminate H.
    cbn in H. injection H as ->. reflexivity.
  - split; [| intro v; discriminate].
    intro H. injection H as ->. exact Ho.
Qed.

(** X15: on a text whose comments are all closed by an end-of-line, the
    three stages in a row return or raise once the fuel exceeds the
    length of the text by three. *)
Theorem compile_returns (text : string) (k : nat) :
  comments_closed text = true ->
  compile (String.length text + 3 + k) text <> OutOfFuel.
Proof.
  intros Hc H.
  assert (Hb := pipeline_facts.scanAll_bounded text Hc).
  destruct (scanAll (String.length text + 3) text) as [tokens | e |] eqn:Hs;
    [| | exact Hb].
  - assert (Hs' := scanAll_reached _ _ _ Hs ltac:(discriminate) k).
    assert (Hend := pipeline_facts.scanAll_ends tokens _ text Hs).
    assert (Ho := parser_total.parse_outcome tokens
                    (String.length text + 3 + k) Hend ltac:(lia)).
    unfold compile, scan_parse in H. rewrite Hs' in H. cbn in H.
    destruct (parse (String.length text + 3 + k) tokens) as [tree | e |];
      cbn in H; try discriminate H; [| exact Ho].
    destruct tree as [c]. destruct (cmd_ok c) eqn:Hok.
    + rewrite (lowering.generate_code c Hok) in H. discriminate H.
    + destruct (lowering.generate_fails c Hok) as (e & Hg & _).
      rewrite Hg in H. discriminate H.
  - assert (Hs' := scanAll_reached _ _ _ Hs ltac:(discriminate) k).
    unfold compile, scan_parse in H. rewrite Hs' in H. discriminate H.
Qed.

Lemma compile_returns_witness :
  comments_closed "x := 1" = true /\ compile 9 "x := 1" <> OutOfFuel.
Proof.
  split; [reflexivity |].
  apply (compile_returns "x := 1" 0). reflexivity.
Defined.

(** * The scanner: blanks, literals, words and errors *)

Module scanner_runs.
Import scanner_facts.

Lemma standing_append c r p :
  standing (String c r) p
  = {| inputstr := r; eot := false; pos := p; char := String c "" |}.
Proof. reflexivity. Qed.

Lemma join_chars s : join (chars s) = s.
Proof.
  induction s as [| c s IH]; [reflexivity |].
  cbn [chars join fold_right]. fold (join (chars s)). rewrite IH.
  reflexivity.
Qed.

(** A loop of the scanner takes the whole run of its class. *)
Section Runs.
Variable q : ascii -> bool.
Variable loop : nat -> list string -> Sc (list string).
Hypothesis loop_S : forall fuel l,
  loop (S fuel) l
  = (c <- char_current ;;
     if str_is q c then d <- char_take ;; loop fuel (l ++ [d])
     else ret l).

Lemma loop_run : forall D r p l k,
  all_chars q D = true -> stops q r = true ->
  loop (String.length D + 1 + k) l (standing (String.append D r) p)
  = Ok (l ++ chars D, standing r (p + Z.of_nat (String.length D))).
Proof using loop_S.
  induction D as [| c D IH]; intros r p l k HD Hr.
  - cbn [String.length Nat.add String.append chars]. rewrite loop_S.
    rewrite app_nil_r, Z.add_0_r.
    destruct r as [| c r]; [reflexivity |].
    unfold bind at 1. rewrite char_current_standing, str_is_single.
    cbn [stops] in Hr. apply negb_true_iff in Hr. rewrite Hr. reflexivity.
  - cbn [all_chars] in HD. apply andb_true_iff in HD. destruct HD as [Hc HD].
    cbn [String.length Nat.add String.append chars]. rewrite loop_S.
    unfold bind at 1. rewrite char_current_standing, str_is_single, Hc.
    unfold bind at 1. rewrite char_take_standing.
    rewrite (IH r (p + 1)%Z (l ++ [String c ""]) k HD Hr).
    rewrite <- app_assoc. cbn [app].
    replace (p + Z.of_nat (S (String.length D)))%Z
      with (p + 1 + Z.of_nat (String.length D))%Z by lia.
    reflexivity.
Qed.

End Runs.

Lemma char_pos_standing r p :
  char_pos (standing r p) = Ok ((p - 1)%Z, standing r p).
Proof. destruct r; reflexivity. Qed.

Lemma scan_int_run d D r p k :
  all_chars ascii_isdigit D = true -> stops ascii_isdigit r = true ->
  scan_int (String.length D + 1 + k)
    (standing (String d (String.append D r)) p)
  = Ok (Token.mk TK_INTLITERAL (VInt (int (String d D))) (p - 1),
        standing r (p + 1 + Z.of_nat (String.length D))).
Proof.
  intros HD Hr. unfold scan_int.
  rewrite (parser_facts.run_bind _ _ _ _ _ (char_pos_standing _ _)).
  rewrite (parser_facts.run_bind _ _ _ _ _ (char_take_standing _ _ _)).
  rewrite (parser_facts.run_bind _ _ _ _ _
             (loop_run ascii_isdigit scan_int_loop ltac:(reflexivity)
                D r (p + 1)%Z [String d ""] k HD Hr)).
  change ([String d ""] ++ chars D) with (chars (String d D)).
  rewrite join_chars. reflexivity.
Qed.

Lemma scan_chars_run a A r p k :
  all_chars ascii_isalnum A = true -> stops ascii_isalnum r = true ->
  scan_chars (String.length A + 1 + k)
    (standing (String a (String.append A r)) p)
  = Ok (keyword (String a A) (p - 1),
        standing r (p + 1 + Z.of_nat (String.length A))).
Proof.
  intros HA Hr. unfold scan_chars.
  rewrite (parser_facts.run_bind _ _ _ _ _ (char_pos_standing _ _)).
  rewrite (parser_facts.run_bind _ _ _ _ _ (char_take_standing _ _ _)).
  rewrite (parser_facts.run_bind _ _ _ _ _
             (loop_run ascii_isalnum scan_chars_loop ltac:(reflexivity)
                A r (p + 1)%Z [String a ""] k HA Hr)).
  change ([String a ""] ++ chars A) with (chars (String a A)).
  rewrite join_chars. reflexivity.
Qed.

(** The classes do not overlap. *)
Lemma digit_not_space c : ascii_isdigit c = true -> ascii_isspace c = false.
Proof.
  destruct c as [[] [] [] [] [] [] [] []]; cbv; intro H;
    first [reflexivity | discriminate H].
Qed.

Lemma alpha_not_space c : ascii_isalpha c = true -> ascii_isspace c = false.
Proof.
  destruct c as [[] [] [] [] [] [] [] []]; cbv; intro H;
    first [reflexivity | discriminate H].
Qed.

Lemma alpha_not_digit c : ascii_isalpha c = true -> ascii_isdigit c = false.
Proof.
  destruct c as [[] [] [] [] [] [] [] []]; cbv; intro H;
    first [reflexivity | discriminate H].
Qed.

(** The first steps of [scan_token] on a text that is not exhausted. *)
Lemma scan_token_first fuel c r p :
  scan_token (S fuel) (standing (String c r) p)
  = (if ascii_isspace c then char_take ;; scan_token fuel
     else if ascii_isdigit c then scan_int fuel
     else if ascii_isalpha c then scan_chars fuel
     else if existsb (String.eqb (String c "")) OPER
          then single TK_OPERATOR (VStr (String c ""))
     else if String.eqb (String c "") "!"
          then skip_comm fuel ;; scan_token fuel
     else if String.eqb (String c "") ";" then single TK_SEMICOLON (VInt 0)
     else if String.eqb (String c "") ":" then
       token <- single TK_COLON (VInt 0) ;;
       c <- char_current ;;
       if String.eqb c "=" then
         pos <- char_pos ;;
         char_take ;;
         ret (Token.mk TK_BECOMES (VInt 0) (pos - 1)%Z)
       else ret token
     else if String.eqb (String c "") "~" then single TK_IS (VInt 0)
     else if String.eqb (String c "") "(" then single TK_LPAREN (VInt 0)
     else if String.eqb (String c "") ")" then single TK_RPAREN (VInt 0)
     else
       pos <- char_pos ;;
       raise (mkScannerError pos (String c ""))) (standing (String c r) p).
Proof.
  cbn [scan_token]. unfold bind at 1. rewrite char_current_standing.
  unfold bind at 1. cbn [char_eot standing eot].
  unfold isspace, isdigit, isalpha. rewrite !str_is_single. reflexivity.
Qed.

Lemma scan_token_blank fuel c r p :
  ascii_isspace c = true ->
  scan_token (S fuel) (standing (String c r) p)
  = scan_token fuel (standing r (p + 1)).
Proof.
  intro Hc. rewrite scan_token_first, Hc.
  unfold bind. rewrite char_take_standing. reflexivity.
Qed.

(** Blanks before a token cost one unit of fuel each and move the
    position on. *)
Lemma scan_token_blanks : forall ws r p fuel,
  all_chars ascii_isspace ws = true ->
  scan_token (String.length ws + fuel) (standing (String.append ws r) p)
  = scan_token fuel (standing r (p + Z.of_nat (String.length ws))).
Proof.
  induction ws as [| c ws IH]; intros r p fuel H.
  - cbn. rewrite Z.add_0_r. reflexivity.
  - cbn [all_chars] in H. apply andb_true_iff in H. destruct H as [Hc H].
    cbn [String.length Nat.add String.append].
    rewrite (scan_token_blank _ c _ p Hc), (IH r _ fuel H).
    replace (p + Z.of_nat (S (String.length ws)))%Z
      with (p + 1 + Z.of_nat (String.length ws))%Z by lia.
    reflexivity.
Qed.

Lemma scan_token_end fuel p :
  scan_token (S fuel) (standing "" p)
  = Ok (Token.mk TK_EOT (VInt 0) (p - 1), standing "" p).
Proof. reflexivity. Qed.

Lemma scan_token_int fuel d D r p :
  ascii_isdigit d = true ->
  all_chars ascii_isdigit D = true -> stops ascii_isdigit r = true ->
  scan_token (S (String.length D + 1 + fuel))
    (standing (String d (String.append D r)) p)
  = Ok (Token.mk TK_INTLITERAL (VInt (int (String d D))) (p - 1),
        standing r (p + 1 + Z.of_nat (String.length D))).
Proof.
  intros Hd HD Hr.
  rewrite scan_token_first, (digit_not_space d Hd), Hd.
  apply scan_int_run; assumption.
Qed.

Lemma scan_token_word fuel a A r p :
  ascii_isalpha a = true ->
  all_chars ascii_isalnum A = true -> stops ascii_isalnum r = true ->
  scan_token (S (String.length A + 1 + fuel))
    (standing (String a (String.append A r)) p)
  = Ok (keyword (String a A) (p - 1),
        standing r (p + 1 + Z.of_nat (String.length A))).
Proof.
  intros Ha HA Hr.
  rewrite scan_token_first, (alpha_not_space a Ha), (alpha_not_digit a Ha),
    Ha.
  apply scan_chars_run; assumption.
Qed.

Lemma scan_token_unrecognized fuel c r p :
  recognized c = false ->
  scan_token (S fuel) (standing (String c r) p)
  = Raise (mkScannerError (p - 1) (String c "")).
Proof.
  intro H. rewrite scan_token_first.
  unfold recognized in H.
  apply orb_false_iff in H. destruct H as [H Hx].
  apply orb_false_iff in H. destruct H as [H Ha].
  apply orb_false_iff in H. destruct H as [Hs Hd].
  rewrite Hs, Hd, Ha.
  rewrite existsb_app in Hx. apply orb_false_iff in Hx.
  destruct Hx as [Ho Hx]. rewrite Ho.
  cbn [existsb] in Hx.
  repeat (apply orb_false_iff in Hx;
          let H := fresh in destruct Hx as [H Hx]; rewrite H).
  reflexivity.
Qed.

End scanner_runs.

(** X17: a text of blanks only scans to the end-of-text token alone, at
    the position that is the length of the text. *)
Theorem scanAll_blank_text (ws : string) (k : nat) :
  all_chars ascii_isspace ws = true ->
  scanAll (String.length ws + 2 + k) ws
  = Ok [Token.mk TK_EOT (VInt 0) (Z.of_nat (String.length ws))].
Proof.
  intro H. unfold scanAll, scan. rewrite scanner_facts.init_standing.
  replace (String.length ws + 2 + k) with (S (String.length ws + S k))
    by lia.
  cbn [scan_loop]. unfold bind.
  assert (E := scanner_runs.scan_token_blanks ws "" 1 (S k) H).
  replace (String.append ws "") with ws in E
    by (clear; induction ws as [| c ws IH]; cbn; congruence).
  rewrite E, scanner_runs.scan_token_end.
  replace (1 + Z.of_nat (String.length ws) - 1)%Z
    with (Z.of_nat (String.length ws)) by lia.
  reflexivity.
Qed.

Lemma scanAll_blank_text_witness :
  scanAll 5 (String " " (String (ascii_of_nat 9) newline))
  = Ok [Token.mk TK_EOT (VInt 0) 3].
Proof.
  apply (scanAll_blank_text (String " " (String (ascii_of_nat 9) newline)) 0).
  reflexivity.
Defined.

(** X18: an integer literal is the longest run of digits: after blanks,
    on a digit, [scan_token] takes every digit up to the first character
    that is none, gives the value of the whole run at the position of its
    first digit, and stands on the character after the run. *)
Theorem scan_token_longest_integer
  (ws : string) (d : ascii) (D r : string) (p : Z) (k : nat) :
  all_chars ascii_isspace ws = true ->
  ascii_isdigit d = true ->
  all_chars ascii_isdigit D = true ->
  stops ascii_isdigit r = true ->
  scan_token (String.length ws + S (String.length D + 1 + k))
    (standing (String.append ws (String d (String.append D r))) p)
  = Ok (Token.mk TK_INTLITERAL (VInt (int (String d D)))
          (p + Z.of_nat (String.length ws) - 1),
        standing r (p + Z.of_nat (String.length ws) + 1
                    + Z.of_nat (String.length D))).
Proof.
  intros Hws Hd HD Hr.
  rewrite (scanner_runs.scan_token_blanks ws _ p _ Hws).
  apply scanner_runs.scan_token_int; assumption.
Qed.

Lemma scan_token_longest_integer_witness :
  scan_token 6 (scanner.init "  120+3")
  = Ok (Token.mk TK_INTLITERAL (VInt 120) 2, standing "+3" 6).
Proof.
  apply (scan_token_longest_integer "  " "1" "20" "+3" 1 0); reflexivity.
Defined.

(** X19: a word is the longest run of letters and digits after a letter:
    [scan_token] takes the whole run, and the token is the keyword of that
    spelling or else an identifier carrying it, at the position of the
    first letter. *)
Theorem scan_token_longest_word
  (ws : string) (a : ascii) (A r : string) (p : Z) (k : nat) :
  all_chars ascii_isspace ws = true ->
  ascii_isalpha a = true ->
  all_chars ascii_isalnum A = true ->
  stops ascii_isalnum r = true ->
  scan_token (String.length ws + S (String.length A + 1 + k))
    (standing (String.append ws (String a (String.append A r))) p)
  = Ok (keyword (String a A) (p + Z.of_nat (String.length ws) - 1),
        standing r (p + Z.of_nat (String.length ws) + 1
                    + Z.of_nat (String.length A))).
Proof.
  intros Hws Ha HA Hr.
  rewrite (scanner_runs.scan_token_blanks ws _ p _ Hws).
  apply scanner_runs.scan_token_word; assumption.
Qed.

Lemma scan_token_longest_word_witness :
  scan_token 8 (scanner.init " while2 do")
  = Ok (tk_id "while2" 1, standing " do" 8).
Proof.
  apply (scan_token_longest_word " " "w" "hile2" " do" 1 0); reflexivity.
Defined.

(** X20: a first character, after blanks, that starts no token, no
    comment and no blank makes [scanAll] raise a [ScannerError] with the
    offset of that character and the character itself. *)
Theorem scanAll_unrecognized_character
  (ws : string) (c : ascii) (r : string) (k : nat) :
  all_chars ascii_isspace ws = true ->
  recognized c = false ->
  scanAll (String.length ws + 2 + k) (String.append ws (String c r))
  = Raise (mkScannerError (Z.of_nat (String.length ws)) (String c "")).
Proof.
  intros Hws Hc. unfold scanAll, scan. rewrite scanner_facts.init_standing.
  replace (String.length ws + 2 + k) with (S (String.length ws + S k))
    by lia.
  cbn [scan_loop]. unfold bind.
  rewrite (scanner_runs.scan_token_blanks ws _ 1 _ Hws).
  rewrite (scanner_runs.scan_token_unrecognized _ c r _ Hc).
  replace (1 + Z.of_nat (String.length ws) - 1)%Z
    with (Z.of_nat (String.length ws)) by lia.
  reflexivity.
Qed.

Lemma scanAll_unrecognized_character_witness :
  scanAll 4 "  ?x" = Raise (mkScannerError 2 "?").
Proof.
  apply (scanAll_unrecognized_character "  " "?" "x" 0); reflexivity.
Defined.

(** * The scanner: positions *)

Module scanner_positions.
Import scanner_facts.

Lemma append_snoc pre c r :
  String.append (String.append pre (String c "")) r
  = String.append pre (String c r).
Proof. induction pre as [| d pre IH]; cbn; congruence. Qed.

Lemma length_snoc pre c :
  String.length (String.append pre (String c "")) = S (String.length pre).
Proof. induction pre as [| d pre IH]; cbn; congruence. Qed.

Lemma append_empty pre : String.append pre "" = pre.
Proof. induction pre as [| d pre IH]; cbn; congruence. Qed.

Lemma get_after pre c r :
  String.get (String.length pre) (String.append pre (String c r)) = Some c.
Proof. induction pre as [| d pre IH]; cbn; auto. Qed.

Lemma ascending_lower lo lo' tokens :
  (lo' <= lo)%Z -> ascending lo tokens -> ascending lo' tokens.
Proof. destruct tokens; cbn; [auto |]. intros H [H1 H2]. split; [lia | auto]. Qed.

Lemma closed_after c r :
  c <> "!"%char -> comments_closed r = true ->
  comments_closed (String c r) = true.
Proof.
  intros Hc H. cbn [comments_closed].
  destruct (Ascii.eqb_spec c "!"); [contradiction | exact H].
Qed.

Lemma keyword_token s q :
  Token.pos (keyword s q) = q /\ Token.type (keyword s q) <> TK_EOT.
Proof.
  unfold keyword.
  repeat match goal with
         | |- context [if String.eqb ?a ?b then _ else _] =>
             destruct (String.eqb a b)
         end; split; cbn; congruence.
Qed.

Section Text.
Variable text : string.

Lemma follows_init : follows text text 1.
Proof. exists "". split; reflexivity. Qed.

Lemma follows_next c r p : follows text (String c r) p -> follows text r (p + 1).
Proof.
  intros (pre & -> & ->). exists (String.append pre (String c "")).
  rewrite append_snoc, length_snoc. split; [reflexivity | lia].
Qed.

Lemma follows_get c r p :
  follows text (String c r) p ->
  (0 <= p - 1)%Z /\ String.get (Z.to_nat (p - 1)) text = Some c.
Proof.
  intros (pre & -> & ->). split; [lia |].
  replace (Z.to_nat (Z.of_nat (String.length pre) + 1 - 1))
    with (String.length pre) by lia.
  apply get_after.
Qed.

Lemma follows_end p :
  follows text "" p -> (p - 1)%Z = Z.of_nat (String.length text).
Proof. intros (pre & -> & ->). rewrite append_empty. lia. Qed.

Lemma tracks_ret {A} (a : A) r p (post : A -> string -> Z -> Prop) :
  post a r p -> tracks text (ret a) r p post.
Proof.
  intros H Hf. exists r, p.
  split; [reflexivity | split; [exact Hf | split; [lia | auto]]].
Qed.

Lemma tracks_bind {A B} (m : Sc A) (k : A -> Sc B) r p
  (mid : A -> string -> Z -> Prop) (post : B -> string -> Z -> Prop) :
  tracks text m r p mid ->
  (forall a r1 p1, (p <= p1)%Z -> mid a r1 p1 ->
     tracks text (k a) r1 p1 (fun b r' p' => (p1 <= p')%Z -> post b r' p')) ->
  tracks text (bind m k) r p post.
Proof.
  intros Hm Hk Hf. unfold bind. specialize (Hm Hf).
  destruct (m (standing r p)) as [[a s1] | e |]; auto.
  destruct Hm as (r1 & p1 & -> & Hf1 & Hle & Hc & Hmid).
  specialize (Hk a r1 p1 Hle Hmid Hf1).
  destruct (k a (standing r1 p1)) as [[b s'] | e |]; auto.
  destruct Hk as (r' & p' & -> & Hf' & Hle' & Hc' & Hpost).
  exists r', p'.
  split; [reflexivity | split; [exact Hf' | split; [lia | split; auto]]].
Qed.

Lemma tracks_post {A} (m : Sc A) r p (post post' : A -> string -> Z -> Prop) :
  tracks text m r p post ->
  (forall a r' p', (p <= p')%Z -> post a r' p' -> post' a r' p') ->
  tracks text m r p post'.
Proof.
  intros Hm H Hf. specialize (Hm Hf).
  destruct (m (standing r p)) as [[a s'] | e |]; auto.
  destruct Hm as (r' & p' & -> & Hf' & Hle & Hc & Hpost).
  exists r', p'.
  split; [reflexivity | split; [exact Hf' | split; [lia | split; auto]]].
Qed.

Lemma tracks_eq {A} (m m' : Sc A) r p (post : A -> string -> Z -> Prop) :
  m (standing r p) = m' (standing r p) ->
  tracks text m' r p post -> tracks text m r p post.
Proof. unfold tracks. intros ->. auto. Qed.

Lemma char_pos_tracks r p :
  tracks text char_pos r p
    (fun a r' p' => a = (p - 1)%Z /\ r' = r /\ p' = p).
Proof.
  intro Hf. replace (char_pos (standing r p))
    with (Ok (E := ScannerError) ((p - 1)%Z, standing r p))
    by (destruct r; reflexivity).
  exists r, p.
  split; [reflexivity | split; [exact Hf | split; [lia | auto]]].
Qed.

Lemma char_current_tracks r p :
  tracks text char_current r p
    (fun c r' p' => r' = r /\ p' = p
                    /\ c = match r with
                           | EmptyString => ""
                           | String c _ => String c ""
                           end).
Proof.
  intro Hf. exists r, p.
  split; [reflexivity | split; [exact Hf | split; [lia | split; auto]]].
  repeat split. destruct r; reflexivity.
Qed.

Lemma char_take_tracks c r p :
  c <> "!"%char ->
  tracks text char_take (String c r) p
    (fun _ r' p' => r' = r /\ p' = (p + 1)%Z).
Proof.
  intros Hc Hf. rewrite char_take_standing. exists r, (p + 1)%Z.
  split; [reflexivity |].
  split; [exact (follows_next c r p Hf) |].
  split; [lia |]. split; [apply closed_after, Hc | auto].
Qed.

Lemma single_tracks type val c r p :
  c <> "!"%char ->
  tracks text (single type val) (String c r) p
    (fun t r' p' => t = Token.mk type val (p - 1) /\ r' = r
                    /\ p' = (p + 1)%Z).
Proof.
  intro Hc. unfold single.
  eapply tracks_bind; [apply char_pos_tracks |].
  intros pos r1 p1 _ (-> & -> & ->).
  eapply tracks_bind; [apply (char_take_tracks c r p Hc) |].
  intros d r1 p1 _ (-> & ->).
  apply tracks_ret. auto.
Qed.

(** The two inner loops. *)
Section Runs.
Variable q : ascii -> bool.
Variable loop : nat -> list string -> Sc (list string).
Hypothesis loop_O : forall l, loop 0 l = out_of_fuel.
Hypothesis loop_S : forall fuel l,
  loop (S fuel) l
  = (c <- char_current ;;
     if str_is q c then d <- char_take ;; loop fuel (l ++ [d])
     else ret l).
Hypothesis q_comment : q "!"%char = false.

Lemma loop_tracks fuel : forall r p l,
  tracks text (loop fuel l) r p (fun _ _ _ => True).
Proof using loop_O loop_S q_comment.
  induction fuel as [| fuel IH]; intros r p l.
  - intros _. rewrite loop_O. exact I.
  - rewrite loop_S. destruct r as [| c r].
    + intro Hf. exists "", p.
      split; [reflexivity | split; [exact Hf | split; [lia | auto]]].
    + eapply tracks_eq.
      { unfold bind at 1. rewrite char_current_standing, str_is_single.
        reflexivity. }
      destruct (q c) eqn:Hq.
      * assert (Hc : c <> "!"%char) by congruence.
        eapply tracks_bind; [apply (char_take_tracks c r p Hc) |].
        intros d r1 p1 _ (-> & ->).
        eapply tracks_post; [apply IH | auto].
      * apply tracks_ret. exact I.
Qed.

End Runs.

Lemma scan_int_tracks fuel c r p :
  c <> "!"%char ->
  tracks text (scan_int fuel) (String c r) p
    (fun t _ p' => Token.pos t = (p - 1)%Z /\ Token.type t <> TK_EOT
                   /\ (p + 1 <= p')%Z).
Proof.
  intro Hc. unfold scan_int.
  eapply tracks_bind; [apply char_pos_tracks |].
  intros pos r1 p1 _ (-> & -> & ->).
  eapply tracks_bind; [apply (char_take_tracks c r p Hc) |].
  intros d r1 p1 _ (-> & ->).
  eapply tracks_bind.
  { apply (loop_tracks ascii_isdigit scan_int_loop); reflexivity. }
  intros l r1 p1 Hle _.
  apply tracks_ret. intros _ _. cbn. split; [reflexivity |].
  split; [congruence | lia].
Qed.

Lemma scan_chars_tracks fuel c r p :
  c <> "!"%char ->
  tracks text (scan_chars fuel) (String c r) p
    (fun t _ p' => Token.pos t = (p - 1)%Z /\ Token.type t <> TK_EOT
                   /\ (p + 1 <= p')%Z).
Proof.
  intro Hc. unfold scan_chars.
  eapply tracks_bind; [apply char_pos_tracks |].
  intros pos r1 p1 _ (-> & -> & ->).
  eapply tracks_bind; [apply (char_take_tracks c r p Hc) |].
  intros d r1 p1 _ (-> & ->).
  eapply tracks_bind.
  { apply (loop_tracks ascii_isalnum scan_chars_loop); reflexivity. }
  intros l r1 p1 Hle _.
  apply tracks_ret. intros _ _.
  destruct (keyword_token (join l) (p - 1)) as [H1 H2].
  split; [exact H1 | split; [exact H2 | lia]].
Qed.

(** A comment that is left has an end-of-line ahead, and every comment
    marker passed on the way has one too. *)
Lemma skip_comm_tracks fuel : forall r p,
  tracks text (skip_comm fuel) r p (fun _ _ _ => has_newline r = true).
Proof.
  induction fuel as [| fuel IH]; intros r p Hf; [exact I |].
  destruct r as [| c r].
  - rewrite skip_comm_at_end; [exact I | reflexivity | reflexivity].
  - cbn [skip_comm]. unfold bind at 1.
    rewrite char_current_standing, eqb_newline.
    destruct (is_newline c) eqn:Hc; cbn [negb].
    + exists (String c r), p.
      split; [reflexivity | split; [exact Hf | split; [lia | split; auto]]].
      cbn [has_newline]. rewrite Hc. reflexivity.
    + unfold bind. rewrite char_take_standing.
      specialize (IH r (p + 1)%Z (follows_next c r p Hf)).
      destruct (skip_comm fuel (standing r (p + 1))) as [[u s'] | e |]; auto.
      destruct IH as (r' & p' & -> & Hf' & Hle & Hcl & Hn).
      exists r', p'.
      split; [reflexivity | split; [exact Hf' | split; [lia |]]].
      split.
      * intro H. cbn [comments_closed]. rewrite (Hcl H), Hn.
        destruct (Ascii.eqb c "!"); reflexivity.
      * cbn [has_newline]. rewrite Hn. apply orb_true_r.
Qed.

(** One token: its position is not before the character the scanner
    stood on; but for the end of text, the scanner stands after it; the
    end-of-text token is given at the end of the text only. *)
Lemma scan_token_tracks fuel : forall r p,
  tracks text (scan_token fuel) r p
    (fun t r' p' =>
       (p - 1 <= Token.pos t)%Z
       /\ (Token.type t <> TK_EOT -> (Token.pos t + 1 <= p' - 1)%Z)
       /\ (Token.type t = TK_EOT
           -> r' = "" /\ Token.pos t = (p' - 1)%Z)).
Proof.
  induction fuel as [| fuel IH]; intros r p; [intros _; exact I |].
  destruct r as [| c r].
  - intro Hf. exists "", p.
    split; [reflexivity | split; [exact Hf | split; [lia | split; auto]]].
    cbn. split; [lia | split; [congruence | auto]].
  - eapply tracks_eq; [apply scanner_runs.scan_token_first |].
    assert (Hone : forall (m : Sc Token),
      tracks text m (String c r) p
        (fun t _ p' => Token.pos t = (p - 1)%Z /\ Token.type t <> TK_EOT
                       /\ (p + 1 <= p')%Z) ->
      tracks text m (String c r) p
        (fun t r' p' =>
           (p - 1 <= Token.pos t)%Z
           /\ (Token.type t <> TK_EOT -> (Token.pos t + 1 <= p' - 1)%Z)
           /\ (Token.type t = TK_EOT
               -> r' = "" /\ Token.pos t = (p' - 1)%Z))).
    { intros m H. apply (tracks_post _ _ _ _ _ H).
      intros t r' p' _ (H1 & H2 & H3).
      split; [lia | split; [intros; lia | intro; contradiction]]. }
    assert (Hsingle : forall type val,
      c <> "!"%char -> type <> TK_EOT ->
      tracks text (single type val) (String c r) p
        (fun t r' p' =>
           (p - 1 <= Token.pos t)%Z
           /\ (Token.type t <> TK_EOT -> (Token.pos t + 1 <= p' - 1)%Z)
           /\ (Token.type t = TK_EOT
               -> r' = "" /\ Token.pos t = (p' - 1)%Z))).
    { intros type val Hc Ht. apply Hone.
      apply (tracks_post _ _ _ _ _ (single_tracks type val c r p Hc)).
      intros t r' p' _ (-> & -> & ->). cbn.
      split; [reflexivity | split; [exact Ht | lia]]. }
    destruct (Ascii.eqb_spec c "!") as [-> | Hc].
    { change (ascii_isspace "!") with false.
      change (ascii_isdigit "!") with false.
      change (ascii_isalpha "!") with false.
      change (existsb (String.eqb "!") OPER) with false.
      change (String.eqb "!" "!") with true. cbv iota.
      eapply tracks_bind; [apply skip_comm_tracks |].
      intros u r1 p1 Hle _.
      apply (tracks_post _ _ _ _ _ (IH r1 p1)).
      intros t r' p' _ (H1 & H2 & H3) _.
      split; [lia | split; assumption]. }
    destruct (ascii_isspace c) eqn:Hs.
    { eapply tracks_bind; [apply (char_take_tracks c r p Hc) |].
      intros d r1 p1 _ (-> & ->).
      apply (tracks_post _ _ _ _ _ (IH r (p + 1)%Z)).
      intros t r' p' _ (H1 & H2 & H3) _.
      split; [lia | split; assumption]. }
    destruct (ascii_isdigit c) eqn:Hd.
    { apply Hone, scan_int_tracks, Hc. }
    destruct (ascii_isalpha c) eqn:Ha.
    { apply Hone, scan_chars_tracks, Hc. }
    destruct (existsb (String.eqb (String c "")) OPER) eqn:Ho.
    { apply Hsingle; [exact Hc | discriminate]. }
    destruct (String.eqb (String c "") "!") eqn:H1.
    { rewrite eqb_single in H1. apply Ascii.eqb_eq in H1. contradiction. }
    destruct (String.eqb (String c "") ";") eqn:H2.
    { apply Hsingle; [exact Hc | discriminate]. }
    destruct (String.eqb (String c "") ":") eqn:H3.
    { eapply tracks_bind; [apply (single_tracks _ _ c r p Hc) |].
      intros token r1 p1 _ (-> & -> & ->).
      eapply tracks_bind; [apply char_current_tracks |].
      intros c0 r1 p1 _ (-> & -> & ->).
      destruct r as [| d r].
      - cbn [String.eqb]. apply tracks_ret. intros _ _. cbn.
        split; [lia | split; [intros; lia | discriminate]].
      - rewrite eqb_single. destruct (Ascii.eqb_spec d "=") as [-> | Hd'].
        + eapply tracks_bind; [apply char_pos_tracks |].
          intros pos r1 p1 _ (-> & -> & ->).
          eapply tracks_bind;
            [apply (char_take_tracks "=" r (p + 1)%Z); discriminate |].
          intros d' r1 p1 _ (-> & ->).
          apply tracks_ret. intros _ _ _. cbn.
          split; [lia | split; [intros; lia | discriminate]].
        + apply tracks_ret. intros _ _. cbn.
          split; [lia | split; [intros; lia | discriminate]]. }
    destruct (String.eqb (String c "") "~") eqn:H4.
    { apply Hsingle; [exact Hc | discriminate]. }
    destruct (String.eqb (String c "") "(") eqn:H5.
    { apply Hsingle; [exact Hc | discriminate]. }
    destruct (String.eqb (String c "") ")") eqn:H6.
    { apply Hsingle; [exact Hc | discriminate]. }
    intro Hf. cbn [bind char_pos raise]. unfold bind, char_pos, raise.
    cbn [unrecognized_at standing pos].
    exists c. split; [reflexivity |].
    split; [| apply (follows_get c r p Hf)].
    unfold recognized. rewrite Hs, Hd, Ha, existsb_app, Ho.
    cbn [existsb orb]. rewrite H1, H2, H3, H4, H5, H6. reflexivity.
Qed.

(** The whole scan. *)
Lemma scan_loop_tracks fuel : forall r p acc,
  follows text r p ->
  match scan_loop fuel acc (standing r p) with
  | Ok (tokens, _) =>
      exists new last,
        tokens = acc ++ new ++ [last]
        /\ ascending (p - 1) (new ++ [last])
        /\ Token.pos last = Z.of_nat (String.length text)
        /\ comments_closed r = true
  | Raise e => unrecognized_at text e
  | OutOfFuel => True
  end.
Proof.
  induction fuel as [| fuel IH]; intros r p acc Hf; [exact I |].
  cbn [scan_loop]. unfold bind.
  assert (H := scan_token_tracks fuel r p Hf).
  destruct (scan_token fuel (standing r p)) as [[t s1] | e |]; auto.
  destruct H as (r1 & p1 & -> & Hf1 & Hle & Hc & H1 & H2 & H3).
  destruct (token_type_eqb (Token.type t) TK_EOT) eqn:Ht.
  - assert (Heot : Token.type t = TK_EOT)
      by (destruct (Token.type t); try discriminate Ht; reflexivity).
    destruct (H3 Heot) as [-> Hp].
    exists [], t. cbn [app ascending].
    split; [reflexivity | split; [auto |]].
    split; [rewrite Hp; apply follows_end, Hf1 | apply Hc; reflexivity].
  - assert (Hne : Token.type t <> TK_EOT)
      by (intro Heq; rewrite Heq in Ht; discriminate).
    specialize (IH r1 p1 (acc ++ [t]) Hf1).
    destruct (scan_loop fuel (acc ++ [t]) (standing r1 p1))
      as [[tokens s2] | e |]; auto.
    destruct IH as (new & last & -> & Ha & Hl & Hc1).
    exists (t :: new), last.
    split; [rewrite <- app_assoc; reflexivity |].
    split; [| split; [exact Hl | exact (Hc Hc1)]].
    cbn [app ascending]. split; [exact H1 |].
    apply (ascending_lower (p1 - 1)); [apply H2, Hne | exact Ha].
Qed.

End Text.

Lemma scanAll_tracks fuel text :
  match scanAll fuel text with
  | Ok tokens =>
      exists new last,
        tokens = new ++ [last]
        /\ ascending 0 tokens
        /\ Token.pos last = Z.of_nat (String.length text)
        /\ comments_closed text = true
  | Raise e => unrecognized_at text e
  | OutOfFuel => True
  end.
Proof.
  unfold scanAll, scan. rewrite init_standing.
  assert (H := scan_loop_tracks text fuel text 1 [] (follows_init text)).
  destruct (scan_loop fuel [] (standing text 1)) as [[tokens s] | e |];
    cbn [value_of]; auto.
  destruct H as (new & last & -> & Ha & Hl & Hc).
  exists new, last. auto.
Qed.

End scanner_positions.

(** X21: the positions of the tokens [scanAll] returns are offsets into
    the text, strictly increasing from the first token to the last, and
    the last token stands at the length of the text. *)
Theorem scanAll_positions (fuel : nat) (text : string) (tokens : list Token) :
  scanAll fuel text = Ok tokens ->
  ascending 0 tokens
  /\ exists front last,
       tokens = front ++ [last]
       /\ Token.pos last = Z.of_nat (String.length text).
Proof.
  intro H. assert (Ht := scanner_positions.scanAll_tracks fuel text).
  rewrite H in Ht. destruct Ht as (new & last & -> & Ha & Hl & _).
  split; [exact Ha |]. exists new, last. auto.
Qed.

Lemma scanAll_positions_witness :
  exists tokens,
    scanAll 12 "x :=  42" = Ok tokens
    /\ map Token.pos tokens = [0; 2; 6; 8]%Z
    /\ ascending 0 tokens.
Proof.
  exists [tk_id "x" 0; Token.mk TK_BECOMES (VInt 0) 2;
          Token.mk TK_INTLITERAL (VInt 42) 6; Token.mk TK_EOT (VInt 0) 8].
  split; [reflexivity | split; [reflexivity |]].
  apply (scanAll_positions 12 "x :=  42"). reflexivity.
Defined.

(** X22: whenever [scanAll] raises, the [ScannerError] carries one
    character of the text that starts no token, no comment and no blank,
    together with the offset of that character. *)
Theorem scanAll_error_position
  (fuel : nat) (text : string) (p : Z) (c : string) :
  scanAll fuel text = Raise (mkScannerError p c) ->
  exists c0,
    c = String c0 "" /\ recognized c0 = false
    /\ (0 <= p)%Z /\ String.get (Z.to_nat p) text = Some c0.
Proof.
  intro H. assert (Ht := scanner_positions.scanAll_tracks fuel text).
  rewrite H in Ht. exact Ht.
Qed.

Lemma scanAll_error_position_witness :
  scanAll 9 "a := b ? 1" = Raise (mkScannerError 7 "?")
  /\ exists c0,
       "?" = String c0 "" /\ recognized c0 = false
       /\ (0 <= 7)%Z /\ String.get (Z.to_nat 7) "a := b ? 1" = Some c0.
Proof.
  split; [reflexivity |].
  apply (scanAll_error_position 9 "a := b ? 1" 7 "?"). reflexivity.
Defined.

(** X23: [scanAll] returns tokens only on a text in which every comment
    marker has an end-of-line after it. *)
Theorem scanAll_tokens_need_closed_comments
  (fuel : nat) (text : string) (tokens : list Token) :
  scanAll fuel text = Ok tokens -> comments_closed text = true.
Proof.
  intro H. assert (Ht := scanner_positions.scanAll_tracks fuel text).
  rewrite H in Ht. destruct Ht as (new & last & _ & _ & _ & Hc). exact Hc.
Qed.

Lemma scanAll_tokens_need_closed_comments_witness :
  comments_closed (String.append "x ! one ! two" newline) = true.
Proof.
  apply (scanAll_tokens_need_closed_comments 20
           (String.append "x ! one ! two" newline)
           [tk_id "x" 0; Token.mk TK_EOT (VInt 0) 14]).
  reflexivity.
Defined.

(** * The scanner: comments that are closed *)

Module comment_facts.
Import scanner_facts.

(** [skip_comm] stops on the first end-of-line. *)
Lemma skip_comm_run : forall body r p k,
  no_newline body = true ->
  skip_comm (String.length body + 1 + k)
    (standing (String.append body (String.append newline r)) p)
  = Ok (tt, standing (String.append newline r)
              (p + Z.of_nat (String.length body))).
Proof.
  induction body as [| c body IH]; intros r p k Hn.
  - cbn [String.length Nat.add String.append]. rewrite Z.add_0_r.
    reflexivity.
  - unfold no_newline in Hn. cbn [has_newline] in Hn.
    apply negb_true_iff, orb_false_iff in Hn. destruct Hn as [Hc Hb].
    cbn [String.length Nat.add String.append skip_comm].
    unfold bind at 1. rewrite char_current_standing, eqb_newline, Hc.
    cbn [negb]. unfold bind. rewrite char_take_standing.
    rewrite (IH r (p + 1)%Z k) by (unfold no_newline; rewrite Hb; reflexivity).
    replace (p + Z.of_nat (S (String.length body)))%Z
      with (p + 1 + Z.of_nat (String.length body))%Z by lia.
    reflexivity.
Qed.

Lemma scan_token_comment body r p k :
  no_newline body = true ->
  scan_token (S (S (String.length body + 1 + k)))
    (standing (String "!" (String.append body (String.append newline r))) p)
  = scan_token (String.length body + 1 + k)
      (standing r (p + Z.of_nat (String.length body) + 2)).
Proof.
  intro Hn. rewrite scanner_runs.scan_token_first.
  change (ascii_isspace "!") with false.
  change (ascii_isdigit "!") with false.
  change (ascii_isalpha "!") with false.
  change (existsb (String.eqb "!") OPER) with false.
  change (String.eqb "!" "!") with true. cbv iota.
  assert (E := skip_comm_run (String "!" body) r p k).
  cbn [String.length Nat.add String.append] in E.
  unfold bind. rewrite E by exact Hn.
  unfold newline. cbn [String.append].
  rewrite (scanner_runs.scan_token_blank _ (ascii_of_nat 10) r _ eq_refl).
  replace (p + Z.of_nat (S (String.length body)) + 1)%Z
    with (p + Z.of_nat (String.length body) + 2)%Z by lia.
  reflexivity.
Qed.

End comment_facts.

(** X24: a comment is skipped with its end-of-line: on [!], [scan_token]
    passes every character up to the first end-of-line and that
    end-of-line, and goes on with the text after it, the position moved
    on by as many characters. *)
Theorem scan_token_skips_comment (body r : string) (p : Z) (k : nat) :
  no_newline body = true ->
  scan_token (S (S (String.length body + 1 + k)))
    (standing (String "!" (String.append body (String.append newline r))) p)
  = scan_token (String.length body + 1 + k)
      (standing r (p + Z.of_nat (String.length body) + 2)).
Proof. intro Hn. apply comment_facts.scan_token_comment, Hn. Qed.

Lemma scan_token_skips_comment_witness :
  scan_token 5 (scanner.init (String.append "! c" (String.append newline "x")))
  = Ok (tk_id "x" 4, standing "" 6)
  /\ scan_token 3 (standing "x" 5) = Ok (tk_id "x" 4, standing "" 6).
Proof.
  split; [| reflexivity].
  rewrite scanner_facts.init_standing.
  exact (eq_trans (scan_token_skips_comment " c" "x" 1 0 eq_refl) eq_refl).
Defined.

(** * The parser reads its trees back *)

Module reading_facts.
Import parser_facts chain_facts.

Lemma token_current_reading pre rest :
  token_current (reading pre rest) = Ok (hd (tk TK_EOT) rest, reading pre rest).
Proof. reflexivity. Qed.

Lemma accept_any_reading pre t rest :
  Token.type t <> TK_EOT -> rest <> [] ->
  token_accept_any (reading pre (t :: rest))
  = Ok (tt, reading (pre ++ [t]) rest).
Proof.
  intros Ht Hr. destruct rest as [| t' rest]; [contradiction |].
  apply token_accept_any_cursor, Ht.
Qed.

Lemma accept_reading type pre t rest :
  Token.type t = type -> type <> TK_EOT -> rest <> [] ->
  token_accept type (reading pre (t :: rest))
  = Ok (tt, reading (pre ++ [t]) rest).
Proof.
  intros Ht Hne Hr. unfold token_accept.
  rewrite (run_bind _ _ _ _ _ (token_current_reading _ _)). cbn [hd].
  rewrite Ht, token_type_eqb_refl. cbn [negb].
  apply accept_any_reading; congruence.
Qed.

Lemma closes_nonempty rest : closes rest = true -> rest <> [].
Proof. destruct rest; [discriminate | discriminate]. Qed.

Lemma closes_not_oper pre rest opers :
  closes rest = true -> is_oper (curtoken (reading pre rest)) opers = false.
Proof.
  destruct rest as [| t rest]; [discriminate |]. cbn. intro H.
  unfold is_oper. apply negb_true_iff in H. rewrite H. reflexivity.
Qed.

Lemma app_nonempty {A} (a b : list A) : b <> [] -> a ++ b <> [].
Proof. destruct a; [auto | discriminate]. Qed.

Lemma expr_tokens_nonempty e rest : expr_tokens e ++ rest <> [].
Proof. destruct e; discriminate. Qed.

(** One tier of the expression grammar. *)
Section Tier.
Variable opers : list string.
Variable operand : nat -> P Expression.
Variable loop : nat -> Expression -> Token -> P Expression.
Hypothesis loop_S : forall fuel e1 token,
  loop (S fuel) e1 token
  = if is_oper token opers then
      token_accept_any ;;
      e2 <- operand fuel ;;
      token' <- token_current ;;
      loop fuel (BinaryExpression e1 (Token.val token) e2) token'
    else ret e1.

(** An operand that no operator of the tier follows. *)
Lemma tier_alone f s e s' :
  operand (S f) s = Ok (e, s') ->
  is_oper (curtoken s') opers = false ->
  (e1 <- operand (S f) ;; token <- token_current ;; loop (S f) e1 token) s
  = Ok (e, s').
Proof using loop_S.
  intros H Ho. rewrite (run_bind _ _ _ _ _ H).
  rewrite (run_bind _ _ _ _ _ (token_current_run _)).
  rewrite loop_S, Ho. reflexivity.
Qed.

(** Two operands around one operator of the tier. *)
Lemma tier_pair f s e1 s1 s2 e2 s3 :
  operand (S (S f)) s = Ok (e1, s1) ->
  is_oper (curtoken s1) opers = true ->
  token_accept_any s1 = Ok (tt, s2) ->
  operand (S f) s2 = Ok (e2, s3) ->
  is_oper (curtoken s3) opers = false ->
  (e1 <- operand (S (S f)) ;; token <- token_current ;;
   loop (S (S f)) e1 token) s
  = Ok (BinaryExpression e1 (Token.val (curtoken s1)) e2, s3).
Proof using loop_S.
  intros H Ho Ha H2 Ho3. rewrite (run_bind _ _ _ _ _ H).
  rewrite (run_bind _ _ _ _ _ (token_current_run _)).
  rewrite loop_S, Ho.
  rewrite (run_bind _ _ _ _ _ Ha), (run_bind _ _ _ _ _ H2).
  rewrite (run_bind _ _ _ _ _ (token_current_run _)).
  rewrite loop_S, Ho3. reflexivity.
Qed.

End Tier.

Section Operands.
Variable p : P Expression.

Lemma tert_alone f s e s' :
  parse_priexpr p s = Ok (e, s') ->
  is_oper (curtoken s') ["*"; "/"; "\"] = false ->
  parse_tertexpr p (S f) s = Ok (e, s').
Proof.
  exact (tier_alone _ (fun _ => parse_priexpr p) (parse_tertexpr_loop p)
           (fun _ _ _ => eq_refl) f s e s').
Qed.

Lemma sec_alone f s e s' :
  parse_tertexpr p (S f) s = Ok (e, s') ->
  is_oper (curtoken s') ["+"; "-"] = false ->
  parse_secexpr p (S f) s = Ok (e, s').
Proof.
  exact (tier_alone _ (parse_tertexpr p) (parse_secexpr_loop p)
           (fun _ _ _ => eq_refl) f s e s').
Qed.

Lemma expr_alone f s e s' :
  parse_secexpr p (S f) s = Ok (e, s') ->
  is_oper (curtoken s') [">"; "<"; "="] = false ->
  parse_expr_body p (S f) s = Ok (e, s').
Proof.
  exact (tier_alone _ (parse_secexpr p) (parse_expr_loop p)
           (fun _ _ _ => eq_refl) f s e s').
Qed.

(** An operand that no operator follows goes through the three tiers. *)
Lemma operand_alone f s e s' :
  parse_priexpr p s = Ok (e, s') ->
  (forall opers, is_oper (curtoken s') opers = false) ->
  parse_tertexpr p (S f) s = Ok (e, s')
  /\ parse_secexpr p (S f) s = Ok (e, s')
  /\ parse_expr_body p (S f) s = Ok (e, s').
Proof.
  intros H Ho.
  assert (H3 := tert_alone f s e s' H (Ho _)).
  assert (H2 := sec_alone f s e s' H3 (Ho _)).
  assert (H1 := expr_alone f s e s' H2 (Ho _)). auto.
Qed.

(** Two operands around one operator, whatever its tier. *)
Lemma operands_pair f s e1 s1 s2 e2 s3 o :
  In o ["+"; "-"; "*"; "/"; ">"; "<"; "="; "\"] ->
  curtoken s1 = Token.mk TK_OPERATOR (VStr o) 0 ->
  parse_priexpr p s = Ok (e1, s1) ->
  token_accept_any s1 = Ok (tt, s2) ->
  parse_priexpr p s2 = Ok (e2, s3) ->
  (forall opers, is_oper (curtoken s3) opers = false) ->
  parse_expr_body p (S (S f)) s
  = Ok (BinaryExpression e1 (VStr o) e2, s3).
Proof.
  intros Hin Hs1 H1 Ha H2 Ho3.
  assert (Hval : Token.val (curtoken s1) = VStr o) by (rewrite Hs1; reflexivity).
  rewrite <- Hval.
  destruct (operand_alone f s2 e2 s3 H2 Ho3) as (T2 & S2 & _).
  cbn [In] in Hin.
  repeat destruct Hin as [<- | Hin]; try contradiction.
  all: first
    [ (* the tightest tier *)
      apply expr_alone; [| apply Ho3];
      apply sec_alone; [| apply Ho3];
      exact (tier_pair _ (fun _ => parse_priexpr p) (parse_tertexpr_loop p)
               (fun _ _ _ => eq_refl) f s e1 s1 s2 e2 s3 H1
               ltac:(rewrite Hs1; reflexivity) Ha H2 (Ho3 _))
    | (* the middle tier *)
      apply expr_alone; [| apply Ho3];
      exact (tier_pair _ (parse_tertexpr p) (parse_secexpr_loop p)
               (fun _ _ _ => eq_refl) f s e1 s1 s2 e2 s3
               (tert_alone _ s e1 s1 H1 ltac:(rewrite Hs1; reflexivity))
               ltac:(rewrite Hs1; reflexivity) Ha T2 (Ho3 _))
    | (* the loosest tier *)
      exact (tier_pair _ (parse_secexpr p) (parse_expr_loop p)
               (fun _ _ _ => eq_refl) f s e1 s1 s2 e2 s3
               (sec_alone _ s e1 s1
                  (tert_alone _ s e1 s1 H1 ltac:(rewrite Hs1; reflexivity))
                  ltac:(rewrite Hs1; reflexivity))
               ltac:(rewrite Hs1; reflexivity) Ha S2 (Ho3 _)) ].
Qed.

(** An expression in parentheses, read back by [p]. *)
Lemma parse_priexpr_paren pre e rest :
  (forall pre',
     p (reading pre' (expr_tokens e ++ tk TK_RPAREN :: rest))
     = Ok (e, reading (pre' ++ expr_tokens e) (tk TK_RPAREN :: rest))) ->
  rest <> [] ->
  parse_priexpr p
    (reading pre (tk TK_LPAREN :: expr_tokens e ++ tk TK_RPAREN :: rest))
  = Ok (e, reading (pre ++ tk TK_LPAREN :: expr_tokens e ++ [tk TK_RPAREN])
             rest).
Proof.
  intros Hp Hr. unfold parse_priexpr.
  rewrite (run_bind _ _ _ _ _ (token_current_reading _ _)).
  cbn [hd tk Token.type].
  rewrite (run_bind _ _ _ _ _
             (accept_any_reading pre (tk TK_LPAREN) _ ltac:(discriminate)
                (expr_tokens_nonempty e _))).
  rewrite (run_bind _ _ _ _ _ (Hp _)).
  rewrite (run_bind _ _ _ _ _
             (accept_reading TK_RPAREN _ (tk TK_RPAREN) rest eq_refl
                ltac:(discriminate) Hr)).
  unfold ret. rewrite <- !app_assoc. reflexivity.
Qed.

End Operands.

Lemma ops_ok_operator oper :
  match operator_instr oper with Some _ => true | None => false end = true ->
  exists o, oper = VStr o
            /\ In o ["+"; "-"; "*"; "/"; ">"; "<"; "="; "\"].
Proof.
  destruct oper as [z | o]; [discriminate |]. intro H. exists o.
  split; [reflexivity |].
  cbn [operator_instr operator_table lookup] in H. cbn [In].
  repeat match type of H with
         | context [String.eqb o ?x] =>
             let E := fresh "E" in
             destruct (String.eqb_spec o x) as [E | _]; [rewrite E; tauto |]
         end.
  discriminate H.
Qed.

Lemma expr_size_pos e : 1 <= expr_size e.
Proof. destruct e; cbn; lia. Qed.

(** The parser reads an expression back from its tokens. *)
Lemma parse_expr_reads e :
  ops_ok e = true ->
  forall fuel pre rest,
    expr_size e < fuel -> closes rest = true ->
    parse_expr fuel (reading pre (expr_tokens e ++ rest))
    = Ok (e, reading (pre ++ expr_tokens e) rest).
Proof.
  induction e as [v | v | e1 IH1 oper e2 IH2]; intros Hok fuel pre rest Hf Hr.
  - destruct fuel as [| [| f]]; try (cbn in Hf; lia).
    cbn [parse_expr expr_tokens app].
    destruct rest as [| n post]; [discriminate Hr |].
    apply operand_alone.
    + apply (parse_priexpr_primary _ pre (Token.mk TK_INTLITERAL v 0) n post).
      reflexivity.
    + intro opers. apply (closes_not_oper _ (n :: post) opers Hr).
  - destruct fuel as [| [| f]]; try (cbn in Hf; lia).
    cbn [parse_expr expr_tokens app].
    destruct rest as [| n post]; [discriminate Hr |].
    apply operand_alone.
    + destruct v as [i].
      apply (parse_priexpr_primary _ pre (Token.mk TK_IDENTIFIER i 0) n post).
      reflexivity.
    + intro opers. apply (closes_not_oper _ (n :: post) opers Hr).
  - cbn [ops_ok] in Hok.
    apply andb_true_iff in Hok. destruct Hok as [Hok Hop].
    apply andb_true_iff in Hok. destruct Hok as [Hok1 Hok2].
    destruct (ops_ok_operator oper Hop) as (o & -> & Hin).
    cbn [expr_size] in Hf.
    assert (P1 := expr_size_pos e1). assert (P2 := expr_size_pos e2).
    destruct fuel as [| [| [| f]]]; try lia.
    change (parse_expr (S (S (S f))))
      with (parse_expr_body (parse_expr (S (S f))) (S (S f))).
    cbn [expr_tokens]. rewrite <- !app_assoc. cbn [app].
    assert (Hrest := closes_nonempty rest Hr).
    eapply (operands_pair _ f _ e1
              (reading (pre ++ tk TK_LPAREN :: expr_tokens e1 ++ [tk TK_RPAREN])
                 (Token.mk TK_OPERATOR (VStr o) 0
                  :: tk TK_LPAREN :: expr_tokens e2 ++ tk TK_RPAREN :: rest))
              _ e2 _ o Hin).
    + reflexivity.
    + apply parse_priexpr_paren; [| discriminate].
      intro pre'. apply (IH1 Hok1 (S (S f))); [lia | reflexivity].
    + apply accept_any_reading; discriminate.
    + match goal with
      | |- _ = Ok (_, ?s) =>
          replace s with
            (reading ((pre ++ tk TK_LPAREN :: expr_tokens e1 ++ [tk TK_RPAREN])
                      ++ [Token.mk TK_OPERATOR (VStr o) 0]
                      ++ tk TK_LPAREN :: expr_tokens e2 ++ [tk TK_RPAREN])
               rest)
      end.
      * rewrite app_assoc.
        apply parse_priexpr_paren; [| exact Hrest].
        intro pre'. apply (IH2 Hok2 (S (S f))); [lia | reflexivity].
      * f_equal. rewrite <- !app_assoc. cbn [app].
        rewrite <- !app_assoc. reflexivity.
    + intro opers. apply closes_not_oper, Hr.
Qed.

Lemma bind_assoc {S E A B C} (m : M S E A) (f : A -> M S E B)
  (k : B -> M S E C) s :
  bind (bind m f) k s = bind m (fun x => bind (f x) k) s.
Proof. unfold bind. destruct (m s) as [[a s'] | e |]; reflexivity. Qed.

Lemma ret_run {S E A} (a : A) (s : S) : ret (E := E) a s = Ok (a, s).
Proof. reflexivity. Qed.

Ltac step H := rewrite (run_bind _ _ _ _ _ H).
Ltac returns := erewrite run_bind by apply ret_run.
Ltac current :=
  rewrite (run_bind _ _ _ _ _ (token_current_reading _ _));
  cbn [hd tk Token.type Token.val].
Ltac normalize := rewrite <- ?app_assoc; cbn [app].

Lemma decl_tokens_nonempty d : forall rest, decl_tokens d ++ rest <> [].
Proof.
  induction d as [v e | v t | d1 IH1 d2 IH2]; intro rest; try discriminate.
  cbn [decl_tokens]. rewrite <- app_assoc. apply IH1.
Qed.

Lemma cmd_tokens_nonempty c rest : cmd_tokens c ++ rest <> [].
Proof. destruct c; discriminate. Qed.

Ltac ahead :=
  first [ discriminate
        | assumption
        | apply expr_tokens_nonempty
        | apply cmd_tokens_nonempty
        | apply decl_tokens_nonempty ].
Ltac take :=
  erewrite run_bind by (apply accept_any_reading; [discriminate | ahead]).
Ltac accept :=
  erewrite run_bind
    by (apply accept_reading; [reflexivity | discriminate | ahead]).
Ltac reads H :=
  erewrite run_bind by (apply H; [lia | first [assumption | reflexivity]]).

Lemma cmd_first_not_END c rest :
  token_type_eqb (Token.type (hd (tk TK_EOT) (cmd_tokens c ++ rest))) TK_END
  = false.
Proof. destruct c; reflexivity. Qed.

Lemma decl_first_not_IN d rest :
  is_atomic_decl d = true ->
  token_type_eqb (Token.type (hd (tk TK_EOT) (decl_tokens d ++ rest))) TK_IN
  = false.
Proof. destruct d; [reflexivity | reflexivity | discriminate]. Qed.

Lemma cmd_size_pos c : 2 <= cmd_size c.
Proof.
  induction c; cbn [cmd_size];
    try match goal with
        | |- context [expr_size ?e] => assert (Hs := expr_size_pos e)
        end; lia.
Qed.

Lemma parse_var_reads pre v t rest :
  parse_var
    (reading pre (Token.mk TK_IDENTIFIER v 0 :: tk TK_COLON :: t :: rest))
  = Ok (VarDeclaration v (mkTypeDenoter (Token.val t)),
        reading (pre ++ [Token.mk TK_IDENTIFIER v 0; tk TK_COLON])
          (t :: rest)).
Proof.
  unfold parse_var. current. cbn [token_type_eqb token_code Z.eqb Pos.eqb].
  take. accept. current. unfold ret. normalize. reflexivity.
Qed.

(** A single declaration is read back from its tokens. *)
Lemma parse_declaration_reads d :
  is_atomic_decl d = true -> decl_ok d = true ->
  forall fuel pre rest,
    decl_size d <= fuel -> closes rest = true ->
    parse_declaration fuel (reading pre (decl_tokens d ++ rest))
    = Ok (d, reading (pre ++ decl_tokens d) rest).
Proof.
  intros Ha Hok fuel pre rest Hf Hr.
  assert (Hrest := closes_nonempty rest Hr).
  destruct d as [v e | v [tv] | d1 d2]; [| | discriminate Ha].
  - cbn [decl_ok] in Hok. cbn [decl_size] in Hf.
    cbn [decl_tokens app]. unfold parse_declaration. current. take.
    unfold parse_const. current.
    cbn [token_type_eqb token_code Z.eqb Pos.eqb]. take. accept.
    reads (parse_expr_reads e Hok).
    unfold ret. normalize. reflexivity.
  - cbn [decl_tokens app type_identifier]. unfold parse_declaration.
    current. take.
    erewrite run_bind by apply parse_var_reads.
    take. unfold ret. normalize. reflexivity.
Qed.

(** The declarations of a [let], nested to the left: the first
    declaration and the loop bring the parser to the end of the
    declarations with the whole sequence built. *)
Lemma parse_let_declarations {B} (K : Declaration -> P B) d :
  left_nested d = true -> decl_ok d = true ->
  forall fuel pre rest,
    decl_size d <= fuel -> closes rest = true ->
    exists g,
      fuel <= g + decl_size d
      /\ (decl <- parse_declaration fuel ;;
          token <- token_current ;;
          decl' <- parse_let_loop fuel decl token ;;
          K decl') (reading pre (decl_tokens d ++ rest))
         = (decl' <- parse_let_loop g d (hd (tk TK_EOT) rest) ;; K decl')
             (reading (pre ++ decl_tokens d) rest).
Proof.
  induction d as [v e | v t | d1 IH1 d2 _]; intros Hl Hok fuel pre rest Hf Hr.
  - exists fuel. split; [lia |].
    step (parse_declaration_reads (ConstDeclaration v e) eq_refl Hok
            fuel pre rest Hf Hr).
    rewrite (run_bind _ _ _ _ _ (token_current_reading _ _)). reflexivity.
  - exists fuel. split; [lia |].
    step (parse_declaration_reads (VarDeclaration v t) eq_refl Hok
            fuel pre rest Hf Hr).
    rewrite (run_bind _ _ _ _ _ (token_current_reading _ _)). reflexivity.
  - cbn [left_nested] in Hl. apply andb_true_iff in Hl.
    destruct Hl as [Hl1 Ha2].
    cbn [decl_ok] in Hok. apply andb_true_iff in Hok.
    destruct Hok as [Hok1 Hok2].
    cbn [decl_size] in Hf. cbn [decl_tokens]. normalize.
    destruct (IH1 Hl1 Hok1 fuel pre
                (tk TK_SEMICOLON :: decl_tokens d2 ++ rest)
                ltac:(lia) eq_refl) as (g1 & Hg1 & E).
    rewrite E. cbn [hd].
    destruct g1 as [| g]; [lia |].
    exists g. split; [cbn [decl_size]; lia |].
    match goal with |- _ = ?R => remember R as rhs eqn:Erhs end.
    cbn [parse_let_loop tk Token.type token_type_eqb token_code Z.eqb Pos.eqb].
    rewrite bind_assoc. take. rewrite bind_assoc. current.
    rewrite (decl_first_not_IN d2 rest Ha2).
    rewrite bind_assoc. reads (parse_declaration_reads d2 Ha2 Hok2).
    rewrite bind_assoc.
    rewrite (run_bind _ _ _ _ _ (token_current_reading _ _)).
    subst rhs. normalize. reflexivity.
Qed.

(** The parser reads a command back from its tokens. *)
Lemma parse_command_reads c :
  cmd_ops c = true -> decls_left_nested c = true ->
  forall fuel pre rest,
    cmd_size c < fuel -> closes rest = true ->
    parse_command fuel (reading pre (cmd_tokens c ++ rest))
    = Ok (c, reading (pre ++ cmd_tokens c) rest).
Proof.
  induction c as [[i] e | name e | c1 IH1 c2 IH2 | e c1 IH1 c2 IH2
                 | e c IH | d c IH];
    intros Hok Hl fuel pre rest Hf Hr;
    assert (Hrest := closes_nonempty rest Hr);
    (destruct fuel as [| f]; [lia |]);
    change (parse_command (S f))
      with (parse_command_body (parse_command f) f);
    cbn [cmd_ops] in Hok; cbn [decls_left_nested] in Hl;
    cbn [cmd_size] in Hf; cbn [cmd_tokens identifier]; normalize;
    unfold parse_command_body; current.
  - unfold parse_identifier. current. take. current. take.
    reads (parse_expr_reads e Hok).
    unfold ret. normalize. reflexivity.
  - unfold parse_identifier. current. take. current. take.
    reads (parse_expr_reads e Hok).
    accept. unfold ret. normalize. reflexivity.
  - apply andb_true_iff in Hok. destruct Hok as [Hok1 Hok2].
    apply andb_true_iff in Hl. destruct Hl as [Hl1 Hl2].
    assert (S1 := cmd_size_pos c1). assert (S2 := cmd_size_pos c2).
    unfold parse_begin. take.
    reads (IH1 Hok1 Hl1).
    current.
    destruct f as [| [| f]]; try lia.
    cbn [parse_begin_loop tk Token.type token_type_eqb token_code Z.eqb Pos.eqb].
    rewrite bind_assoc. take. rewrite bind_assoc. current.
    rewrite cmd_first_not_END.
    rewrite bind_assoc. reads (IH2 Hok2 Hl2).
    rewrite bind_assoc. current.
    cbn [token_type_eqb token_code Z.eqb Pos.eqb]. returns.
    accept. unfold ret. normalize. reflexivity.
  - apply andb_true_iff in Hok. destruct Hok as [Hok Hok2].
    apply andb_true_iff in Hok. destruct Hok as [Hoke Hok1].
    apply andb_true_iff in Hl. destruct Hl as [Hl1 Hl2].
    accept.
    reads (parse_expr_reads e Hoke).
    take.
    reads (IH1 Hok1 Hl1).
    take. accept.
    reads (IH2 Hok2 Hl2).
    unfold ret. normalize. reflexivity.
  - apply andb_true_iff in Hok. destruct Hok as [Hoke Hok1].
    accept.
    reads (parse_expr_reads e Hoke).
    accept.
    reads (IH Hok1 Hl).
    unfold ret. normalize. reflexivity.
  - apply andb_true_iff in Hok. destruct Hok as [Hokd Hok1].
    apply andb_true_iff in Hl. destruct Hl as [Hld Hl1].
    unfold parse_let. take.
    destruct (parse_let_declarations
                (fun decl => token_accept TK_IN ;;
                             comm <- parse_command f ;;
                             ret (LetCommand decl comm))
                d Hld Hokd f (pre ++ [tk TK_LET])
                (tk TK_IN :: cmd_tokens c ++ rest) ltac:(lia) eq_refl)
      as (g & Hg & E).
    refine (eq_trans E _). cbv beta. cbn [hd].
    destruct g as [| g]; [lia |].
    cbn [parse_let_loop tk Token.type token_type_eqb token_code Z.eqb Pos.eqb].
    returns. accept.
    reads (IH Hok1 Hl1).
    unfold ret. normalize. reflexivity.
Qed.

Lemma init_reading l : l <> [] -> parser.init l = Ok (reading [] l).
Proof. destruct l; [contradiction | reflexivity]. Qed.

Lemma parse_reads c k :
  cmd_ops c = true -> decls_left_nested c = true ->
  parse (S (cmd_size c) + k) (cmd_tokens c ++ [tk TK_EOT])
  = Ok (mkProgram c).
Proof.
  intros Hok Hl. unfold parse.
  rewrite (init_reading _ (cmd_tokens_nonempty c _)).
  unfold parse_program.
  step (parse_command_reads c Hok Hl (S (cmd_size c) + k) [] [tk TK_EOT]
          ltac:(lia) eq_refl).
  reflexivity.
Qed.

End reading_facts.

(** X10: the parser reads every tree back from its tokens.  A command
    whose operators are among the eight and whose declarations are nested
    to the left, written as tokens with the operands of each operator in
    parentheses, each sequence as a [begin] block and each conditional
    with a semicolon before [else], parses to that very command. *)
Theorem parse_reads_back (c : Command) (k : nat) :
  cmd_ops c = true -> decls_left_nested c = true ->
  parse (S (cmd_size c) + k) (cmd_tokens c ++ [tk TK_EOT])
  = Ok (mkProgram c).
Proof. intros Hok Hl. apply reading_facts.parse_reads; assumption. Qed.

Lemma parse_reads_back_witness :
  parse (S (cmd_size sample_program) + 0)
    (cmd_tokens sample_program ++ [tk TK_EOT])
  = Ok (mkProgram sample_program).
Proof. apply (parse_reads_back sample_program 0); reflexivity. Defined.

(** * Conditionals and blocks *)

Module block_facts.
Import parser_facts chain_facts reading_facts.

Lemma closes_cons t rest :
  Token.type t <> TK_OPERATOR -> closes (t :: rest) = true.
Proof.
  intro H. cbn [closes]. rewrite (token_type_eqb_neq _ _ H). reflexivity.
Qed.

(** The two tokens around the first branch of a conditional are taken
    unchecked. *)
Lemma parse_if_reads e c1 c2 X Y f pre rest :
  ops_ok e = true ->
  cmd_ops c1 = true -> decls_left_nested c1 = true ->
  cmd_ops c2 = true -> decls_left_nested c2 = true ->
  Token.type X <> TK_OPERATOR -> Token.type X <> TK_EOT ->
  Token.type Y <> TK_OPERATOR -> Token.type Y <> TK_EOT ->
  cmd_size (IfCommand e c1 c2) <= f -> closes rest = true ->
  parse_command (S f)
    (reading pre
       (tk TK_IF :: expr_tokens e ++ X :: cmd_tokens c1
        ++ Y :: tk TK_ELSE :: cmd_tokens c2 ++ rest))
  = Ok (IfCommand e c1 c2,
        reading
          (pre ++ tk TK_IF :: expr_tokens e ++ X :: cmd_tokens c1
           ++ Y :: tk TK_ELSE :: cmd_tokens c2) rest).
Proof.
  intros He H1 L1 H2 L2 HX HX' HY HY' Hf Hr. cbn [cmd_size] in Hf.
  change (parse_command (S f)) with (parse_command_body (parse_command f) f).
  unfold parse_command_body. current. accept.
  erewrite run_bind
    by (apply (parse_expr_reads e He); [lia | apply closes_cons, HX]).
  erewrite run_bind
    by (apply accept_any_reading; [exact HX' | apply cmd_tokens_nonempty]).
  erewrite run_bind
    by (apply (parse_command_reads c1 H1 L1); [lia | apply closes_cons, HY]).
  erewrite run_bind
    by (apply accept_any_reading; [exact HY' | discriminate]).
  accept.
  erewrite run_bind
    by (apply (parse_command_reads c2 H2 L2); [lia | exact Hr]).
  unfold ret. normalize. reflexivity.
Qed.

Lemma parse_if_any_tokens e c1 c2 X Y k :
  ops_ok e = true ->
  cmd_ops c1 = true -> decls_left_nested c1 = true ->
  cmd_ops c2 = true -> decls_left_nested c2 = true ->
  Token.type X <> TK_OPERATOR -> Token.type X <> TK_EOT ->
  Token.type Y <> TK_OPERATOR -> Token.type Y <> TK_EOT ->
  parse (S (cmd_size (IfCommand e c1 c2)) + k)
    ([tk TK_IF] ++ expr_tokens e ++ [X] ++ cmd_tokens c1
     ++ [Y; tk TK_ELSE] ++ cmd_tokens c2 ++ [tk TK_EOT])
  = Ok (mkProgram (IfCommand e c1 c2)).
Proof.
  intros He H1 L1 H2 L2 HX HX' HY HY'. unfold parse. cbn [app].
  rewrite init_reading by discriminate.
  unfold parse_program.
  change (S (cmd_size (IfCommand e c1 c2)) + k)
    with (S (cmd_size (IfCommand e c1 c2) + k)).
  rewrite (run_bind _ _ _ _ _
             (parse_if_reads e c1 c2 X Y _ [] [tk TK_EOT]
                He H1 L1 H2 L2 HX HX' HY HY' (Nat.le_add_r _ k) eq_refl)).
  reflexivity.
Qed.

(** A block of one command, with or without a semicolon before [end]. *)
Lemma parse_begin_one c k (semi : bool) :
  cmd_ops c = true -> decls_left_nested c = true ->
  parse (S (S (cmd_size c)) + k)
    ([tk TK_BEGIN] ++ cmd_tokens c
     ++ (if semi then [tk TK_SEMICOLON] else [])
     ++ [tk TK_END; tk TK_EOT])
  = Ok (mkProgram c).
Proof.
  intros Hok Hl. unfold parse. cbn [app].
  rewrite init_reading by discriminate.
  unfold parse_program.
  change (parse_command (S (S (cmd_size c)) + k))
    with (parse_command_body (parse_command (S (cmd_size c) + k))
            (S (cmd_size c) + k)).
  unfold parse_command_body. rewrite ?bind_assoc. current.
  unfold parse_begin. rewrite ?bind_assoc. take.
  rewrite ?bind_assoc.
  destruct semi; cbn [app].
  - erewrite run_bind
      by (apply (parse_command_reads c Hok Hl); [lia | reflexivity]).
    rewrite ?bind_assoc. current.
    cbn [Nat.add parse_begin_loop tk Token.type token_type_eqb token_code Z.eqb Pos.eqb].
    rewrite ?bind_assoc. take. rewrite ?bind_assoc. current.
    cbn [tk Token.type token_type_eqb token_code Z.eqb Pos.eqb].
    rewrite ?bind_assoc. returns. rewrite ?bind_assoc. accept.
    reflexivity.
  - erewrite run_bind
      by (apply (parse_command_reads c Hok Hl); [lia | reflexivity]).
    rewrite ?bind_assoc. current.
    cbn [Nat.add parse_begin_loop tk Token.type token_type_eqb token_code Z.eqb Pos.eqb].
    rewrite ?bind_assoc. returns. rewrite ?bind_assoc. accept.
    reflexivity.
Qed.

End block_facts.

(** X11: the parser takes the token after the condition and the token
    after the first branch of a conditional without looking at them: any
    two tokens there, but an operator or the end of text, give the same
    conditional. *)
Theorem parse_if_skips_two_tokens
  (e : Expression) (c1 c2 : Command) (X Y : Token) (k : nat) :
  ops_ok e = true ->
  cmd_ops c1 = true -> decls_left_nested c1 = true ->
  cmd_ops c2 = true -> decls_left_nested c2 = true ->
  Token.type X <> TK_OPERATOR -> Token.type X <> TK_EOT ->
  Token.type Y <> TK_OPERATOR -> Token.type Y <> TK_EOT ->
  parse (S (cmd_size (IfCommand e c1 c2)) + k)
    ([tk TK_IF] ++ expr_tokens e ++ [X] ++ cmd_tokens c1
     ++ [Y; tk TK_ELSE] ++ cmd_tokens c2 ++ [tk TK_EOT])
  = Ok (mkProgram (IfCommand e c1 c2)).
Proof. apply block_facts.parse_if_any_tokens. Qed.

Lemma parse_if_skips_two_tokens_witness :
  let c1 := AssignCommand (mkVname (VStr "y")) (IntegerExpression (VInt 1)) in
  let c2 := AssignCommand (mkVname (VStr "y")) (IntegerExpression (VInt 2)) in
  parse (S (cmd_size (IfCommand (var_ref "x") c1 c2)) + 0)
    [tk TK_IF; tk_id "x" 0; tk TK_DO; tk_id "y" 0; tk TK_BECOMES;
     Token.mk TK_INTLITERAL (VInt 1) 0; tk TK_RPAREN; tk TK_ELSE;
     tk_id "y" 0; tk TK_BECOMES; Token.mk TK_INTLITERAL (VInt 2) 0;
     tk TK_EOT]
  = Ok (mkProgram (IfCommand (var_ref "x") c1 c2)).
Proof.
  intros c1 c2.
  apply (parse_if_skips_two_tokens (var_ref "x") c1 c2
           (tk TK_DO) (tk TK_RPAREN) 0);
    first [reflexivity | discriminate].
Defined.

(** X12: a [begin] block of one command is that command, and a semicolon
    before [end] changes nothing: no node is built for the block. *)
Theorem parse_begin_of_one_command (c : Command) (k : nat) (semi : bool) :
  cmd_ops c = true -> decls_left_nested c = true ->
  parse (S (S (cmd_size c)) + k)
    ([tk TK_BEGIN] ++ cmd_tokens c
     ++ (if semi then [tk TK_SEMICOLON] else [])
     ++ [tk TK_END; tk TK_EOT])
  = Ok (mkProgram c).
Proof. apply block_facts.parse_begin_one. Qed.

Lemma parse_begin_of_one_command_witness :
  parse (S (S (cmd_size sample_program)) + 0)
    ([tk TK_BEGIN] ++ cmd_tokens sample_program
     ++ [tk TK_SEMICOLON] ++ [tk TK_END; tk TK_EOT])
  = Ok (mkProgram sample_program).
Proof.
  apply (parse_begin_of_one_command sample_program 0 true); reflexivity.
Defined.

(** * The end of a program *)

(** X25: nothing may follow the command of a program but the end of
    text: with any other token after it (an operator apart, which an
    expression at the end of the command would take), [parse] raises a
    [ParserError] with the position and the type of that token. *)
Theorem parse_rejects_trailing_token
  (c : Command) (t : Token) (rest : list Token) (k : nat) :
  cmd_ops c = true -> decls_left_nested c = true ->
  Token.type t <> TK_OPERATOR -> Token.type t <> TK_EOT ->
  parse (S (cmd_size c) + k) (cmd_tokens c ++ t :: rest)
  = Raise (ParserError (Token.pos t) (Token.type t)).
Proof.
  intros Hok Hl Ho He. unfold parse.
  rewrite (reading_facts.init_reading _
             (reading_facts.cmd_tokens_nonempty c _)).
  unfold parse_program.
  rewrite (parser_facts.run_bind _ _ _ _ _
             (reading_facts.parse_command_reads c Hok Hl
                (S (cmd_size c) + k) [] (t :: rest) ltac:(lia)
                (block_facts.closes_cons t rest Ho))).
  unfold bind, token_accept, bind, token_current.
  cbn [reading curtoken hd].
  rewrite (parser_facts.token_type_eqb_neq _ _ He). reflexivity.
Qed.

Lemma parse_rejects_trailing_token_witness :
  parse (S (cmd_size sample_program) + 0)
    (cmd_tokens sample_program
     ++ [Token.mk TK_SEMICOLON (VInt 0) 99; tk TK_EOT])
  = Raise (ParserError 99 TK_SEMICOLON).
Proof.
  apply (parse_rejects_trailing_token sample_program
           (Token.mk TK_SEMICOLON (VInt 0) 99) [tk TK_EOT] 0);
    first [reflexivity | discriminate].
Defined.

(** * More on the end of text and on closed comments *)

Lemma parse_var_at_end_of_text_witness :
  let tokens :=
    [Token.mk TK_LET (VInt 0) 0; Token.mk TK_VAR (VInt 0) 4;
     tk_id "x" 8; Token.mk TK_COLON (VInt 0) 9;
     Token.mk TK_EOT (VInt 0) 10] in
  parse_declaration 0
    {| tokens := tokens; curindex := 1;
       curtoken := Token.mk TK_VAR (VInt 0) 4 |}
  = Ok (VarDeclaration (VStr "x") (mkTypeDenoter (VInt 0)),
        {| tokens := tokens; curindex := 4;
           curtoken := Token.mk TK_EOT (VInt 0) 10 |}).
Proof.
  apply (parse_var_at_end_of_text 0
           [Token.mk TK_LET (VInt 0) 0]
           (Token.mk TK_VAR (VInt 0) 4) (tk_id "x" 8)
           (Token.mk TK_COLON (VInt 0) 9) (Token.mk TK_EOT (VInt 0) 10));
    reflexivity.
Defined.

Lemma scanAll_closed_comments_witness :
  let text := String.append "x ! note" (String.append newline "y") in
  comments_closed text = true
  /\ ((exists e, scanAll (String.length text + 3 + 0) text = Raise e)
      \/ (exists mid last,
            scanAll (String.length text + 3 + 0) text = Ok (mid ++ [last])
            /\ Token.type last = TK_EOT
            /\ Forall (fun t => Token.type t <> TK_EOT) mid)).
Proof.
  intro text. split; [reflexivity |].
  apply (scanAll_closed_comments text 0). reflexivity.
Defined.
